(** * Forsp (Go port): a shallow embedding of forsp/forsp.go

    The interpreter state, the Go heap it allocates on and the standard
    output it prints to are carried explicitly; every function of the
    source is a computation in the monad [M] below.  Pointers are heap
    addresses, Go's [nil] pointer is [None].  Panics ([fail], [assert],
    nil dereferences) are results of their own, and so is running out of
    the recursion budget [fuel] that bounds loops and recursive calls. *)

From stdpp Require Import base list strings.
From Stdlib Require Import ZArith Lia Ascii.
From Stdlib Require String.

Local Open Scope Z_scope.
Local Open Scope nat_scope.

(** ** Go strings and bytes *)

(** A Go [string] is a sequence of bytes. *)
Abbreviation gostring := (list ascii).

Definition str (s : string) : gostring := String.list_ascii_of_string s.

Definition byte_eq (a b : ascii) : bool := Ascii.eqb a b.

Definition NUL : ascii := ascii_of_nat 0.

(** ** 64-bit integers *)

(** [int64] arithmetic wraps around (two's complement). *)
Definition wrap64 (z : Z) : Z := ((z + 2 ^ 63) mod 2 ^ 64 - 2 ^ 63)%Z.

(** [uint(x)] for an [int64] [x] on a 64-bit target. *)
Definition to_uint (z : Z) : Z := (z mod 2 ^ 64)%Z.

Definition in_int64 (z : Z) : Prop := (- 2 ^ 63 <= z < 2 ^ 63)%Z.

Definition sub64 (a b : Z) : Z := wrap64 (a - b).
Definition mul64 (a b : Z) : Z := wrap64 (a * b).
Definition nand64 (a b : Z) : Z := Z.lnot (Z.land a b).

(** [a << s] on [int64] with an unsigned count: counts of 64 and more
    shift every bit out. *)
Definition shl64 (a : Z) (s : Z) : Z :=
  if (64 <=? s)%Z then 0%Z else wrap64 (Z.shiftl a s).

(** [a >> s] on [int64]: Go shifts a signed operand arithmetically, the
    sign bit is replicated. *)
Definition shr64 (a : Z) (s : Z) : Z :=
  if (64 <=? s)%Z then (if (a <? 0)%Z then (-1)%Z else 0%Z) else Z.shiftr a s.

(** ** Object model *)

Inductive Tag := TagNil | TagAtom | TagNumber | TagPair | TagClosure | TagPrimitive.

(** The [iota] values of the tag constants. *)
Definition Tag_value (t : Tag) : Z :=
  match t with
  | TagNil => 0 | TagAtom => 1 | TagNumber => 2
  | TagPair => 3 | TagClosure => 4 | TagPrimitive => 5
  end%Z.

Global Instance Tag_eq_dec : EqDecision Tag.
Proof. solve_decision. Defined.

(** A pointer: [None] is Go's [nil]. *)
Abbreviation ptr := (option nat).

Definition ptr_eq (a b : ptr) : bool := bool_decide (a = b).

(** [type Obj struct { *Nil; *Atom; *Number; *Pair; *Closure; *Primitive; Tag Tag }] *)
Record Obj := mkObj {
  o_Nil : ptr;
  o_Atom : ptr;
  o_Number : ptr;
  o_Pair : ptr;
  o_Closure : ptr;
  o_Primitive : ptr;
  o_Tag : Tag
}.

Global Instance Obj_eq_dec : EqDecision Obj.
Proof. solve_decision. Defined.

(** The host functions installed as primitives (method values of the
    interpreter). *)
Inductive Primitive :=
  | PrimPush | PrimPop | PrimEq | PrimCons | PrimCar | PrimCdr | PrimCswap
  | PrimTag | PrimRead | PrimPrint
  | PrimStack | PrimEnv | PrimSub | PrimMul | PrimNand | PrimLsh | PrimRsh.

(** What an address of the heap holds: one of the payload types, or an
    [Obj] struct. *)
Inductive Cell :=
  | CNil
  | CAtom (s : gostring)
  | CNumber (n : Z)
  | CPair (car cdr : ptr)
  | CClosure (body env : ptr)
  | CPrimitive (p : Primitive)
  | CObj (o : Obj).

(** ** Interpreter state *)

Record Forsp := mkForsp {
  nil_ : ptr;            (* nil: () *)
  readStack : ptr;       (* deferred objects to emit from Read *)
  internedAtoms : ptr;   (* interned atoms list *)
  AtomTrue : ptr;
  AtomQuote : ptr;
  AtomPush : ptr;
  AtomPop : ptr;
  Stack : ptr;           (* top-of-stack (implemented with pairs) *)
  Env : ptr;             (* top-level / initial environment *)
  input : gostring;      (* input data used by Read *)
  pos : nat;             (* input position used by Read *)
  heap : list Cell;      (* the Go heap: address = index *)
  stdout : gostring      (* everything printed so far *)
}.

Definition set_nil (v : ptr) (f : Forsp) : Forsp :=
  mkForsp v (readStack f) (internedAtoms f) (AtomTrue f) (AtomQuote f) (AtomPush f)
    (AtomPop f) (Stack f) (Env f) (input f) (pos f) (heap f) (stdout f).
Definition set_readStack (v : ptr) (f : Forsp) : Forsp :=
  mkForsp (nil_ f) v (internedAtoms f) (AtomTrue f) (AtomQuote f) (AtomPush f)
    (AtomPop f) (Stack f) (Env f) (input f) (pos f) (heap f) (stdout f).
Definition set_internedAtoms (v : ptr) (f : Forsp) : Forsp :=
  mkForsp (nil_ f) (readStack f) v (AtomTrue f) (AtomQuote f) (AtomPush f)
    (AtomPop f) (Stack f) (Env f) (input f) (pos f) (heap f) (stdout f).
Definition set_AtomTrue (v : ptr) (f : Forsp) : Forsp :=
  mkForsp (nil_ f) (readStack f) (internedAtoms f) v (AtomQuote f) (AtomPush f)
    (AtomPop f) (Stack f) (Env f) (input f) (pos f) (heap f) (stdout f).
Definition set_AtomQuote (v : ptr) (f : Forsp) : Forsp :=
  mkForsp (nil_ f) (readStack f) (internedAtoms f) (AtomTrue f) v (AtomPush f)
    (AtomPop f) (Stack f) (Env f) (input f) (pos f) (heap f) (stdout f).
Definition set_AtomPush (v : ptr) (f : Forsp) : Forsp :=
  mkForsp (nil_ f) (readStack f) (internedAtoms f) (AtomTrue f) (AtomQuote f) v
    (AtomPop f) (Stack f) (Env f) (input f) (pos f) (heap f) (stdout f).
Definition set_AtomPop (v : ptr) (f : Forsp) : Forsp :=
  mkForsp (nil_ f) (readStack f) (internedAtoms f) (AtomTrue f) (AtomQuote f) (AtomPush f)
    v (Stack f) (Env f) (input f) (pos f) (heap f) (stdout f).
Definition set_Stack (v : ptr) (f : Forsp) : Forsp :=
  mkForsp (nil_ f) (readStack f) (internedAtoms f) (AtomTrue f) (AtomQuote f) (AtomPush f)
    (AtomPop f) v (Env f) (input f) (pos f) (heap f) (stdout f).
Definition set_Env (v : ptr) (f : Forsp) : Forsp :=
  mkForsp (nil_ f) (readStack f) (internedAtoms f) (AtomTrue f) (AtomQuote f) (AtomPush f)
    (AtomPop f) (Stack f) v (input f) (pos f) (heap f) (stdout f).
Definition set_input (v : gostring) (f : Forsp) : Forsp :=
  mkForsp (nil_ f) (readStack f) (internedAtoms f) (AtomTrue f) (AtomQuote f) (AtomPush f)
    (AtomPop f) (Stack f) (Env f) v (pos f) (heap f) (stdout f).
Definition set_pos (v : nat) (f : Forsp) : Forsp :=
  mkForsp (nil_ f) (readStack f) (internedAtoms f) (AtomTrue f) (AtomQuote f) (AtomPush f)
    (AtomPop f) (Stack f) (Env f) (input f) v (heap f) (stdout f).
Definition set_heap (v : list Cell) (f : Forsp) : Forsp :=
  mkForsp (nil_ f) (readStack f) (internedAtoms f) (AtomTrue f) (AtomQuote f) (AtomPush f)
    (AtomPop f) (Stack f) (Env f) (input f) (pos f) v (stdout f).
Definition set_stdout (v : gostring) (f : Forsp) : Forsp :=
  mkForsp (nil_ f) (readStack f) (internedAtoms f) (AtomTrue f) (AtomQuote f) (AtomPush f)
    (AtomPop f) (Stack f) (Env f) (input f) (pos f) (heap f) v.

(** ** The monad of interpreter computations *)

(** The message of a panic is the fixed text of the source; the operands
    [fmt.Sprintf] appends to it ([%v] of an object, the name of a key)
    are left out. *)
Inductive panic :=
  | FAIL (msg : string)      (* fail(): user-facing failure *)
  | ASSERT (msg : string)    (* assert(): broken internal invariant *)
  | RuntimeError.            (* nil dereference, index out of range *)

Inductive Res (A : Type) :=
  | Ok (a : A) (f : Forsp)
  | Panic (e : panic)
  | OutOfFuel.
Arguments Ok {A} a f.
Arguments Panic {A} e.
Arguments OutOfFuel {A}.

Definition M (A : Type) : Type := Forsp -> Res A.

Definition ret {A} (a : A) : M A := fun f => Ok a f.

Definition bind {A B} (m : M A) (k : A -> M B) : M B :=
  fun f => match m f with
           | Ok a f' => k a f'
           | Panic e => Panic e
           | OutOfFuel => OutOfFuel
           end.

Declare Scope forsp_scope.
Delimit Scope forsp_scope with forsp.
Notation "x ← y ; z" := (bind y (fun x => z))
  (at level 20, y at level 100, z at level 200, only parsing) : forsp_scope.
Notation "x ;; z" := (bind x (fun _ => z))
  (at level 100, z at level 200, only parsing, right associativity) : forsp_scope.
Local Open Scope forsp_scope.

Definition throw {A} (e : panic) : M A := fun _ => Panic e.
Definition out_of_fuel {A} : M A := fun _ => OutOfFuel.
Definition gets {A} (proj : Forsp -> A) : M A := fun f => Ok (proj f) f.
Definition modify (g : Forsp -> Forsp) : M unit := fun f => Ok tt (g f).

(** ** Heap access *)

(** [new(T)] / [&T{...}]: a fresh address, past everything allocated. *)
Definition alloc (c : Cell) : M ptr :=
  fun f => Ok (Some (length (heap f))) (set_heap (heap f ++ [c]) f).

Definition load (p : ptr) : M Cell :=
  fun f => match p with
           | None => Panic RuntimeError
           | Some a => match heap f !! a with
                       | Some c => Ok c f
                       | None => Panic RuntimeError
                       end
           end.

(** [*p] for [p : *Obj]. *)
Definition deref (p : ptr) : M Obj :=
  c ← load p; match c with CObj o => ret o | _ => throw RuntimeError end.

(** The promoted fields [obj.car], [obj.cdr], [obj.body], [obj.env] and
    the payload reads [*obj.Atom], [*obj.Number], [*obj.Primitive]. *)
Definition get_Pair (obj : ptr) : M (ptr * ptr) :=
  o ← deref obj; c ← load (o_Pair o);
  match c with CPair a d => ret (a, d) | _ => throw RuntimeError end.

Definition get_Closure (obj : ptr) : M (ptr * ptr) :=
  o ← deref obj; c ← load (o_Closure o);
  match c with CClosure b e => ret (b, e) | _ => throw RuntimeError end.

Definition get_Atom (obj : ptr) : M gostring :=
  o ← deref obj; c ← load (o_Atom o);
  match c with CAtom s => ret s | _ => throw RuntimeError end.

Definition get_Number (obj : ptr) : M Z :=
  o ← deref obj; c ← load (o_Number o);
  match c with CNumber n => ret n | _ => throw RuntimeError end.

Definition get_Primitive (obj : ptr) : M Primitive :=
  o ← deref obj; c ← load (o_Primitive o);
  match c with CPrimitive p => ret p | _ => throw RuntimeError end.

(** ** Constructors *)

Definition NewNil : M ptr :=
  p ← alloc CNil;
  alloc (CObj (mkObj p None None None None None TagNil)).

Definition NewAtom (s : gostring) : M ptr :=
  p ← alloc (CAtom s);
  alloc (CObj (mkObj None p None None None None TagAtom)).

Definition NewNumber (n : Z) : M ptr :=
  p ← alloc (CNumber n);
  alloc (CObj (mkObj None None p None None None TagNumber)).

Definition NewPair (car cdr : ptr) : M ptr :=
  p ← alloc (CPair car cdr);
  alloc (CObj (mkObj None None None p None None TagPair)).

Definition NewClosure (body env : ptr) : M ptr :=
  p ← alloc (CClosure body env);
  alloc (CObj (mkObj None None None None p None TagClosure)).

Definition NewPrimitive (fn : Primitive) : M ptr :=
  p ← alloc (CPrimitive fn);
  alloc (CObj (mkObj None None None None None p TagPrimitive)).

(** ** Failure helpers and accessors *)

Definition assert (v : bool) (msg : string) : M unit :=
  if v then ret tt else throw (ASSERT msg).

Definition fail {A} (msg : string) : M A := throw (FAIL msg).

Definition is_ (v : ptr) (t : Tag) : M bool :=
  o ← deref v; ret (bool_decide (o_Tag o = t)).

Definition assertTag (v : ptr) (t : Tag) (msg : string) : M unit :=
  b ← is_ v t; assert b msg.

Definition failTag (v : ptr) (t : Tag) (msg : string) : M unit :=
  b ← is_ v t; if b then ret tt else fail msg.

Definition car (obj : ptr) : M ptr :=
  failTag obj TagPair "Expected Pair to apply car() function";;
  pr ← get_Pair obj; ret (fst pr).

Definition cdr (obj : ptr) : M ptr :=
  failTag obj TagPair "Expected Pair to apply cdr() function";;
  pr ← get_Pair obj; ret (snd pr).

(** [*a == *b || (is(a, TagNumber) && is(b, TagNumber) && *a.Number == *b.Number)]:
    struct equality compares the payload pointers and the tag. *)
Definition ObjEqual (a b : ptr) : M bool :=
  oa ← deref a; ob ← deref b;
  if bool_decide (oa = ob) then ret true
  else
    ia ← is_ a TagNumber;
    if negb ia then ret false
    else
      ib ← is_ b TagNumber;
      if negb ib then ret false
      else na ← get_Number a; nb ← get_Number b; ret (Z.eqb na nb).

Definition ObjToInt64 (a : ptr) : M Z :=
  b ← is_ a TagNumber;
  if b then get_Number a else ret 0%Z.

(** ** Stack *)

Definition Push (obj : ptr) : M unit :=
  st ← gets Stack; p ← NewPair obj st; modify (set_Stack p).

Definition tryPop : M (ptr * bool) :=
  st ← gets Stack; nl ← gets nil_;
  if ptr_eq st nl then ret (None, false)
  else
    o ← car st;
    st' ← cdr st;
    modify (set_Stack st');;
    ret (o, true).

Definition Pop : M ptr :=
  r ← tryPop;
  if snd r then ret (fst r) else fail "Value Stack Underflow".

(** ** Arithmetic and structural primitives that never touch the environment *)

Definition primCons : M unit :=
  a ← Pop; b ← Pop;
  p ← NewPair a b; Push p.

Definition primTag : M unit :=
  x ← Pop; o ← deref x;
  n ← NewNumber (Tag_value (o_Tag o)); Push n.

Definition primSub : M unit :=
  b ← Pop; a ← Pop;
  x ← ObjToInt64 a; y ← ObjToInt64 b;
  n ← NewNumber (sub64 x y); Push n.

Definition primMul : M unit :=
  b ← Pop; a ← Pop;
  x ← ObjToInt64 a; y ← ObjToInt64 b;
  n ← NewNumber (mul64 x y); Push n.

Definition primNand : M unit :=
  b ← Pop; a ← Pop;
  x ← ObjToInt64 a; y ← ObjToInt64 b;
  n ← NewNumber (nand64 x y); Push n.

Definition primLsh : M unit :=
  b ← Pop; a ← Pop;
  x ← ObjToInt64 a; y ← ObjToInt64 b;
  n ← NewNumber (shl64 x (to_uint y)); Push n.

Definition primRsh : M unit :=
  b ← Pop; a ← Pop;
  x ← ObjToInt64 a; y ← ObjToInt64 b;
  n ← NewNumber (shr64 x (to_uint y)); Push n.

(** ** Interning table *)

(** The loop of [intern]: [Some elem] when an interned atom with the text
    [atomBuf] is found, [None] when the list is exhausted. *)
Fixpoint intern_loop (fuel : nat) (atomBuf : gostring) (list : ptr) : M (option ptr) :=
  match fuel with
  | O => out_of_fuel
  | S n =>
      nl ← gets nil_;
      if ptr_eq list nl then ret None
      else
        assertTag list TagPair "interned_atoms must be Pairs";;
        pr ← get_Pair list;
        let elem := fst pr in
        assertTag elem TagAtom "interned_atoms.car must be an Atom";;
        a ← get_Atom elem;
        if (length atomBuf =? length a) && bool_decide (atomBuf = a)
        then ret (Some elem)
        else intern_loop n atomBuf (snd pr)
  end.

Definition intern (fuel : nat) (atomBuf : gostring) : M ptr :=
  tbl ← gets internedAtoms;
  r ← intern_loop fuel atomBuf tbl;
  match r with
  | Some elem => ret elem
  | None =>
      (* not found, create a new one and push the front of the list *)
      atom ← NewAtom atomBuf;
      tbl ← gets internedAtoms;
      p ← NewPair atom tbl;
      modify (set_internedAtoms p);;
      ret atom
  end.

(** ** Reader *)

Definition peek : M ascii :=
  fun f =>
    if pos f =? length (input f) then Ok NUL f
    else match input f !! pos f with
         | Some c => Ok c f
         | None => Panic RuntimeError
         end.

Definition advance : M unit :=
  c ← peek;
  assert (negb (byte_eq c NUL)) "cannot advance further";;
  modify (fun f => set_pos (S (pos f)) f).

Definition isWhite (c : ascii) : bool :=
  byte_eq c " " || byte_eq c "009" || byte_eq c "010".

Definition isDirective (c : ascii) : bool :=
  byte_eq c "'" || byte_eq c "^" || byte_eq c "$".

Definition isPunctuation (c : ascii) : bool :=
  byte_eq c NUL || isWhite c || isDirective c
  || byte_eq c "(" || byte_eq c ")" || byte_eq c ";".

(** The inner [for] of [skipWhiteAndComments]: [true] when it leaves by
    [break] after a newline, [false] when it returns at the end of input. *)
Fixpoint skipComment_loop (fuel : nat) : M bool :=
  match fuel with
  | O => out_of_fuel
  | S n =>
      c ← peek;
      if byte_eq c NUL then ret false
      else
        advance;;
        if byte_eq c "010" then ret true else skipComment_loop n
  end.

Fixpoint skipWhiteAndComments (fuel : nat) : M unit :=
  match fuel with
  | O => out_of_fuel
  | S n =>
      c ← peek;
      if byte_eq c NUL then ret tt
      else if isWhite c then
        advance;; skipWhiteAndComments n
      else if byte_eq c ";" then
        advance;;
        more ← skipComment_loop n;
        if more then skipWhiteAndComments n else ret tt
      else ret tt
  end.

(** [strconv.ParseUint(s, 10, 64)] on the digits, before the range check:
    every byte must be a decimal digit and there must be one at least. *)
Definition digit_value (c : ascii) : option Z :=
  let n := nat_of_ascii c in
  if (48 <=? n) && (n <=? 57) then Some (Z.of_nat (n - 48)) else None.

Fixpoint parse_digits (acc : Z) (s : gostring) : option Z :=
  match s with
  | [] => Some acc
  | c :: s' =>
      match digit_value c with
      | Some d => parse_digits (acc * 10 + d)%Z s'
      | None => None
      end
  end.

Definition parseUint (s : gostring) : option Z :=
  match s with
  | [] => None
  | _ => parse_digits 0%Z s
  end.

(** [strconv.ParseInt(str, 10, 64)] with [err == nil] as [Some]: an
    optional sign, decimal digits, and a value that fits [int64]. *)
Definition parseInt64 (s : gostring) : option Z :=
  match s with
  | [] => None
  | c :: rest =>
      let neg := byte_eq c "-" in
      let ds := if byte_eq c "+" || byte_eq c "-" then rest else s in
      match parseUint ds with
      | None => None
      | Some un =>
          if neg then (if (un <=? 2 ^ 63)%Z then Some (- un)%Z else None)
          else (if (un <? 2 ^ 63)%Z then Some un else None)
      end
  end.

Fixpoint readScalar_loop (fuel : nat) : M unit :=
  match fuel with
  | O => out_of_fuel
  | S n =>
      c ← peek;
      if isPunctuation c then ret tt
      else advance;; readScalar_loop n
  end.

Definition readScalar (fuel : nat) : M ptr :=
  (* otherwise, assume atom or number and read it *)
  start ← gets pos;
  readScalar_loop fuel;;
  inp ← gets input;
  p ← gets pos;
  let s := take (p - start) (drop start inp) in
  (* is it a number? *)
  match parseInt64 s with
  | Some n => NewNumber n
  | None => intern fuel s
  end.

Fixpoint Read (fuel : nat) : M ptr :=
  match fuel with
  | O => out_of_fuel
  | S n =>
      read_stack ← gets readStack;
      if negb (ptr_eq read_stack None) then
        d ← cdr read_stack;
        modify (set_readStack d);;
        car read_stack
      else
        skipWhiteAndComments n;;
        c ← peek;
        if byte_eq c NUL then fail "End of input: could not read()"
        else if byte_eq c "'" then
          advance;; gets AtomQuote
        else if byte_eq c "^" then
          advance;;
          a ← gets AtomPush;
          s ← NewPair a None;
          x ← readScalar n;
          s ← NewPair x s;
          q ← gets AtomQuote;
          s ← NewPair q s;
          modify (set_readStack s);;
          Read n
        else if byte_eq c "$" then
          advance;;
          a ← gets AtomPop;
          s ← NewPair a None;
          x ← readScalar n;
          s ← NewPair x s;
          q ← gets AtomQuote;
          s ← NewPair q s;
          modify (set_readStack s);;
          Read n
        else if byte_eq c "(" then
          advance;; readList n
        else readScalar n
  end
with readList (fuel : nat) : M ptr :=
  match fuel with
  | O => out_of_fuel
  | S n =>
      rs ← gets readStack;
      closed ←
        (if ptr_eq rs None then
           skipWhiteAndComments n;;
           c ← peek;
           if byte_eq c ")" then advance;; ret true else ret false
         else ret false);
      if (closed : bool) then gets nil_
      else
        first ← Read n;
        second ← readList n;
        NewPair first second
  end.

Definition SetReader (r : gostring) : M unit :=
  modify (set_input r);; modify (set_pos 0).

(** ** Printer *)

(** [fmt.Print]: append to standard output. *)
Definition print (s : gostring) : M unit :=
  modify (fun f => set_stdout (stdout f ++ s) f).

Definition digit_char (d : Z) : ascii :=
  ascii_of_nat (Z.to_nat d + (if (d <? 10)%Z then 48 else 87)).

(** Digits of a non-negative number, most significant first, in front
    of [acc]. *)
Fixpoint format_digits (base : Z) (fuel : nat) (n : Z) (acc : gostring) : gostring :=
  match fuel with
  | O => acc
  | S k =>
      let acc' := digit_char (n mod base) :: acc in
      if (n <? base)%Z then acc' else format_digits base k (n / base) acc'
  end.

(** The decimal rendering [fmt.Print] gives an [int64]
    ([strconv.FormatInt(n, 10)]); 20 digits cover the whole range. *)
Definition FormatInt (n : Z) : gostring :=
  if (n <? 0)%Z then "-"%char :: format_digits 10 20 (- n) []
  else format_digits 10 20 n [].

(** The [%p] rendering of a pointer: the address in hexadecimal. *)
Definition fmt_p (p : ptr) : gostring :=
  str "0x" ++ format_digits 16 64 (Z.of_nat (default 0 p)) [].

Fixpoint PrintRecurse (fuel : nat) (obj : ptr) : M unit :=
  match fuel with
  | O => out_of_fuel
  | S n =>
      nl ← gets nil_;
      if ptr_eq obj nl then print (str "()")
      else
        o ← deref obj;
        match o_Tag o with
        | TagNil => ret tt (* do nothing *)
        | TagAtom => s ← get_Atom obj; print s
        | TagNumber => k ← get_Number obj; print (FormatInt k)
        | TagPair =>
            print (str "(");;
            pr ← get_Pair obj;
            PrintRecurse n (fst pr);;
            printListTail n (snd pr)
        | TagClosure =>
            print (str "CLOSURE<");;
            cl ← get_Closure obj;
            PrintRecurse n (fst cl);;
            print (str ", " ++ fmt_p (snd cl) ++ str ">")
        | TagPrimitive =>
            print (str "PRIM<" ++ fmt_p (o_Primitive o) ++ str ">")
        end
  end
with printListTail (fuel : nat) (obj : ptr) : M unit :=
  match fuel with
  | O => out_of_fuel
  | S n =>
      nl ← gets nil_;
      if ptr_eq obj nl then print (str ")")
      else
        b ← is_ obj TagPair;
        if b then
          print (str " ");;
          pr ← get_Pair obj;
          PrintRecurse n (fst pr);;
          printListTail n (snd pr)
        else
          print (str " . ");;
          PrintRecurse n obj;;
          print (str ")")
  end.

Definition Print (fuel : nat) (obj : ptr) : M unit :=
  PrintRecurse fuel obj;;
  print (str (String.String "010" String.EmptyString)).

(** ** Environment *)

Fixpoint EnvFind_loop (fuel : nat) (key : ptr) (v : ptr) : M ptr :=
  match fuel with
  | O => out_of_fuel
  | S n =>
      nl ← gets nil_;
      if ptr_eq v nl then fail "Failed to find key in environment"
      else
        kv ← car v;
        k ← car kv;
        hit ← (if ptr_eq key k then ret true
               else o1 ← deref key; o2 ← deref k; ret (bool_decide (o1 = o2)));
        if (hit : bool) then cdr kv
        else v' ← cdr v; EnvFind_loop n key v'
  end.

Definition EnvFind (fuel : nat) (env : ptr) (key : ptr) : M ptr :=
  b ← is_ key TagAtom;
  (if b then ret tt else fail "Expected 'key' to be an Atom in env_find()");;
  EnvFind_loop fuel key env.

Definition EnvDefine (env key val : ptr) : M ptr :=
  kv ← NewPair key val; NewPair kv env.

Definition EnvDefinePrim (fuel : nat) (env : ptr) (name : gostring) (fn : Primitive) : M ptr :=
  k ← intern fuel name;
  p ← NewPrimitive fn;
  EnvDefine env k p.

(** ** Primitives that use the environment, the reader or the printer *)

Definition primPush (fuel : nat) (env : ptr) : M unit :=
  k ← Pop; v ← EnvFind fuel env k; Push v.

(** [*env = f.EnvDefine( *env, k, v)]: the new value of the caller's
    environment variable is the result. *)
Definition primPop (env : ptr) : M ptr :=
  k ← Pop; v ← Pop;
  EnvDefine env k v.

Definition primEq : M unit :=
  a ← Pop; b ← Pop;
  e ← ObjEqual a b;
  if e then t ← gets AtomTrue; Push t
  else nl ← gets nil_; Push nl.

Definition primCar : M unit := x ← Pop; a ← car x; Push a.
Definition primCdr : M unit := x ← Pop; d ← cdr x; Push d.

Definition primCswap : M unit :=
  c ← Pop; t ← gets AtomTrue;
  if ptr_eq c t then
    a ← Pop; b ← Pop;
    Push a;; Push b
  else ret tt.

Definition primRead (fuel : nat) : M unit := x ← Read fuel; Push x.
Definition primPrint (fuel : nat) : M unit := x ← Pop; Print fuel x.
Definition primStack : M unit := st ← gets Stack; Push st.
Definition primEnv (env : ptr) : M unit := Push env.

(** [( *val.Primitive)(env)]: run the host function on the caller's
    environment variable; the result is the variable's value afterwards. *)
Definition callPrimitive (fuel : nat) (fn : Primitive) (env : ptr) : M ptr :=
  match fn with
  | PrimPush => primPush fuel env;; ret env
  | PrimPop => primPop env
  | PrimEq => primEq;; ret env
  | PrimCons => primCons;; ret env
  | PrimCar => primCar;; ret env
  | PrimCdr => primCdr;; ret env
  | PrimCswap => primCswap;; ret env
  | PrimTag => primTag;; ret env
  | PrimRead => primRead fuel;; ret env
  | PrimPrint => primPrint fuel;; ret env
  | PrimStack => primStack;; ret env
  | PrimEnv => primEnv env;; ret env
  | PrimSub => primSub;; ret env
  | PrimMul => primMul;; ret env
  | PrimNand => primNand;; ret env
  | PrimLsh => primLsh;; ret env
  | PrimRsh => primRsh;; ret env
  end.

(** ** Evaluator *)

(** [eval(expr, &env)], over the [ComputeEnv] it calls for closures; the
    result is the value of [env] when it returns. *)
Definition eval_with (ComputeEnv : ptr -> ptr -> M unit)
    (fuel : nat) (expr : ptr) (env : ptr) : M ptr :=
  a ← is_ expr TagAtom;
  if a then
    val ← EnvFind fuel env expr;
    c ← is_ val TagClosure;
    if c then
      cl ← get_Closure val;
      ComputeEnv (fst cl) (snd cl);;
      ret env
    else
      p ← is_ val TagPrimitive;
      if p then
        fn ← get_Primitive val;
        callPrimitive fuel fn env
      else Push val;; ret env
  else
    n ← is_ expr TagNil;
    p ← is_ expr TagPair;
    if n || p then
      cl ← NewClosure expr env;
      Push cl;; ret env
    else Push expr;; ret env.

Fixpoint ComputeEnv (fuel : nat) (comp : ptr) (env : ptr) : M unit :=
  match fuel with
  | O => out_of_fuel
  | S n =>
      nl ← gets nil_;
      if ptr_eq comp nl then ret tt
      else
        cmd ← car comp;
        comp ← cdr comp;
        q ← gets AtomQuote;
        if ptr_eq cmd q then
          (if ptr_eq comp nl then fail "Expected data following a quote form"
           else ret tt);;
          x ← car comp;
          Push x;;
          comp ← cdr comp;
          ComputeEnv n comp env
        else
          env ← eval_with (ComputeEnv n) n cmd env;
          ComputeEnv n comp env
  end.

Definition eval (fuel : nat) (expr : ptr) (env : ptr) : M ptr :=
  eval_with (ComputeEnv fuel) fuel expr env.

Definition Compute (fuel : nat) (obj : ptr) : M unit :=
  env ← gets Env; ComputeEnv fuel obj env.

(** ** Construction *)

(** [Forsp{}]: every pointer nil, no input, empty heap. *)
Definition Forsp_zero : Forsp :=
  mkForsp None None None None None None None None None [] 0 [] [].

(** The default build has no [unsafe] tag: no low-level primitive is
    installed. *)
Definition optionalUnsafe (env : ptr) : M ptr := ret env.

Definition New (fuel : nat) : M unit :=
  nl ← NewNil; modify (set_nil nl);;
  modify (set_internedAtoms nl);;
  a ← intern fuel (str "t"); modify (set_AtomTrue a);;
  a ← intern fuel (str "quote"); modify (set_AtomQuote a);;
  a ← intern fuel (str "push"); modify (set_AtomPush a);;
  a ← intern fuel (str "pop"); modify (set_AtomPop a);;
  modify (set_Stack nl);;
  let env := nl in
  (* core primitives *)
  env ← EnvDefinePrim fuel env (str "push") PrimPush;
  env ← EnvDefinePrim fuel env (str "pop") PrimPop;
  env ← EnvDefinePrim fuel env (str "cons") PrimCons;
  env ← EnvDefinePrim fuel env (str "car") PrimCar;
  env ← EnvDefinePrim fuel env (str "cdr") PrimCdr;
  env ← EnvDefinePrim fuel env (str "eq") PrimEq;
  env ← EnvDefinePrim fuel env (str "cswap") PrimCswap;
  env ← EnvDefinePrim fuel env (str "tag") PrimTag;
  env ← EnvDefinePrim fuel env (str "read") PrimRead;
  env ← EnvDefinePrim fuel env (str "print") PrimPrint;
  (* extra primitives *)
  env ← EnvDefinePrim fuel env (str "stack") PrimStack;
  env ← EnvDefinePrim fuel env (str "env") PrimEnv;
  env ← EnvDefinePrim fuel env (str "-") PrimSub;
  env ← EnvDefinePrim fuel env (str "*") PrimMul;
  env ← EnvDefinePrim fuel env (str "nand") PrimNand;
  env ← EnvDefinePrim fuel env (str "<<") PrimLsh;
  env ← EnvDefinePrim fuel env (str ">>") PrimRsh;
  env ← optionalUnsafe env;
  modify (set_Env env).

(** The state [New()] returns. *)
Definition initial : Forsp :=
  Eval vm_compute in
  match New 64 Forsp_zero with
  | Ok _ f => f
  | _ => Forsp_zero
  end.

(** The state after [New()] and [SetReader] on the text [s]. *)
Definition initial_on (s : string) : Forsp :=
  set_pos 0 (set_input (str s) initial).


(** * Shapes on the heap *)

(** [p] points to the [Obj] struct [o]. *)
Definition obj_at (h : list Cell) (p : ptr) (o : Obj) : Prop :=
  exists a, p = Some a /\ h !! a = Some (CObj o).

Definition is_pair (h : list Cell) (p : ptr) (a d : ptr) : Prop :=
  exists o q, obj_at h p o /\ o_Tag o = TagPair /\
              o_Pair o = Some q /\ h !! q = Some (CPair a d).

Definition is_number (h : list Cell) (p : ptr) (n : Z) : Prop :=
  exists o q, obj_at h p o /\ o_Tag o = TagNumber /\
              o_Number o = Some q /\ h !! q = Some (CNumber n).

Definition is_atom (h : list Cell) (p : ptr) (s : gostring) : Prop :=
  exists o q, obj_at h p o /\ o_Tag o = TagAtom /\
              o_Atom o = Some q /\ h !! q = Some (CAtom s).

Definition is_closure (h : list Cell) (p : ptr) (b e : ptr) : Prop :=
  exists o q, obj_at h p o /\ o_Tag o = TagClosure /\
              o_Closure o = Some q /\ h !! q = Some (CClosure b e).

Definition is_primitive (h : list Cell) (p : ptr) (fn : Primitive) : Prop :=
  exists o q, obj_at h p o /\ o_Tag o = TagPrimitive /\
              o_Primitive o = Some q /\ h !! q = Some (CPrimitive fn).

(** What [ObjToInt64] reads off an object: the value of a Number, 0
    for every other variant. *)
Definition int64_of (h : list Cell) (p : ptr) (n : Z) : Prop :=
  is_number h p n \/ (exists o, obj_at h p o /\ o_Tag o <> TagNumber /\ n = 0%Z).

(** A pointer that is nil or points into the allocated part of the heap. *)
Definition allocated (h : list Cell) (p : ptr) : Prop :=
  match p with Some a => a < length h | None => True end.

(** The state after a constructor: two more cells on the heap. *)
Definition grow (f : Forsp) (c : Cell) (o : Obj) : Forsp :=
  set_heap (heap f ++ [c; CObj o]) f.

(** [Push]: one new pair in front of the old stack, nothing else
    changes. *)
Definition pushed (obj : ptr) (f : Forsp) : Forsp :=
  set_Stack (Some (S (length (heap f))))
    (grow f (CPair obj (Stack f))
       (mkObj None None None (Some (length (heap f))) None None TagPair)).

(** The stack holds [y] on top of [x] on top of [rest]. *)
Definition stack_top2 (f : Forsp) (y x rest : ptr) : Prop :=
  exists s, is_pair (heap f) (Stack f) y s /\ Stack f <> nil_ f /\
            is_pair (heap f) s x rest /\ s <> nil_ f.

(** The state a binary arithmetic primitive leaves: both operands
    popped, a new Number holding [n] pushed on the rest. *)
Definition binop_result (f : Forsp) (rest : ptr) (n : Z) : Forsp :=
  pushed (Some (S (length (heap f))))
    (grow (set_Stack rest f) (CNumber n)
       (mkObj None None (Some (length (heap f))) None None None TagNumber)).

(** [f.Push(NewNumber(3)); f.Push(NewNumber(4)); f.primSub(nil)] *)
Definition push3_push4_sub : M unit :=
  n3 ← NewNumber 3; Push n3;;
  n4 ← NewNumber 4; Push n4;;
  primSub.

(** The state after [f.Push(NewNumber(a)); f.Push(NewNumber(b))] on the
    state [New()] returns. *)
Definition initial_with (a b : Z) : Forsp :=
  match (x ← NewNumber a; Push x;; y ← NewNumber b; Push y) initial with
  | Ok _ f => f
  | _ => initial
  end.

Definition stack_1_2 : Forsp := Eval vm_compute in initial_with 1 2.
Definition stack_m8_1 : Forsp := Eval vm_compute in initial_with (-8) 1.

(** The shifts as the specification words them: both logical, that is
    zero-filling on the 64-bit pattern of [a]. *)
Definition logical_shl64 (a s : Z) : Z := wrap64 ((a mod 2 ^ 64) * 2 ^ s).
Definition logical_shr64 (a s : Z) : Z := wrap64 ((a mod 2 ^ 64) / 2 ^ s).

(** The state [cons] leaves: both operands popped, a new pair of the
    first-popped and the second-popped pushed on the rest. *)
Definition cons_result (f : Forsp) (rest a b : ptr) : Forsp :=
  pushed (Some (S (length (heap f))))
    (grow (set_Stack rest f) (CPair a b)
       (mkObj None None None (Some (length (heap f))) None None TagPair)).

(** ** Environments as association lists *)

(** The [Obj] struct a pointer leads to, if any. *)
Definition obj_of (h : list Cell) (p : ptr) : option Obj :=
  match p with
  | Some a => match h !! a with Some (CObj o) => Some o | _ => None end
  | None => None
  end.

(** The test of [EnvFind] on one binding: [key == k || *key == *k].
    The second disjunct compares the two structs field by field, that is
    their payload pointers and tags. *)
Definition key_matches (h : list Cell) (key k : ptr) : bool :=
  bool_decide (key = k)
  || match obj_of h key, obj_of h k with
     | Some o1, Some o2 => bool_decide (o1 = o2)
     | _, _ => false
     end.

(** [env] is the list of bindings [l], each a pair (key . value) whose
    key is an object, ended by the nil object. *)
Fixpoint env_list (h : list Cell) (nl : ptr) (env : ptr) (l : list (ptr * ptr)) : Prop :=
  match l with
  | [] => env = nl
  | (k, v) :: l' =>
      env <> nl /\
      exists kv rest, is_pair h env kv rest /\ is_pair h kv k v /\
                      (exists o, obj_at h k o) /\ env_list h nl rest l'
  end.

(** What [EnvFind] returns on the bindings [l]: the value of the first
    binding whose key passes the test. *)
Definition first_match (h : list Cell) (key : ptr) (l : list (ptr * ptr)) : option ptr :=
  snd <$> List.find (fun kv => key_matches h key (fst kv)) l.

(** Two atoms built by [NewAtom] on the same text, the first bound to
    Number(7) in an environment of its own. *)
Definition two_atoms : Forsp * (ptr * ptr * ptr * ptr) :=
  Eval vm_compute in
  match (k1 ← NewAtom (str "x"); v ← NewNumber 7;
         nl ← gets nil_; env ← EnvDefine nl k1 v;
         k2 ← NewAtom (str "x");
         ret (env, k1, k2, v)) initial with
  | Ok r f => (f, r)
  | _ => (initial, (None, None, None, None))
  end.

(** The state after reading the list [src] on the state [New()] returns,
    with the list read. *)
Definition after_read (src : string) : ptr * Forsp :=
  match Read 100 (initial_on src) with
  | Ok p f => (p, f)
  | _ => (None, initial)
  end.

Definition read_quote_x : ptr * Forsp := Eval vm_compute in after_read "('x)".
Definition read_quote_dangling : ptr * Forsp := Eval vm_compute in after_read "(')".

(** A caller's list [(g y)] and an environment that binds [g] to a
    closure over the body [(1 $y)]: the body binds [y] in its own
    environment. *)
Definition closure_call : Forsp * (ptr * ptr * ptr * ptr * ptr) :=
  Eval vm_compute in
  match (SetReader (str "(1 $y)");; body ← Read 100;
         SetReader (str "(g y)");; comp ← Read 100;
         env0 ← gets Env;
         cl ← NewClosure body env0;
         g ← intern 100 (str "g");
         env ← EnvDefine env0 g cl;
         ret (comp, env, cl, body, env0)) initial with
  | Ok r f => (f, r)
  | _ => (initial, (None, None, None, None, None))
  end.

(** ** Decoding the heap *)

Definition pair_of (h : list Cell) (p : ptr) : option (ptr * ptr) :=
  match obj_of h p with
  | Some (mkObj _ _ _ (Some q) _ _ TagPair) =>
      match h !! q with Some (CPair a d) => Some (a, d) | _ => None end
  | _ => None
  end.

Definition number_of (h : list Cell) (p : ptr) : option Z :=
  match obj_of h p with
  | Some (mkObj _ _ (Some q) _ _ _ TagNumber) =>
      match h !! q with Some (CNumber n) => Some n | _ => None end
  | _ => None
  end.

Definition atom_of (h : list Cell) (p : ptr) : option gostring :=
  match obj_of h p with
  | Some (mkObj _ (Some q) _ _ _ _ TagAtom) =>
      match h !! q with Some (CAtom s) => Some s | _ => None end
  | _ => None
  end.

Definition closure_of (h : list Cell) (p : ptr) : option (ptr * ptr) :=
  match obj_of h p with
  | Some (mkObj _ _ _ _ (Some q) _ TagClosure) =>
      match h !! q with Some (CClosure b e) => Some (b, e) | _ => None end
  | _ => None
  end.

(** ** The interning table as a list *)

(** [p] is the list of interned atoms [l], each with its text, ended by
    the nil object. *)
Fixpoint atom_table (h : list Cell) (nl : ptr) (p : ptr) (l : list (ptr * gostring)) : Prop :=
  match l with
  | [] => p = nl
  | (a, s) :: l' =>
      p <> nl /\
      exists rest, is_pair h p a rest /\ is_atom h a s /\ atom_table h nl rest l'
  end.

(** The atom [intern] finds for the text [s]: the first of the table
    with that text. *)
Definition lookup_atom (s : gostring) (l : list (ptr * gostring)) : option ptr :=
  fst <$> List.find (fun e => bool_decide (s = snd e)) l.

(** The state [intern] leaves when it adds an atom: the atom, then the
    pair that links it in front of the table. *)
Definition interned_new (s : gostring) (f : Forsp) : Forsp :=
  set_internedAtoms (Some (S (S (S (length (heap f))))))
    (set_heap
       (heap f ++
        [CAtom s;
         CObj (mkObj None (Some (length (heap f))) None None None None TagAtom);
         CPair (Some (S (length (heap f)))) (internedAtoms f);
         CObj (mkObj None None None (Some (S (S (length (heap f))))) None None TagPair)])
       f).

(** The interning table of a state, decoded. *)
Fixpoint table_of (fuel : nat) (h : list Cell) (p : ptr) : list (ptr * gostring) :=
  match fuel with
  | O => []
  | S n =>
      match pair_of h p with
      | Some (a, rest) =>
          match atom_of h a with
          | Some s => (a, s) :: table_of n h rest
          | None => []
          end
      | None => []
      end
  end.

(** The interning table of the state [New()] returns. *)
Definition initial_table : list (ptr * gostring) :=
  Eval vm_compute in table_of 64 (heap initial) (internedAtoms initial).

(** A byte at which [skipWhiteAndComments] stops. *)
Definition stops_skip (c : ascii) : bool :=
  byte_eq c NUL || negb (isWhite c || byte_eq c ";").

(** ** Tokens *)

(** What may follow a scalar token: the end of the input or a
    punctuation byte. *)
Definition ends_token (rest : gostring) : Prop :=
  match rest with
  | [] => True
  | c :: _ => isPunctuation c = true
  end.

(** A run of bytes [readScalar] scans as one token. *)
Definition token_bytes (tok : gostring) : Prop :=
  Forall (fun c => isPunctuation c = false) tok.

(** ** Values the reader builds *)

(** The tree an object of the reader stands for: nil, an atom with its
    text, a number, or a pair. *)
Inductive Val :=
  | VNil
  | VAtom (s : gostring)
  | VNum (n : Z)
  | VPair (a d : Val).

(** [p] stands for [v] on the heap [h]: nil is the nil object, an atom
    is the interned atom of its text, a number holds its value, a pair
    points to its parts. *)
Fixpoint repr (h : list Cell) (nl : ptr) (tbl : list (ptr * gostring))
    (p : ptr) (v : Val) : Prop :=
  match v with
  | VNil => p = nl
  | VAtom s => lookup_atom s tbl = Some p
  | VNum n => is_number h p n
  | VPair a d =>
      exists pa pd, is_pair h p pa pd /\ repr h nl tbl pa a /\ repr h nl tbl pd d
  end.

(** What [PrintRecurse] prints for a value, and what [printListTail]
    prints for the rest of a list. *)
Fixpoint show (v : Val) : gostring :=
  match v with
  | VNil => str "()"
  | VAtom s => s
  | VNum n => FormatInt n
  | VPair a d => "("%char :: show a ++ show_tail d
  end
with show_tail (v : Val) : gostring :=
  match v with
  | VNil => str ")"
  | VPair a d => " "%char :: show a ++ show_tail d
  | VAtom s => str " . " ++ s ++ str ")"
  | VNum n => str " . " ++ FormatInt n ++ str ")"
  end.

Definition is_list (v : Val) : Prop :=
  match v with VNil | VPair _ _ => True | _ => False end.

(** The values [Read] can return: atoms whose text is a token that is
    not a number, numbers in range, and nil-ended lists of such. *)
Fixpoint readable0 (v : Val) : Prop :=
  match v with
  | VNil => True
  | VAtom s => token_bytes s /\ parseInt64 s = None
  | VNum n => in_int64 n
  | VPair a d => readable0 a /\ readable0 d /\ is_list d
  end.

(** No atom of the value has the empty text (the text a directive
    without a scalar, or a stray closing parenthesis, is read as). *)
Fixpoint nonempty (v : Val) : Prop :=
  match v with
  | VAtom s => s <> []
  | VPair a d => nonempty a /\ nonempty d
  | _ => True
  end.

Fixpoint size (v : Val) : nat :=
  match v with
  | VPair a d => 2 + size a + size d
  | _ => 2
  end.

(** The nil object is a Nil struct and the interning table is a list of
    atoms. *)
Definition table_ok (f : Forsp) (tbl : list (ptr * gostring)) : Prop :=
  (exists o, obj_at (heap f) (nil_ f) o /\ o_Tag o = TagNil) /\
  atom_table (heap f) (nil_ f) (internedAtoms f) tbl.

(** The read-ahead queue: a list of objects ended by Go's nil pointer. *)
Fixpoint queue (h : list Cell) (nl : ptr) (tbl : list (ptr * gostring))
    (rs : ptr) (q : list Val) : Prop :=
  match q with
  | [] => rs = None
  | v :: q' =>
      rs <> None /\
      exists x rs', is_pair h rs x rs' /\ repr h nl tbl x v /\ readable0 v /\
                    queue h nl tbl rs' q'
  end.

(** The invariant of the reader. *)
Definition reader_ok (f : Forsp) (tbl : list (ptr * gostring)) (q : list Val) : Prop :=
  table_ok f tbl /\
  lookup_atom (str "quote") tbl = Some (AtomQuote f) /\
  lookup_atom (str "push") tbl = Some (AtomPush f) /\
  lookup_atom (str "pop") tbl = Some (AtomPop f) /\
  queue (heap f) (nil_ f) tbl (readStack f) q /\
  pos f <= length (input f).

(** A later state of the same interpreter: the heap has grown and the
    interned atoms are still interned. *)
Definition later (f : Forsp) (tbl : list (ptr * gostring))
    (f' : Forsp) (tbl' : list (ptr * gostring)) : Prop :=
  nil_ f' = nil_ f /\
  (exists l, heap f' = heap f ++ l) /\
  (forall s a, lookup_atom s tbl = Some a -> lookup_atom s tbl' = Some a).

(** Same shape, with leaves equal under [ObjEqual]. *)
Inductive iso (f : Forsp) : ptr -> ptr -> Prop :=
  | iso_nil : iso f (nil_ f) (nil_ f)
  | iso_atom p p' s :
      is_atom (heap f) p s -> ObjEqual p p' f = Ok true f -> iso f p p'
  | iso_number p p' n :
      is_number (heap f) p n -> ObjEqual p p' f = Ok true f -> iso f p p'
  | iso_pair p p' a d a' d' :
      is_pair (heap f) p a d -> is_pair (heap f) p' a' d' ->
      iso f a a' -> iso f d d' -> iso f p p'.

(** The state after the reader has consumed [n] bytes and allocated the
    cells [l]. *)
Definition moved (f : Forsp) (n : nat) (l : list Cell) : Forsp :=
  set_pos (pos f + n) (set_heap (heap f ++ l) f).

(** Every atom of the value is in the interning table. *)
Fixpoint interned (tbl : list (ptr * gostring)) (v : Val) : Prop :=
  match v with
  | VAtom s => exists a, lookup_atom s tbl = Some a
  | VPair a d => interned tbl a /\ interned tbl d
  | _ => True
  end.

(** What a successful [Read] (or [readList], when [list_only]) leaves:
    the invariant holds again, in a later state, and the object
    returned stands for a value of the reader. *)
Definition produces (f : Forsp) (tbl : list (ptr * gostring)) (p : ptr) (f' : Forsp)
    (list_only : bool) : Prop :=
  exists tbl' q' v,
    reader_ok f' tbl' q' /\ later f tbl f' tbl' /\
    repr (heap f') (nil_ f') tbl' p v /\ readable0 v /\
    (list_only = true -> is_list v).

(** A list read on the state [New()] returns. *)
Definition read_sample : ptr * Forsp :=
  Eval vm_compute in after_read "(a (b 12) -7 () 'c ^d)".

(** The atom read at a stray closing parenthesis. *)
Definition read_stray : ptr * Forsp := Eval vm_compute in after_read ")".

(** What [PrintRecurse] prints for an object, on an empty output. *)
Definition printed (fuel : nat) (p : ptr) (f : Forsp) : option gostring :=
  match PrintRecurse fuel p (set_stdout [] f) with
  | Ok _ f' => Some (stdout f')
  | _ => None
  end.

(** [SetReader] on a text, then one [Read]. *)
Definition reread (fuel : nat) (text : gostring) (f : Forsp) : Res ptr :=
  (SetReader text;; Read fuel) f.

(** The value an object stands for, decoded. *)
Fixpoint value_of (fuel : nat) (h : list Cell) (nl : ptr) (tbl : list (ptr * gostring))
    (p : ptr) : option Val :=
  match fuel with
  | O => None
  | S n =>
      if ptr_eq p nl then Some VNil
      else
        match atom_of h p, number_of h p, pair_of h p with
        | Some s, _, _ =>
            if bool_decide (lookup_atom s tbl = Some p) then Some (VAtom s) else None
        | None, Some k, _ => Some (VNum k)
        | None, None, Some (a, d) =>
            match value_of n h nl tbl a, value_of n h nl tbl d with
            | Some va, Some vd => Some (VPair va vd)
            | _, _ => None
            end
        | None, None, None => None
        end
  end.

(** The interning table after the sample list was read, and the value
    of the list. *)
Definition sample_table : list (ptr * gostring) :=
  Eval vm_compute in
  table_of 64 (heap (snd read_sample)) (internedAtoms (snd read_sample)).

Definition sample_value : Val :=
  VPair (VAtom (str "a"))
    (VPair (VPair (VAtom (str "b")) (VPair (VNum 12) VNil))
       (VPair (VNum (-7))
          (VPair VNil
             (VPair (VAtom (str "quote"))
                (VPair (VAtom (str "c"))
                   (VPair (VAtom (str "quote"))
                      (VPair (VAtom (str "d"))
                         (VPair (VAtom (str "push")) VNil)))))))).

(** * Invariants of whole computations *)

(** Every successful run of [m] relates the state before to the state
    after by [R]. *)
Definition preserves {A} (R : Forsp -> Forsp -> Prop) (m : M A) : Prop :=
  forall f a f', m f = Ok a f' -> R f f'.

(** What every function of the interpreter keeps, [New] and [SetReader]
    apart: the nil object, the four well-known atoms, the top-level
    environment and the input text stay what they are, the cursor never
    moves back, and the heap and the output only grow. *)
Definition extends (f f' : Forsp) : Prop :=
  nil_ f' = nil_ f /\ AtomTrue f' = AtomTrue f /\ AtomQuote f' = AtomQuote f /\
  AtomPush f' = AtomPush f /\ AtomPop f' = AtomPop f /\ Env f' = Env f /\
  input f' = input f /\ pos f <= pos f' /\
  (exists l, heap f' = heap f ++ l) /\
  (exists s, stdout f' = stdout f ++ s).

(** What the reader keeps on top of that: the value stack and the
    output. *)
Definition reads (f f' : Forsp) : Prop :=
  extends f f' /\ Stack f' = Stack f /\ stdout f' = stdout f.

(** What the printer does: it appends to the output and changes nothing
    else. *)
Definition prints (f f' : Forsp) : Prop :=
  exists s, f' = set_stdout (stdout f ++ s) f.

(** A function that only looks at the state. *)
Definition unchanged (f f' : Forsp) : Prop := f' = f.
(** ** Sample runs *)

(** A program read on the state [New()] returns, and the state after
    [Compute] has run it. *)
Definition sample_program : ptr * Forsp :=
  Eval vm_compute in after_read "(7 $n (n n *) $sq sq 'done print 3 4 - (1 2) cons)".

Definition sample_computed : Forsp :=
  Eval vm_compute in
  match Compute 100 (fst sample_program) (snd sample_program) with
  | Ok _ f => f
  | _ => initial
  end.

(** The state after [Print] of the sample list. *)
Definition sample_printed : Forsp :=
  Eval vm_compute in
  match Print 100 (fst read_sample) (snd read_sample) with
  | Ok _ f => f
  | _ => initial
  end.

(** ** Lists of objects *)

(** [st] is the list of the objects [l], ended by the nil object: the
    value stack, with its top first, or the list of a program. *)
Fixpoint obj_list (h : list Cell) (nl : ptr) (st : ptr) (l : list ptr) : Prop :=
  match l with
  | [] => st = nl
  | x :: l' => st <> nl /\ exists rest, is_pair h st x rest /\ obj_list h nl rest l'
  end.

(** How many operands a primitive pops before it does anything else. *)
Definition pops (fn : Primitive) : nat :=
  match fn with
  | PrimRead | PrimStack | PrimEnv => 0
  | PrimPush | PrimCar | PrimCdr | PrimCswap | PrimTag | PrimPrint => 1
  | PrimPop | PrimEq | PrimCons | PrimSub | PrimMul | PrimNand | PrimLsh | PrimRsh => 2
  end.

(** The state [New()] returns with the objects of [ps] pushed, the last
    on top. *)
Definition initial_pushing (ps : list (M ptr)) : Forsp :=
  match (fix go ps := match ps with
                      | [] => ret tt
                      | m :: ps' => x ← m; Push x;; go ps'
                      end) ps initial with
  | Ok _ f => f
  | _ => initial
  end.

(** Number(1), Number(2) and the atom [t] pushed: [t] is on top. *)
Definition stack_1_2_t : Forsp :=
  Eval vm_compute in initial_pushing [NewNumber 1; NewNumber 2; gets AtomTrue].

(** Number(1), Number(2) and Number(5) pushed. *)
Definition stack_1_2_5 : Forsp :=
  Eval vm_compute in initial_pushing [NewNumber 1; NewNumber 2; NewNumber 5].

(** Number(7) and a second Number(7) pushed. *)
Definition stack_7_7 : Forsp :=
  Eval vm_compute in initial_pushing [NewNumber 7; NewNumber 7].

(** The pair (1 . 2) pushed twice, built by two calls of [NewPair] on the
    same parts. *)
Definition stack_two_pairs : Forsp :=
  Eval vm_compute in
  match (a ← NewNumber 1; b ← NewNumber 2;
         p ← NewPair a b; Push p;; q ← NewPair a b; Push q) initial with
  | Ok _ f => f
  | _ => initial
  end.

(** One Number pushed. *)
Definition stack_5 : Forsp := Eval vm_compute in initial_pushing [NewNumber 5].

(** The state [New()] returns, on a text that starts with a blank and a
    comment line. *)
Definition commented : Forsp :=
  set_pos 0 (set_input (str " ; note" ++ "010"%char :: str "  x") initial).
(** The state after the first [Read] on the text [^x]: the atom [quote]
    has been returned, [x] and [push] wait in the queue. *)
Definition after_caret : ptr * Forsp := Eval vm_compute in after_read "^x".

(** ** Environments, decoded *)

(** The bindings of an environment, decoded. *)
Fixpoint env_of (fuel : nat) (h : list Cell) (nl : ptr) (p : ptr) : option (list (ptr * ptr)) :=
  match fuel with
  | O => None
  | S n =>
      if ptr_eq p nl then Some []
      else
        match pair_of h p with
        | Some (kv, rest) =>
            match pair_of h kv, env_of n h nl rest with
            | Some (k, v), Some l =>
                match obj_of h k with
                | Some _ => Some ((k, v) :: l)
                | None => None
                end
            | _, _ => None
            end
        | None => None
        end
  end.

(** The bindings of the environment [New()] builds, the last defined
    first. *)
Definition initial_env : list (ptr * ptr) :=
  Eval vm_compute in default [] (env_of 64 (heap initial) (nil_ initial) (Env initial)).

(** The names [New()] defines, with their host functions, in the order
    of the source. *)
Definition primitive_names : list (string * Primitive) :=
  [("push", PrimPush); ("pop", PrimPop); ("cons", PrimCons); ("car", PrimCar);
   ("cdr", PrimCdr); ("eq", PrimEq); ("cswap", PrimCswap); ("tag", PrimTag);
   ("read", PrimRead); ("print", PrimPrint);
   ("stack", PrimStack); ("env", PrimEnv); ("-", PrimSub); ("*", PrimMul);
   ("nand", PrimNand); ("<<", PrimLsh); (">>", PrimRsh)].

Definition primitive_of (h : list Cell) (p : ptr) : option Primitive :=
  match obj_of h p with
  | Some (mkObj _ _ _ _ _ (Some q) TagPrimitive) =>
      match h !! q with Some (CPrimitive fn) => Some fn | _ => None end
  | _ => None
  end.

(** The program [(3 4 -)] read on the state [New()] returns. *)
Definition sub_program : ptr * Forsp := Eval vm_compute in after_read "(3 4 -)".

(** The program [(n)] read on the state [New()] returns, and an
    environment that binds [n] to Number(7) in front of the initial
    one. *)
Definition variable_program : Forsp * (ptr * ptr * ptr) :=
  Eval vm_compute in
  match (SetReader (str "(n)");; comp ← Read 100;
         n ← intern 100 (str "n"); v ← NewNumber 7;
         env0 ← gets Env; env ← EnvDefine env0 n v;
         ret (comp, env, v)) initial with
  | Ok r f => (f, r)
  | _ => (initial, (None, None, None))
  end.

(** The program [(pop)] read on the state [New()] returns, with
    Number(7) and the atom [n] pushed: [n] is on top. *)
Definition pop_program : Forsp * (ptr * ptr * ptr) :=
  Eval vm_compute in
  match (SetReader (str "(pop)");; comp ← Read 100;
         n ← intern 100 (str "n"); v ← NewNumber 7;
         Push v;; Push n;;
         ret (comp, n, v)) initial with
  | Ok r f => (f, r)
  | _ => (initial, (None, None, None))
  end.

(** ** Termination of the reader *)

(** The read-ahead queue as a chain of [k] pairs ended by Go's nil. *)
Fixpoint chain (h : list Cell) (rs : ptr) (k : nat) : Prop :=
  match k with
  | O => rs = None
  | S k' => rs <> None /\ exists x rs', is_pair h rs x rs' /\ chain h rs' k'
  end.

(** What the reader needs to terminate: a well-formed interning table,
    a queue of known length and a cursor within the input. *)
Definition reader_wf (f : Forsp) (tbl : list (ptr * gostring)) (k : nat) : Prop :=
  table_ok f tbl /\ chain (heap f) (readStack f) k /\ pos f <= length (input f).

(** A bound on the work left for the reader: the atoms the interning
    loop may have to pass, the bytes left (each can start an object, add
    an atom to the table and queue two objects), the objects queued. *)
Definition cost (f : Forsp) (tbl : list (ptr * gostring)) (k : nat) : nat :=
  length tbl + 4 * (length (input f) - pos f) + k.

(** The state after [Read] on a list that is not closed, on the state
    [New()] returns. *)
Definition unclosed : Forsp := initial_on "(a (b) ^c".
(** The program [((1 2) 3)] read on the state [New()] returns. *)
Definition literal_program : ptr * Forsp := Eval vm_compute in after_read "((1 2) 3)".

(* ================================================================== *)
(** * Reasoning about the heap *)

Section heap_shapes.
Implicit Types (h : list Cell) (p : ptr) (o : Obj).

Lemma obj_at_ext h l p o : obj_at h p o -> obj_at (h ++ l) p o.
Proof. intros (a & -> & Ha). exists a. split; [done|]. by apply lookup_app_l_Some. Qed.

Lemma obj_at_allocated h p o : obj_at h p o -> allocated h p.
Proof. intros (a & -> & Ha). simpl. by eapply lookup_lt_Some. Qed.

Lemma obj_at_inj h p o o' : obj_at h p o -> obj_at h p o' -> o = o'.
Proof. intros (a & -> & Ha) (a' & [= <-] & Ha'). congruence. Qed.

Lemma is_pair_ext h l p a d : is_pair h p a d -> is_pair (h ++ l) p a d.
Proof.
  intros (o & q & Ho & Ht & Hq & Hc). exists o, q.
  repeat split; eauto using obj_at_ext, lookup_app_l_Some.
Qed.

Lemma is_number_ext h l p n : is_number h p n -> is_number (h ++ l) p n.
Proof.
  intros (o & q & Ho & Ht & Hq & Hc). exists o, q.
  repeat split; eauto using obj_at_ext, lookup_app_l_Some.
Qed.

Lemma is_atom_ext h l p s : is_atom h p s -> is_atom (h ++ l) p s.
Proof.
  intros (o & q & Ho & Ht & Hq & Hc). exists o, q.
  repeat split; eauto using obj_at_ext, lookup_app_l_Some.
Qed.

Lemma is_closure_ext h l p b e : is_closure h p b e -> is_closure (h ++ l) p b e.
Proof.
  intros (o & q & Ho & Ht & Hq & Hc). exists o, q.
  repeat split; eauto using obj_at_ext, lookup_app_l_Some.
Qed.

Lemma int64_of_ext h l p n : int64_of h p n -> int64_of (h ++ l) p n.
Proof.
  intros [H | (o & Ho & Ht & ->)]; [left; by apply is_number_ext|].
  right. exists o. eauto using obj_at_ext.
Qed.

Lemma allocated_ext h l p : allocated h p -> allocated (h ++ l) p.
Proof. destruct p; simpl; [|done]. rewrite length_app. lia. Qed.

Lemma is_pair_inj h p a d a' d' :
  is_pair h p a d -> is_pair h p a' d' -> a = a' /\ d = d'.
Proof.
  intros (o & q & Ho & _ & Hq & Hc) (o' & q' & Ho' & _ & Hq' & Hc').
  assert (o = o') as <- by eauto using obj_at_inj.
  split; congruence.
Qed.

Lemma is_number_inj h p n n' : is_number h p n -> is_number h p n' -> n = n'.
Proof.
  intros (o & q & Ho & _ & Hq & Hc) (o' & q' & Ho' & _ & Hq' & Hc').
  assert (o = o') as <- by eauto using obj_at_inj. congruence.
Qed.

Lemma is_atom_inj h p s s' : is_atom h p s -> is_atom h p s' -> s = s'.
Proof.
  intros (o & q & Ho & _ & Hq & Hc) (o' & q' & Ho' & _ & Hq' & Hc').
  assert (o = o') as <- by eauto using obj_at_inj. congruence.
Qed.

(** The two cells a constructor allocates: the payload, then the
    struct that points to it. *)
Lemma lookup_new_payload h (c c' : Cell) : (h ++ [c; c']) !! length h = Some c.
Proof. by rewrite list_lookup_middle. Qed.

Lemma lookup_new_obj h (c c' : Cell) : (h ++ [c; c']) !! S (length h) = Some c'.
Proof. rewrite lookup_app_r by lia. by replace (S (length h) - length h) with 1 by lia. Qed.

Lemma obj_at_new h (c : Cell) o : obj_at (h ++ [c; CObj o]) (Some (S (length h))) o.
Proof. eexists. split; [done|]. apply lookup_new_obj. Qed.

Lemma is_pair_new h a d :
  is_pair (h ++ [CPair a d; CObj (mkObj None None None (Some (length h)) None None TagPair)])
          (Some (S (length h))) a d.
Proof. do 2 eexists. split; [apply obj_at_new|]. simpl. eauto using lookup_new_payload. Qed.

Lemma is_number_new h n :
  is_number (h ++ [CNumber n; CObj (mkObj None None (Some (length h)) None None None TagNumber)])
            (Some (S (length h))) n.
Proof. do 2 eexists. split; [apply obj_at_new|]. simpl. eauto using lookup_new_payload. Qed.

Lemma is_atom_new h s :
  is_atom (h ++ [CAtom s; CObj (mkObj None (Some (length h)) None None None None TagAtom)])
          (Some (S (length h))) s.
Proof. do 2 eexists. split; [apply obj_at_new|]. simpl. eauto using lookup_new_payload. Qed.

Lemma is_closure_new h b e :
  is_closure (h ++ [CClosure b e; CObj (mkObj None None None None (Some (length h)) None TagClosure)])
             (Some (S (length h))) b e.
Proof. do 2 eexists. split; [apply obj_at_new|]. simpl. eauto using lookup_new_payload. Qed.

Lemma allocated_fresh h p l : allocated h p -> p <> Some (S (length (h ++ l))).
Proof. destruct p; simpl; [|done]. rewrite length_app. intros ? [= ->]. lia. Qed.

Lemma allocated_fresh0 h p : allocated h p -> p <> Some (S (length h)).
Proof. destruct p; simpl; [|done]. intros ? [= ->]. lia. Qed.
End heap_shapes.

(** * Running the basic operations *)

Section basic_runs.
Implicit Types (f : Forsp) (p : ptr).

Lemma bind_Ok {A B} (m : M A) (k : A -> M B) f a f' :
  m f = Ok a f' -> bind m k f = k a f'.
Proof. unfold bind. by intros ->. Qed.

Lemma bind_Panic {A B} (m : M A) (k : A -> M B) f e :
  m f = Panic e -> bind m k f = Panic e.
Proof. unfold bind. by intros ->. Qed.

Lemma deref_ok f p o : obj_at (heap f) p o -> deref p f = Ok o f.
Proof. intros (a & -> & Ha). unfold deref, bind, load. by rewrite Ha. Qed.

Lemma is_ok f p o t :
  obj_at (heap f) p o -> is_ p t f = Ok (bool_decide (o_Tag o = t)) f.
Proof. intros Ho. unfold is_. by rewrite (bind_Ok _ _ _ _ _ (deref_ok _ _ _ Ho)). Qed.

Lemma get_Pair_ok f p a d : is_pair (heap f) p a d -> get_Pair p f = Ok (a, d) f.
Proof.
  intros (o & q & Ho & Ht & Hq & Hc). unfold get_Pair.
  rewrite (bind_Ok _ _ _ _ _ (deref_ok _ _ _ Ho)), Hq.
  unfold bind, load. by rewrite Hc.
Qed.

Lemma get_Number_ok f p n : is_number (heap f) p n -> get_Number p f = Ok n f.
Proof.
  intros (o & q & Ho & Ht & Hq & Hc). unfold get_Number.
  rewrite (bind_Ok _ _ _ _ _ (deref_ok _ _ _ Ho)), Hq.
  unfold bind, load. by rewrite Hc.
Qed.

Lemma get_Atom_ok f p s : is_atom (heap f) p s -> get_Atom p f = Ok s f.
Proof.
  intros (o & q & Ho & Ht & Hq & Hc). unfold get_Atom.
  rewrite (bind_Ok _ _ _ _ _ (deref_ok _ _ _ Ho)), Hq.
  unfold bind, load. by rewrite Hc.
Qed.

Lemma get_Closure_ok f p b e : is_closure (heap f) p b e -> get_Closure p f = Ok (b, e) f.
Proof.
  intros (o & q & Ho & Ht & Hq & Hc). unfold get_Closure.
  rewrite (bind_Ok _ _ _ _ _ (deref_ok _ _ _ Ho)), Hq.
  unfold bind, load. by rewrite Hc.
Qed.

Lemma is_pair_tag f p a d t :
  is_pair (heap f) p a d -> is_ p t f = Ok (bool_decide (TagPair = t)) f.
Proof. intros (o & q & Ho & <- & _). by apply is_ok. Qed.

Lemma is_number_tag f p n t :
  is_number (heap f) p n -> is_ p t f = Ok (bool_decide (TagNumber = t)) f.
Proof. intros (o & q & Ho & <- & _). by apply is_ok. Qed.

Lemma is_atom_tag f p s t :
  is_atom (heap f) p s -> is_ p t f = Ok (bool_decide (TagAtom = t)) f.
Proof. intros (o & q & Ho & <- & _). by apply is_ok. Qed.

Lemma is_closure_tag f p b e t :
  is_closure (heap f) p b e -> is_ p t f = Ok (bool_decide (TagClosure = t)) f.
Proof. intros (o & q & Ho & <- & _). by apply is_ok. Qed.

Lemma failTag_ok f p o msg :
  obj_at (heap f) p o -> failTag p (o_Tag o) msg f = Ok tt f.
Proof.
  intros Ho. unfold failTag. rewrite (bind_Ok _ _ _ _ _ (is_ok _ _ _ _ Ho)).
  by rewrite bool_decide_eq_true_2.
Qed.

Lemma failTag_fail f p o t msg :
  obj_at (heap f) p o -> o_Tag o <> t -> failTag p t msg f = Panic (FAIL msg).
Proof.
  intros Ho Ht. unfold failTag. rewrite (bind_Ok _ _ _ _ _ (is_ok _ _ _ _ Ho)).
  by rewrite bool_decide_eq_false_2.
Qed.

Lemma assertTag_ok f p o msg :
  obj_at (heap f) p o -> assertTag p (o_Tag o) msg f = Ok tt f.
Proof.
  intros Ho. unfold assertTag. rewrite (bind_Ok _ _ _ _ _ (is_ok _ _ _ _ Ho)).
  by rewrite bool_decide_eq_true_2.
Qed.

Lemma car_ok f p a d : is_pair (heap f) p a d -> car p f = Ok a f.
Proof.
  intros Hp. unfold car. destruct Hp as (o & q & Ho & Ht & Hq & Hc).
  rewrite <- Ht, (bind_Ok _ _ _ _ _ (failTag_ok _ _ _ _ Ho)).
  assert (is_pair (heap f) p a d) as Hp by (exists o, q; eauto).
  by rewrite (bind_Ok _ _ _ _ _ (get_Pair_ok _ _ _ _ Hp)).
Qed.

Lemma cdr_ok f p a d : is_pair (heap f) p a d -> cdr p f = Ok d f.
Proof.
  intros Hp. unfold cdr. destruct Hp as (o & q & Ho & Ht & Hq & Hc).
  rewrite <- Ht, (bind_Ok _ _ _ _ _ (failTag_ok _ _ _ _ Ho)).
  assert (is_pair (heap f) p a d) as Hp by (exists o, q; eauto).
  by rewrite (bind_Ok _ _ _ _ _ (get_Pair_ok _ _ _ _ Hp)).
Qed.

Lemma ObjToInt64_ok f p n : int64_of (heap f) p n -> ObjToInt64 p f = Ok n f.
Proof.
  intros [Hn | (o & Ho & Ht & ->)]; unfold ObjToInt64.
  - rewrite (bind_Ok _ _ _ _ _ (is_number_tag _ _ _ TagNumber Hn)).
    by apply get_Number_ok.
  - rewrite (bind_Ok _ _ _ _ _ (is_ok _ _ _ TagNumber Ho)).
    by rewrite bool_decide_eq_false_2.
Qed.

Lemma alloc2 f c (mk : ptr -> Obj) :
  (bind (alloc c) (fun p => alloc (CObj (mk p)))) f
  = Ok (Some (S (length (heap f)))) (grow f c (mk (Some (length (heap f))))).
Proof.
  unfold bind, alloc, grow, set_heap; simpl.
  rewrite length_app, <- app_assoc; simpl. by rewrite Nat.add_1_r.
Qed.

Lemma NewPair_ok a d f :
  NewPair a d f = Ok (Some (S (length (heap f))))
    (grow f (CPair a d) (mkObj None None None (Some (length (heap f))) None None TagPair)).
Proof. apply alloc2. Qed.

Lemma NewNumber_ok n f :
  NewNumber n f = Ok (Some (S (length (heap f))))
    (grow f (CNumber n) (mkObj None None (Some (length (heap f))) None None None TagNumber)).
Proof. apply alloc2. Qed.

Lemma NewAtom_ok s f :
  NewAtom s f = Ok (Some (S (length (heap f))))
    (grow f (CAtom s) (mkObj None (Some (length (heap f))) None None None None TagAtom)).
Proof. apply alloc2. Qed.

Lemma NewClosure_ok b e f :
  NewClosure b e f = Ok (Some (S (length (heap f))))
    (grow f (CClosure b e) (mkObj None None None None (Some (length (heap f))) None TagClosure)).
Proof. apply alloc2. Qed.

Lemma Push_ok obj f : Push obj f = Ok tt (pushed obj f).
Proof. unfold Push, bind, gets. by rewrite NewPair_ok. Qed.

Lemma pushed_top obj f : is_pair (heap (pushed obj f)) (Stack (pushed obj f)) obj (Stack f).
Proof. apply is_pair_new. Qed.

Lemma pushed_heap obj f : exists l, heap (pushed obj f) = heap f ++ l.
Proof. by eexists. Qed.

Lemma pushed_not_nil obj f : allocated (heap f) (nil_ f) -> Stack (pushed obj f) <> nil_ (pushed obj f).
Proof. intros H E. simpl in E. by eapply allocated_fresh0. Qed.

Lemma Pop_ok f x rest :
  is_pair (heap f) (Stack f) x rest -> Stack f <> nil_ f ->
  Pop f = Ok x (set_Stack rest f).
Proof.
  intros Hp Hn. unfold Pop, tryPop, bind, gets, ptr_eq.
  rewrite bool_decide_eq_false_2 by done.
  by rewrite (car_ok _ _ _ _ Hp), (cdr_ok _ _ _ _ Hp).
Qed.

Lemma Pop_underflow f : Stack f = nil_ f -> Pop f = Panic (FAIL "Value Stack Underflow").
Proof.
  intros E. unfold Pop, tryPop, bind, gets, ptr_eq.
  by rewrite bool_decide_eq_true_2.
Qed.
End basic_runs.

Lemma Pop2_ok {A} (k : ptr -> ptr -> M A) f y x rest :
stack_top2 f y x rest ->
bind Pop (fun a => bind Pop (fun b => k a b)) f = k y x (set_Stack rest f).
Proof.
intros (s & H1 & N1 & H2 & N2).
rewrite (bind_Ok _ _ _ _ _ (Pop_ok _ _ _ H1 N1)).
by rewrite (bind_Ok _ _ _ _ _ (Pop_ok (set_Stack s f) x rest H2 N2)).
Qed.

(** * Binary arithmetic primitives *)

Lemma binop_result_top f rest n :
  is_pair (heap (binop_result f rest n)) (Stack (binop_result f rest n))
          (Some (S (length (heap f)))) rest /\
  is_number (heap (binop_result f rest n)) (Some (S (length (heap f)))) n.
Proof.
  split; [apply pushed_top|].
  apply is_number_ext, is_number_new.
Qed.

Lemma binop_result_frame f rest n :
  (exists l, heap (binop_result f rest n) = heap f ++ l) /\
  binop_result f rest n
  = set_Stack (Stack (binop_result f rest n)) (set_heap (heap (binop_result f rest n)) f).
Proof. split; [|done]. simpl. rewrite <- app_assoc. by eexists. Qed.

Lemma binop_ok (op : Z -> Z -> Z) f pb pa rest x y :
  stack_top2 f pb pa rest ->
  int64_of (heap f) pa x -> int64_of (heap f) pb y ->
  (b ← Pop; a ← Pop; u ← ObjToInt64 a; v ← ObjToInt64 b;
   n ← NewNumber (op u v); Push n) f
  = Ok tt (binop_result f rest (op x y)).
Proof.
  intros Hst Hx Hy. rewrite (Pop2_ok _ _ _ _ _ Hst).
  rewrite (bind_Ok _ _ _ _ _ (ObjToInt64_ok (set_Stack rest f) _ _ Hx)).
  rewrite (bind_Ok _ _ _ _ _ (ObjToInt64_ok (set_Stack rest f) _ _ Hy)).
  rewrite (bind_Ok _ _ _ _ _ (NewNumber_ok _ _)).
  by rewrite Push_ok.
Qed.

Lemma stack_top2_pushed f a b :
  allocated (heap f) (nil_ f) ->
  stack_top2 (pushed b (pushed a f)) b a (Stack f).
Proof.
  intros Hn. exists (Stack (pushed a f)).
  split; [apply pushed_top|].
  split; [apply pushed_not_nil, allocated_ext, Hn|].
  split; [apply is_pair_ext, pushed_top|].
  exact (pushed_not_nil a f Hn).
Qed.

(** C4. From any state whose nil object is allocated, pushing Number(3),
    pushing Number(4) and invoking [-] leaves a Number holding -1 on top
    of the stack the state started with; only the stack pointer and the
    heap (which grows) change. *)
Theorem push3_push4_sub_minus1 (f : Forsp) :
  allocated (heap f) (nil_ f) ->
  exists f' top,
    push3_push4_sub f = Ok tt f' /\
    is_pair (heap f') (Stack f') top (Stack f) /\
    is_number (heap f') top (-1) /\
    (exists l, heap f' = heap f ++ l) /\
    f' = set_Stack (Stack f') (set_heap (heap f') f).
Proof.
  intros Hn. unfold push3_push4_sub.
  rewrite (bind_Ok _ _ _ _ _ (NewNumber_ok _ _)).
  rewrite (bind_Ok _ _ _ _ _ (Push_ok _ _)).
  rewrite (bind_Ok _ _ _ _ _ (NewNumber_ok _ _)).
  rewrite (bind_Ok _ _ _ _ _ (Push_ok _ _)).
  set (f1 := grow f _ _). set (n3 := Some (S (length (heap f)))).
  set (f2 := grow (pushed n3 f1) _ _). set (n4 := Some (S (length (heap (pushed n3 f1))))).
  assert (allocated (heap f1) (nil_ f1)) as Hn1 by apply allocated_ext, Hn.
  assert (allocated (heap f2) (nil_ f2)) as Hn2 by apply allocated_ext, allocated_ext, Hn1.
  assert (stack_top2 (pushed n4 f2) n4 n3 (Stack f)) as Hst.
  { exists (Stack f2).
    split; [exact (pushed_top n4 f2)|].
    split; [exact (pushed_not_nil n4 f2 Hn2)|].
    split; [exact (is_pair_ext _ _ _ _ _ (is_pair_ext _ _ _ _ _ (pushed_top n3 f1)))|].
    exact (pushed_not_nil n3 f1 Hn1). }
  unfold primSub.
  rewrite (binop_ok sub64 _ n4 n3 (Stack f) 3 4 Hst).
  - eexists _, _. split; [done|].
    destruct (binop_result_top (pushed n4 f2) (Stack f) (sub64 3 4)) as [Hp Hnum].
    split; [exact Hp|]. split; [exact Hnum|].
    split; [|done]. simpl. repeat rewrite <- app_assoc. by eexists.
  - left. apply is_number_ext, is_number_ext, is_number_ext, is_number_new.
  - left. apply is_number_ext, is_number_new.
Qed.

(** * Decoders: the shapes, computed *)

Lemma obj_of_Some h p o : obj_of h p = Some o <-> obj_at h p o.
Proof.
  unfold obj_of, obj_at. split.
  - destruct p as [a|]; [|done]. destruct (h !! a) as [[]|] eqn:E; try done.
    intros [= ->]. eauto.
  - intros (a & -> & ->). done.
Qed.

Lemma pair_of_Some h p a d : pair_of h p = Some (a, d) <-> is_pair h p a d.
Proof.
  unfold pair_of, is_pair. split.
  - destruct (obj_of h p) as [[? ? ? [q|] ? ? []]|] eqn:E; try done.
    destruct (h !! q) as [[]|] eqn:Eq; try done. intros [= -> ->].
    apply obj_of_Some in E. eauto 10.
  - intros (o & q & Ho & Ht & Hq & Hc). apply obj_of_Some in Ho. rewrite Ho.
    destruct o; simpl in *; subst. by rewrite Hc.
Qed.

Lemma number_of_Some h p n : number_of h p = Some n <-> is_number h p n.
Proof.
  unfold number_of, is_number. split.
  - destruct (obj_of h p) as [[? ? [q|] ? ? ? []]|] eqn:E; try done.
    destruct (h !! q) as [[]|] eqn:Eq; try done. intros [= ->].
    apply obj_of_Some in E. eauto 10.
  - intros (o & q & Ho & Ht & Hq & Hc). apply obj_of_Some in Ho. rewrite Ho.
    destruct o; simpl in *; subst. by rewrite Hc.
Qed.

Lemma atom_of_Some h p s : atom_of h p = Some s <-> is_atom h p s.
Proof.
  unfold atom_of, is_atom. split.
  - destruct (obj_of h p) as [[? [q|] ? ? ? ? []]|] eqn:E; try done.
    destruct (h !! q) as [[]|] eqn:Eq; try done. intros [= ->].
    apply obj_of_Some in E. eauto 10.
  - intros (o & q & Ho & Ht & Hq & Hc). apply obj_of_Some in Ho. rewrite Ho.
    destruct o; simpl in *; subst. by rewrite Hc.
Qed.

Lemma closure_of_Some h p b e : closure_of h p = Some (b, e) <-> is_closure h p b e.
Proof.
  unfold closure_of, is_closure. split.
  - destruct (obj_of h p) as [[? ? ? ? [q|] ? []]|] eqn:E; try done.
    destruct (h !! q) as [[]|] eqn:Eq; try done. intros [= -> ->].
    apply obj_of_Some in E. eauto 10.
  - intros (o & q & Ho & Ht & Hq & Hc). apply obj_of_Some in Ho. rewrite Ho.
    destruct o; simpl in *; subst. by rewrite Hc.
Qed.

Lemma stack_top2_decode f y x rest s :
  pair_of (heap f) (Stack f) = Some (y, s) ->
  pair_of (heap f) s = Some (x, rest) ->
  bool_decide (Stack f = nil_ f) = false ->
  bool_decide (s = nil_ f) = false ->
  stack_top2 f y x rest.
Proof.
  intros H1 H2 N1 N2. exists s.
  apply pair_of_Some in H1, H2. apply bool_decide_eq_false in N1, N2. done.
Qed.

(** Goals about a closed state: decode and evaluate. *)
Ltac by_eval := vm_compute; first [ reflexivity | discriminate | lia ].
Ltac decode :=
  lazymatch goal with
  | |- is_pair _ _ _ _ => apply pair_of_Some; by_eval
  | |- is_number _ _ _ => apply number_of_Some; by_eval
  | |- is_atom _ _ _ => apply atom_of_Some; by_eval
  | |- is_closure _ _ _ _ => apply closure_of_Some; by_eval
  | |- obj_at _ _ _ => apply obj_of_Some; by_eval
  | |- int64_of _ _ _ => left; apply number_of_Some; by_eval
  | |- stack_top2 _ _ _ _ => eapply stack_top2_decode; by_eval
  | |- _ <> _ => by_eval
  | |- _ => by_eval
  end.

Lemma push3_push4_sub_minus1_witness :
  exists f' top,
    push3_push4_sub initial = Ok tt f' /\
    is_pair (heap f') (Stack f') top (Stack initial) /\
    is_number (heap f') top (-1) /\
    (exists l, heap f' = heap initial ++ l) /\
    f' = set_Stack (Stack f') (set_heap (heap f') initial).
Proof. apply (push3_push4_sub_minus1 initial). vm_compute. lia. Defined.

(** * cons *)

Lemma primCons_ok f y x rest :
  stack_top2 f y x rest -> primCons f = Ok tt (cons_result f rest y x).
Proof.
  intros Hst. unfold primCons. rewrite (Pop2_ok _ _ _ _ _ Hst).
  rewrite (bind_Ok _ _ _ _ _ (NewPair_ok _ _ _)).
  by rewrite Push_ok.
Qed.

Lemma cons_result_top f rest a b :
  is_pair (heap (cons_result f rest a b)) (Stack (cons_result f rest a b))
          (Some (S (length (heap f)))) rest /\
  is_pair (heap (cons_result f rest a b)) (Some (S (length (heap f)))) a b.
Proof. split; [apply pushed_top|]. apply is_pair_ext, is_pair_new. Qed.

Lemma stack_1_2_top2 :
  stack_top2 (stack_1_2) (Some 185) (Some 181) (Some 1).
Proof. decode. Qed.

(** C1, as stated, fails: with Number(2) on top of Number(1), the pair
    [cons] pushes is not (x . y) for the second-popped x and the
    first-popped y. *)
Lemma primCons_first_popped_not_cdr :
  exists f y x rest,
    stack_top2 f y x rest /\
    is_number (heap f) y 2 /\ is_number (heap f) x 1 /\
    ~ (exists f' p, primCons f = Ok tt f' /\
                    is_pair (heap f') (Stack f') p rest /\
                    is_pair (heap f') p x y).
Proof.
  exists (stack_1_2), (Some 185), (Some 181), (Some 1).
  split; [apply stack_1_2_top2|].
  split; [decode|]. split; [decode|].
  intros (f' & p & Hrun & Htop & Hp).
  rewrite (primCons_ok _ _ _ _ stack_1_2_top2) in Hrun.
  injection Hrun as <-.
  destruct (cons_result_top (stack_1_2) (Some 1) (Some 185) (Some 181)) as [Htop' Hp'].
  destruct (is_pair_inj _ _ _ _ _ _ Htop Htop') as [-> _].
  destruct (is_pair_inj _ _ _ _ _ _ Hp Hp') as [E _].
  discriminate E.
Qed.

(** C1, amended. With y on top of x on top of the stack, [cons] pops
    a = y first and b = x second and pushes the pair (a . b) = (y . x):
    the first-popped element is the car of the new pair, the
    second-popped its cdr. *)
Theorem primCons_first_popped_is_car (f : Forsp) (y x rest : ptr) :
  stack_top2 f y x rest ->
  exists f' p,
    primCons f = Ok tt f' /\
    is_pair (heap f') (Stack f') p rest /\
    is_pair (heap f') p y x /\
    (exists l, heap f' = heap f ++ l) /\
    f' = set_Stack (Stack f') (set_heap (heap f') f).
Proof.
  intros Hst. exists (cons_result f rest y x), (Some (S (length (heap f)))).
  split; [by apply primCons_ok|].
  destruct (cons_result_top f rest y x) as [H1 H2].
  split; [exact H1|]. split; [exact H2|].
  split; [|done]. simpl. rewrite <- app_assoc. by eexists.
Qed.

Lemma primCons_first_popped_is_car_witness :
  exists f' p,
    primCons (stack_1_2) = Ok tt f' /\
    is_pair (heap f') (Stack f') p (Some 1) /\
    is_pair (heap f') p (Some 185) (Some 181) /\
    (exists l, heap f' = heap (stack_1_2) ++ l) /\
    f' = set_Stack (Stack f') (set_heap (heap f') (stack_1_2)).
Proof.
  apply (primCons_first_popped_is_car (stack_1_2) (Some 185) (Some 181) (Some 1)).
  decode.
Defined.

(** * tag *)

(** C9. For every object x on top of the stack, [tag] pops x and pushes
    a Number holding the variant id of x: 0 for Nil, 1 for Atom, 2 for
    Number, 3 for Pair, 4 for Closure, 5 for Primitive. *)
Theorem primTag_pushes_variant_id (f : Forsp) (x rest : ptr) (o : Obj) :
  is_pair (heap f) (Stack f) x rest -> Stack f <> nil_ f ->
  obj_at (heap f) x o ->
  exists f' top,
    primTag f = Ok tt f' /\
    is_pair (heap f') (Stack f') top rest /\
    is_number (heap f') top
      (match o_Tag o with
       | TagNil => 0 | TagAtom => 1 | TagNumber => 2
       | TagPair => 3 | TagClosure => 4 | TagPrimitive => 5
       end) /\
    (exists l, heap f' = heap f ++ l) /\
    f' = set_Stack (Stack f') (set_heap (heap f') f).
Proof.
  intros Hp Hn Ho. unfold primTag.
  rewrite (bind_Ok _ _ _ _ _ (Pop_ok _ _ _ Hp Hn)).
  rewrite (bind_Ok _ _ _ _ _ (deref_ok (set_Stack rest f) _ _ Ho)).
  rewrite (bind_Ok _ _ _ _ _ (NewNumber_ok _ _)), Push_ok.
  eexists _, _. split; [done|].
  split; [apply pushed_top|].
  split; [apply is_number_ext, is_number_new|].
  split; [|done]. simpl. rewrite <- app_assoc. by eexists.
Qed.

Lemma primTag_pushes_variant_id_witness :
  exists f' top,
    primTag (stack_1_2) = Ok tt f' /\
    is_pair (heap f') (Stack f') top (Some 183) /\
    is_number (heap f') top 2 /\
    (exists l, heap f' = heap (stack_1_2) ++ l) /\
    f' = set_Stack (Stack f') (set_heap (heap f') (stack_1_2)).
Proof.
  apply (primTag_pushes_variant_id (stack_1_2) (Some 185) (Some 183)
           (mkObj None None (Some 184) None None None TagNumber)); decode.
Defined.

(** * Shifts *)

Lemma wrap64_mod a b : (a mod 2 ^ 64 = b mod 2 ^ 64)%Z -> wrap64 a = wrap64 b.
Proof.
  intros E. unfold wrap64. f_equal.
  rewrite <- (Zplus_mod_idemp_l a), <- (Zplus_mod_idemp_l b). by rewrite E.
Qed.

Lemma wrap64_id a : in_int64 a -> wrap64 a = a.
Proof. unfold in_int64, wrap64. intros H. rewrite Z.mod_small; lia. Qed.

Lemma shl64_logical a s : (0 <= s)%Z -> shl64 a s = logical_shl64 a s.
Proof.
  intros Hs. unfold shl64, logical_shl64.
  destruct (Z.leb_spec 64 s) as [H|H].
  - replace s with (64 + (s - 64))%Z by lia.
    rewrite Z.pow_add_r by lia.
    replace (a mod 2 ^ 64 * (2 ^ 64 * 2 ^ (s - 64)))%Z
      with ((a mod 2 ^ 64 * 2 ^ (s - 64)) * 2 ^ 64)%Z by lia.
    unfold wrap64.
    rewrite (Z.add_comm _ (2 ^ 63)), Z_mod_plus_full. reflexivity.
  - rewrite Z.shiftl_mul_pow2 by lia. apply wrap64_mod.
    rewrite Z.mul_mod_idemp_l; [done | lia].
Qed.

Lemma shr64_arithmetic a s : in_int64 a -> (0 <= s)%Z -> shr64 a s = (a / 2 ^ s)%Z.
Proof.
  intros Ha Hs. unfold shr64, in_int64 in *.
  destruct (Z.leb_spec 64 s) as [H|H]; [|by apply Z.shiftr_div_pow2].
  assert (2 ^ 63 < 2 ^ s)%Z by (apply Z.pow_lt_mono_r; lia).
  destruct (Z.ltb_spec a 0).
  - apply (Z.div_unique a (2 ^ s) (-1) (a + 2 ^ s))%Z; lia.
  - symmetry. apply Z.div_small. lia.
Qed.

Lemma shr64_logical_nonneg a s :
  in_int64 a -> (0 <= a)%Z -> (0 <= s)%Z -> (a / 2 ^ s)%Z = logical_shr64 a s.
Proof.
  intros Ha Hp Hs. unfold logical_shr64, in_int64 in *.
  rewrite (Z.mod_small a) by lia.
  assert (0 < 2 ^ s)%Z by (apply Z.pow_pos_nonneg; lia).
  assert (0 <= a / 2 ^ s <= a)%Z.
  { split; [apply Z.div_pos; lia|]. apply Z.div_le_upper_bound; nia. }
  symmetry. apply wrap64_id. unfold in_int64. lia.
Qed.

Lemma to_uint_nonneg b : (0 <= to_uint b)%Z.
Proof. unfold to_uint. apply Z.mod_pos_bound. lia. Qed.

Lemma primLsh_ok f pb pa rest a b :
  stack_top2 f pb pa rest -> int64_of (heap f) pa a -> int64_of (heap f) pb b ->
  primLsh f = Ok tt (binop_result f rest (shl64 a (to_uint b))).
Proof. apply (binop_ok (fun u v => shl64 u (to_uint v))). Qed.

Lemma primRsh_ok f pb pa rest a b :
  stack_top2 f pb pa rest -> int64_of (heap f) pa a -> int64_of (heap f) pb b ->
  primRsh f = Ok tt (binop_result f rest (shr64 a (to_uint b))).
Proof. apply (binop_ok (fun u v => shr64 u (to_uint v))). Qed.

Lemma stack_m8_1_top2 :
  stack_top2 (stack_m8_1) (Some 185) (Some 181) (Some 1).
Proof. decode. Qed.

(** C2, as stated, fails for [>>]: with a = -8 and b = 1 the Number
    pushed is not the zero-filling shift of the 64-bit pattern of a. *)
Lemma primRsh_not_logical :
  exists f pb pa rest a b,
    stack_top2 f pb pa rest /\
    is_number (heap f) pa a /\ is_number (heap f) pb b /\
    a = (-8)%Z /\ b = 1%Z /\
    ~ (exists f' top, primRsh f = Ok tt f' /\
                      is_pair (heap f') (Stack f') top rest /\
                      is_number (heap f') top (logical_shr64 a (to_uint b))).
Proof.
  exists (stack_m8_1), (Some 185), (Some 181), (Some 1), (-8)%Z, 1%Z.
  split; [apply stack_m8_1_top2|].
  assert (is_number (heap stack_m8_1) (Some 181) (-8)) as Ha by decode.
  assert (is_number (heap stack_m8_1) (Some 185) 1) as Hb by decode.
  split; [exact Ha|]. split; [exact Hb|].
  split; [reflexivity|]. split; [reflexivity|].
  intros (f' & top & Hrun & Htop & Hnum).
  rewrite (primRsh_ok _ _ _ _ (-8) 1 stack_m8_1_top2) in Hrun
    by (left; assumption).
  injection Hrun as <-.
  destruct (binop_result_top (stack_m8_1) (Some 1) (shr64 (-8) (to_uint 1)))
    as [Htop' Hnum'].
  destruct (is_pair_inj _ _ _ _ _ _ Htop Htop') as [-> _].
  pose proof (is_number_inj _ _ _ _ Hnum Hnum') as E.
  vm_compute in E. discriminate E.
Qed.

(** C2, amended. With b on top of a, [<<] pushes a shifted left by
    uint(b) bits, zero-filling and truncated to 64 bits (a logical
    shift); [>>] pushes a shifted right arithmetically, the sign bit
    replicated: the floor of a / 2^uint(b), which is the zero-filling
    shift exactly when a is not negative. *)
Theorem shift_left_logical_right_arithmetic
    (f : Forsp) (pb pa rest : ptr) (a b : Z) :
  stack_top2 f pb pa rest ->
  int64_of (heap f) pa a -> int64_of (heap f) pb b ->
  in_int64 a ->
  (exists f' top,
     primLsh f = Ok tt f' /\
     is_pair (heap f') (Stack f') top rest /\
     is_number (heap f') top (logical_shl64 a (to_uint b))) /\
  (exists f' top,
     primRsh f = Ok tt f' /\
     is_pair (heap f') (Stack f') top rest /\
     is_number (heap f') top (a / 2 ^ to_uint b) /\
     ((0 <= a)%Z -> (a / 2 ^ to_uint b)%Z = logical_shr64 a (to_uint b)) /\
     ((a < 0)%Z -> (a / 2 ^ to_uint b < 0)%Z)).
Proof.
  intros Hst Ha Hb Hr. pose proof (to_uint_nonneg b) as Hs. split.
  - exists (binop_result f rest (shl64 a (to_uint b))), (Some (S (length (heap f)))).
    split; [by eapply primLsh_ok|].
    rewrite <- shl64_logical by done. apply binop_result_top.
  - exists (binop_result f rest (shr64 a (to_uint b))), (Some (S (length (heap f)))).
    split; [by eapply primRsh_ok|].
    rewrite <- shr64_arithmetic by done.
    split; [apply binop_result_top|]. split; [apply binop_result_top|].
    rewrite shr64_arithmetic by done. split.
    + intros. by apply shr64_logical_nonneg.
    + intros. apply Z.div_lt_upper_bound; [apply Z.pow_pos_nonneg; lia | lia].
Qed.

Lemma shift_left_logical_right_arithmetic_witness :
  (exists f' top,
     primLsh (stack_m8_1) = Ok tt f' /\
     is_pair (heap f') (Stack f') top (Some 1) /\
     is_number (heap f') top (logical_shl64 (-8) (to_uint 1))) /\
  (exists f' top,
     primRsh (stack_m8_1) = Ok tt f' /\
     is_pair (heap f') (Stack f') top (Some 1) /\
     is_number (heap f') top (-8 / 2 ^ to_uint 1) /\
     ((0 <= -8)%Z -> (-8 / 2 ^ to_uint 1)%Z = logical_shr64 (-8) (to_uint 1)) /\
     ((-8 < 0)%Z -> (-8 / 2 ^ to_uint 1 < 0)%Z)).
Proof.
  apply (shift_left_logical_right_arithmetic (stack_m8_1)
           (Some 185) (Some 181) (Some 1) (-8) 1).
  - decode.
  - decode.
  - decode.
  - unfold in_int64. lia.
Defined.

(** * Environment lookup *)

Lemma key_test_ok f key k o1 o2 :
  obj_at (heap f) key o1 -> obj_at (heap f) k o2 ->
  (if ptr_eq key k then ret true
   else a ← deref key; b ← deref k; ret (bool_decide (a = b))) f
  = Ok (key_matches (heap f) key k) f.
Proof.
  intros H1 H2. unfold key_matches, ptr_eq.
  destruct (bool_decide (key = k)); [done|]. simpl.
  rewrite (bind_Ok _ _ _ _ _ (deref_ok _ _ _ H1)).
  rewrite (bind_Ok _ _ _ _ _ (deref_ok _ _ _ H2)).
  apply obj_of_Some in H1, H2. by rewrite H1, H2.
Qed.

Lemma EnvFind_loop_ok f key o env l fuel :
  obj_at (heap f) key o ->
  env_list (heap f) (nil_ f) env l ->
  length l < fuel ->
  EnvFind_loop fuel key env f
  = match first_match (heap f) key l with
    | Some v => Ok v f
    | None => Panic (FAIL "Failed to find key in environment")
    end.
Proof.
  intros Hk. revert env fuel. induction l as [|[k v] l IH]; intros env fuel Hl Hf;
    (destruct fuel as [|fuel]; [simpl in Hf; lia|]); simpl in Hl |- *.
  - subst env. unfold bind at 1, gets, ptr_eq. by rewrite bool_decide_eq_true_2.
  - destruct Hl as (Hne & kv & rest & Hp & Hkv & (o2 & Ho2) & Hl).
    unfold bind at 1, gets, ptr_eq. rewrite bool_decide_eq_false_2 by done.
    rewrite (bind_Ok _ _ _ _ _ (car_ok _ _ _ _ Hp)).
    rewrite (bind_Ok _ _ _ _ _ (car_ok _ _ _ _ Hkv)).
    rewrite (bind_Ok _ _ _ _ _ (key_test_ok _ _ _ _ _ Hk Ho2)).
    unfold first_match. simpl.
    destruct (key_matches (heap f) key k); simpl.
    + by apply (cdr_ok _ _ _ _ Hkv).
    + rewrite (bind_Ok _ _ _ _ _ (cdr_ok _ _ _ _ Hp)).
      apply IH; [done | simpl in Hf; lia].
Qed.

Lemma EnvFind_ok f key s env l fuel :
  is_atom (heap f) key s ->
  env_list (heap f) (nil_ f) env l ->
  length l < fuel ->
  EnvFind fuel env key f
  = match first_match (heap f) key l with
    | Some v => Ok v f
    | None => Panic (FAIL "Failed to find key in environment")
    end.
Proof.
  intros Hk Hl Hf. unfold EnvFind.
  rewrite (bind_Ok _ _ _ _ _ (is_atom_tag _ _ _ TagAtom Hk)). simpl.
  unfold bind at 1, ret. destruct Hk as (o & q & Ho & _).
  by eapply EnvFind_loop_ok.
Qed.

Lemma key_matches_distinct h key k o1 o2 :
  obj_at h key o1 -> obj_at h k o2 ->
  key <> k -> o_Atom o1 <> o_Atom o2 ->
  key_matches h key k = false.
Proof.
  intros H1 H2 Hne Hp. unfold key_matches.
  apply obj_of_Some in H1, H2. rewrite H1, H2.
  rewrite bool_decide_eq_false_2 by done. simpl.
  apply bool_decide_eq_false_2. congruence.
Qed.

(** C3, as stated, fails: [k] and [k'] are two Atom objects with the
    same text "x", [k'] is bound to [v] in [env], and [EnvFind(env, k)]
    does not return [v]; it fails with the undefined-symbol error. *)
Lemma EnvFind_equal_text_not_found :
  exists f env kv k k' v s,
    is_pair (heap f) env kv (nil_ f) /\ env <> nil_ f /\
    is_pair (heap f) kv k' v /\
    is_atom (heap f) k s /\ is_atom (heap f) k' s /\ k <> k' /\
    (forall fuel, EnvFind fuel env k f <> Ok v f) /\
    EnvFind 2 env k f = Panic (FAIL "Failed to find key in environment").
Proof.
  exists (fst two_atoms), (Some 187), (Some 185), (Some 189), (Some 181), (Some 183), (str "x").
  split; [decode|]. split; [decode|]. split; [decode|].
  split; [decode|]. split; [decode|]. split; [decode|].
  split; [|by_eval].
  intros [|[|[|fuel]]]; vm_compute; discriminate.
Qed.

(** C3, amended. [EnvFind(env, key)] returns the value of the first
    binding whose key is the same object as [key] or whose [Obj] struct
    equals the struct of [key] field by field (same payload pointers,
    same tag), and fails with the undefined-symbol error when no binding
    passes that test.  The text of the atoms is not compared: a key that
    is a distinct Atom object with a payload of its own never passes. *)
Theorem EnvFind_first_identical_key
    (f : Forsp) (env key : ptr) (s : gostring) (l : list (ptr * ptr)) (fuel : nat) :
  is_atom (heap f) key s ->
  env_list (heap f) (nil_ f) env l ->
  length l < fuel ->
  EnvFind fuel env key f
  = match first_match (heap f) key l with
    | Some v => Ok v f
    | None => Panic (FAIL "Failed to find key in environment")
    end /\
  (forall k o1 o2,
     obj_at (heap f) key o1 -> obj_at (heap f) k o2 ->
     key <> k -> o_Atom o1 <> o_Atom o2 ->
     key_matches (heap f) key k = false) /\
  key_matches (heap f) key key = true.
Proof.
  intros Hk Hl Hf. split; [by eapply EnvFind_ok|].
  split; [intros; by eapply key_matches_distinct|].
  unfold key_matches. by rewrite bool_decide_eq_true_2.
Qed.

Lemma two_atoms_env :
  env_list (heap (fst two_atoms)) (nil_ (fst two_atoms)) (Some 187) [(Some 181, Some 183)].
Proof.
  split; [decode|]. exists (Some 185), (Some 1).
  split; [decode|]. split; [decode|].
  split; [|by_eval]. eexists. decode.
Qed.

Lemma EnvFind_first_identical_key_witness :
  EnvFind 2 (Some 187) (Some 181) (fst two_atoms)
  = match first_match (heap (fst two_atoms)) (Some 181) [(Some 181, Some 183)] with
    | Some v => Ok v (fst two_atoms)
    | None => Panic (FAIL "Failed to find key in environment")
    end /\
  (forall k o1 o2,
     obj_at (heap (fst two_atoms)) (Some 181) o1 -> obj_at (heap (fst two_atoms)) k o2 ->
     Some 181 <> k -> o_Atom o1 <> o_Atom o2 ->
     key_matches (heap (fst two_atoms)) (Some 181) k = false) /\
  key_matches (heap (fst two_atoms)) (Some 181) (Some 181) = true.
Proof.
  apply (EnvFind_first_identical_key (fst two_atoms) (Some 187) (Some 181) (str "x")
           [(Some 181, Some 183)] 2).
  - decode.
  - apply two_atoms_env.
  - simpl. lia.
Defined.

(** * The evaluation loop *)

Lemma ComputeEnv_unfold fuel comp env :
  ComputeEnv (S fuel) comp env
  = (nl ← gets nil_;
     if ptr_eq comp nl then ret tt
     else
       cmd ← car comp;
       comp ← cdr comp;
       q ← gets AtomQuote;
       if ptr_eq cmd q then
         (if ptr_eq comp nl then fail "Expected data following a quote form"
          else ret tt);;
         x ← car comp;
         Push x;;
         comp ← cdr comp;
         ComputeEnv fuel comp env
       else
         env ← eval fuel cmd env;
         ComputeEnv fuel comp env).
Proof. reflexivity. Qed.

Lemma ComputeEnv_step f fuel comp env cmd rest :
  is_pair (heap f) comp cmd rest -> comp <> nil_ f ->
  ComputeEnv (S fuel) comp env f
  = if ptr_eq cmd (AtomQuote f) then
      ((if ptr_eq rest (nil_ f) then fail "Expected data following a quote form"
        else ret tt);;
       x ← car rest;
       Push x;;
       comp ← cdr rest;
       ComputeEnv fuel comp env) f
    else (env ← eval fuel cmd env; ComputeEnv fuel rest env) f.
Proof.
  intros Hp Hn. rewrite ComputeEnv_unfold.
  unfold bind at 1, gets, ptr_eq. rewrite bool_decide_eq_false_2 by done.
  rewrite (bind_Ok _ _ _ _ _ (car_ok _ _ _ _ Hp)).
  rewrite (bind_Ok _ _ _ _ _ (cdr_ok _ _ _ _ Hp)).
  unfold bind at 1, gets. by destruct (bool_decide (cmd = AtomQuote f)).
Qed.

(** C7. When the loop of [ComputeEnv] stands at the interned [quote]
    atom: if no item follows, it fails with the dangling-quote error; if
    an item x follows, x itself is pushed on the stack, unevaluated, and
    the loop goes on after x, both items consumed. *)
Theorem ComputeEnv_quote (f : Forsp) (fuel : nat) (comp env rest : ptr) :
  is_pair (heap f) comp (AtomQuote f) rest -> comp <> nil_ f ->
  (rest = nil_ f ->
   ComputeEnv (S fuel) comp env f
   = Panic (FAIL "Expected data following a quote form")) /\
  (forall x rest',
     rest <> nil_ f -> is_pair (heap f) rest x rest' ->
     ComputeEnv (S fuel) comp env f = ComputeEnv fuel rest' env (pushed x f)).
Proof.
  intros Hp Hn. rewrite (ComputeEnv_step _ _ _ _ _ _ Hp Hn).
  assert (ptr_eq (AtomQuote f) (AtomQuote f) = true) as ->
    by (by apply bool_decide_eq_true_2).
  split.
  - intros ->. unfold ptr_eq. by rewrite bool_decide_eq_true_2.
  - intros x rest' Hr Hp'. unfold ptr_eq. rewrite bool_decide_eq_false_2 by done.
    unfold bind at 1, ret.
    rewrite (bind_Ok _ _ _ _ _ (car_ok _ _ _ _ Hp')).
    rewrite (bind_Ok _ _ _ _ _ (Push_ok _ _)).
    assert (is_pair (heap (pushed x f)) rest x rest') as Hp'' by apply is_pair_ext, Hp'.
    by rewrite (bind_Ok _ _ _ _ _ (cdr_ok _ _ _ _ Hp'')).
Qed.

Lemma ComputeEnv_quote_witness :
  ComputeEnv 10 (Some 181) (Some 179) (snd read_quote_dangling)
  = Panic (FAIL "Expected data following a quote form") /\
  ComputeEnv 10 (Some 187) (Some 179) (snd read_quote_x)
  = ComputeEnv 9 (Some 1) (Some 179) (pushed (Some 181) (snd read_quote_x)).
Proof.
  split.
  - apply (ComputeEnv_quote (snd read_quote_dangling) 9 (Some 181) (Some 179) (Some 1));
      decode.
  - apply (ComputeEnv_quote (snd read_quote_x) 9 (Some 187) (Some 179) (Some 185));
      decode.
Defined.

Lemma eval_closure f fuel expr env s val body cenv :
  is_atom (heap f) expr s ->
  EnvFind fuel env expr f = Ok val f ->
  is_closure (heap f) val body cenv ->
  eval fuel expr env f = (ComputeEnv fuel body cenv;; ret env) f.
Proof.
  intros Ha Hfind Hc. unfold eval, eval_with.
  rewrite (bind_Ok _ _ _ _ _ (is_atom_tag _ _ _ TagAtom Ha)). simpl.
  rewrite (bind_Ok _ _ _ _ _ Hfind).
  rewrite (bind_Ok _ _ _ _ _ (is_closure_tag _ _ _ _ TagClosure Hc)). simpl.
  by rewrite (bind_Ok _ _ _ _ _ (get_Closure_ok _ _ _ _ Hc)).
Qed.

(** C8. When the loop of [ComputeEnv] stands at an atom bound to a
    closure, the body runs in a nested [ComputeEnv] on the captured
    environment; whatever that call binds, [eval] hands the caller's
    environment back as it was, and the rest of the caller's list is
    evaluated against it. *)
Theorem closure_call_keeps_caller_env
    (f : Forsp) (fuel : nat) (comp env cmd rest val body cenv : ptr) (s : gostring) :
  is_pair (heap f) comp cmd rest -> comp <> nil_ f ->
  cmd <> AtomQuote f ->
  is_atom (heap f) cmd s ->
  EnvFind fuel env cmd f = Ok val f ->
  is_closure (heap f) val body cenv ->
  (forall f', ComputeEnv fuel body cenv f = Ok tt f' ->
              eval fuel cmd env f = Ok env f') /\
  ComputeEnv (S fuel) comp env f
  = (ComputeEnv fuel body cenv;; ComputeEnv fuel rest env) f.
Proof.
  intros Hp Hn Hq Ha Hfind Hc. split.
  - intros f' Hrun. rewrite (eval_closure _ _ _ _ _ _ _ _ Ha Hfind Hc).
    by rewrite (bind_Ok _ _ _ _ _ Hrun).
  - rewrite (ComputeEnv_step _ _ _ _ _ _ Hp Hn).
    unfold ptr_eq. rewrite bool_decide_eq_false_2 by done.
    unfold bind at 1. rewrite (eval_closure _ _ _ _ _ _ _ _ Ha Hfind Hc).
    unfold bind, ret. by destruct (ComputeEnv fuel body cenv f).
Qed.

Lemma closure_call_keeps_caller_env_witness :
  (forall f', ComputeEnv 30 (Some 199) (Some 179) (fst closure_call) = Ok tt f' ->
              eval 30 (Some 201) (Some 213) (fst closure_call) = Ok (Some 213) f') /\
  ComputeEnv 31 (Some 207) (Some 213) (fst closure_call)
  = (ComputeEnv 30 (Some 199) (Some 179);; ComputeEnv 30 (Some 205) (Some 213))
      (fst closure_call).
Proof.
  apply (closure_call_keeps_caller_env (fst closure_call) 30 (Some 207) (Some 213)
           (Some 201) (Some 205) (Some 209) (Some 199) (Some 179) (str "g")); decode.
Defined.

(** The body [(1 $y)] of the closure bound to [g] binds [y]; the caller
    [(g y)] does not see that binding afterwards. *)
Lemma closure_binding_stays_local :
  (exists f', ComputeEnv 30 (Some 199) (Some 179) (fst closure_call) = Ok tt f') /\
  ComputeEnv 31 (Some 207) (Some 213) (fst closure_call)
  = Panic (FAIL "Failed to find key in environment").
Proof. split; [eexists|]; by_eval. Qed.

Lemma get_Primitive_ok f p fn :
  is_primitive (heap f) p fn -> get_Primitive p f = Ok fn f.
Proof.
  intros (o & q & Ho & Ht & Hq & Hc). unfold get_Primitive.
  rewrite (bind_Ok _ _ _ _ _ (deref_ok _ _ _ Ho)), Hq.
  unfold bind, load. by rewrite Hc.
Qed.

(** By contrast, when the loop stands at an atom bound to the [pop]
    primitive, the caller's own environment is extended: the rest of the
    list is evaluated against the environment [primPop] returns. *)
Lemma pop_extends_caller_env f fuel comp env cmd rest val s :
  is_pair (heap f) comp cmd rest -> comp <> nil_ f ->
  cmd <> AtomQuote f ->
  is_atom (heap f) cmd s ->
  EnvFind fuel env cmd f = Ok val f ->
  is_primitive (heap f) val PrimPop ->
  ComputeEnv (S fuel) comp env f
  = (env' ← primPop env; ComputeEnv fuel rest env') f.
Proof.
  intros Hp Hn Hq Ha Hfind Hprim.
  rewrite (ComputeEnv_step _ _ _ _ _ _ Hp Hn).
  unfold ptr_eq. rewrite bool_decide_eq_false_2 by done.
  unfold bind at 1. unfold eval, eval_with.
  rewrite (bind_Ok _ _ _ _ _ (is_atom_tag _ _ _ TagAtom Ha)).
  rewrite bool_decide_eq_true_2 by done.
  rewrite (bind_Ok _ _ _ _ _ Hfind).
  pose proof Hprim as (o & q & Ho & Htag & Hq' & Hc).
  rewrite (bind_Ok _ _ _ _ _ (is_ok _ _ _ TagClosure Ho)).
  rewrite bool_decide_eq_false_2 by (by rewrite Htag).
  rewrite (bind_Ok _ _ _ _ _ (is_ok _ _ _ TagPrimitive Ho)).
  rewrite bool_decide_eq_true_2 by done.
  by rewrite (bind_Ok _ _ _ _ _ (get_Primitive_ok _ _ _ Hprim)).
Qed.

(** * Interning *)

Lemma atom_table_ext h l nl p tbl :
  atom_table h nl p tbl -> atom_table (h ++ l) nl p tbl.
Proof.
  revert p. induction tbl as [|[a s] tbl IH]; intros p; simpl; [done|].
  intros (Hn & rest & Hp & Ha & Ht). split; [done|]. exists rest.
  repeat split; eauto using is_pair_ext, is_atom_ext.
Qed.

Lemma atom_table_is_atom h nl p tbl s a :
  atom_table h nl p tbl -> lookup_atom s tbl = Some a -> is_atom h a s.
Proof.
  unfold lookup_atom. revert p. induction tbl as [|[a' s'] tbl IH]; intros p; simpl; [done|].
  intros (Hn & rest & Hp & Ha & Ht). case_bool_decide as E; simpl.
  - intros [= <-]. by subst.
  - eauto.
Qed.

Lemma text_test (s a : gostring) : (length s =? length a) && bool_decide (s = a) = bool_decide (s = a).
Proof.
  case_bool_decide as E; [|by rewrite andb_false_r].
  subst. by rewrite Nat.eqb_refl.
Qed.

Lemma intern_loop_ok f s p tbl fuel :
  atom_table (heap f) (nil_ f) p tbl ->
  length tbl < fuel ->
  intern_loop fuel s p f = Ok (lookup_atom s tbl) f.
Proof.
  unfold lookup_atom.
  revert p fuel. induction tbl as [|[a s'] tbl IH]; intros p fuel Ht Hf;
    (destruct fuel as [|fuel]; [simpl in Hf; lia|]); simpl in Ht |- *.
  - subst p. unfold bind at 1, gets, ptr_eq. by rewrite bool_decide_eq_true_2.
  - destruct Ht as (Hn & rest & Hp & Ha & Ht).
    unfold bind at 1, gets, ptr_eq. rewrite bool_decide_eq_false_2 by done.
    destruct Hp as (o & q & Ho & Htag & Hq & Hc).
    rewrite <- Htag, (bind_Ok _ _ _ _ _ (assertTag_ok _ _ _ _ Ho)).
    assert (is_pair (heap f) p a rest) as Hp by (exists o, q; eauto).
    rewrite (bind_Ok _ _ _ _ _ (get_Pair_ok _ _ _ _ Hp)). simpl.
    destruct Ha as (oa & qa & Hoa & Htaga & Hqa & Hca).
    rewrite <- Htaga, (bind_Ok _ _ _ _ _ (assertTag_ok _ _ _ _ Hoa)).
    assert (is_atom (heap f) a s') as Ha by (exists oa, qa; eauto).
    rewrite (bind_Ok _ _ _ _ _ (get_Atom_ok _ _ _ Ha)).
    rewrite text_test. case_bool_decide; simpl; [done|].
    apply IH; [done | simpl in Hf; lia].
Qed.

Lemma intern_found f s tbl fuel a :
  atom_table (heap f) (nil_ f) (internedAtoms f) tbl ->
  length tbl < fuel ->
  lookup_atom s tbl = Some a ->
  intern fuel s f = Ok a f.
Proof.
  intros Ht Hf Hl. unfold intern, bind at 1, gets.
  rewrite (bind_Ok _ _ _ _ _ (intern_loop_ok _ s _ _ _ Ht Hf)). by rewrite Hl.
Qed.

Lemma intern_fresh f s tbl fuel :
  atom_table (heap f) (nil_ f) (internedAtoms f) tbl ->
  length tbl < fuel ->
  lookup_atom s tbl = None ->
  intern fuel s f = Ok (Some (S (length (heap f)))) (interned_new s f).
Proof.
  intros Ht Hf Hl. unfold intern, bind at 1, gets.
  rewrite (bind_Ok _ _ _ _ _ (intern_loop_ok _ s _ _ _ Ht Hf)). rewrite Hl.
  rewrite (bind_Ok _ _ _ _ _ (NewAtom_ok _ _)).
  unfold bind at 1, gets.
  rewrite (bind_Ok _ _ _ _ _ (NewPair_ok _ _ _)).
  unfold bind, modify, ret, interned_new, grow, set_internedAtoms, set_heap. simpl.
  rewrite length_app, <- app_assoc. simpl.
  by replace (length (heap f) + 2) with (S (S (length (heap f)))) by lia.
Qed.

Lemma interned_new_table f s tbl :
  atom_table (heap f) (nil_ f) (internedAtoms f) tbl ->
  allocated (heap f) (nil_ f) ->
  atom_table (heap (interned_new s f)) (nil_ f) (internedAtoms (interned_new s f))
    ((Some (S (length (heap f))), s) :: tbl).
Proof.
  intros Ht Hn. simpl. split.
  { destruct (nil_ f) as [a|]; [|done]. simpl in Hn. intros [= E]. lia. }
  exists (internedAtoms f). split; [|split].
  - exists (mkObj None None None (Some (S (S (length (heap f))))) None None TagPair),
      (S (S (length (heap f)))).
    split; [eexists; split; [done|]|].
    + rewrite lookup_app_r by lia.
      by replace (S (S (S (length (heap f)))) - length (heap f)) with 3 by lia.
    + simpl. repeat split.
      rewrite lookup_app_r by lia.
      by replace (S (S (length (heap f))) - length (heap f)) with 2 by lia.
  - exists (mkObj None (Some (length (heap f))) None None None None TagAtom), (length (heap f)).
    split; [eexists; split; [done|]|].
    + rewrite lookup_app_r by lia.
      by replace (S (length (heap f)) - length (heap f)) with 1 by lia.
    + simpl. repeat split. by rewrite list_lookup_middle.
  - by apply atom_table_ext.
Qed.

Lemma lookup_atom_cons_ne (s : gostring) a s' tbl :
  s <> s' -> lookup_atom s ((a, s') :: tbl) = lookup_atom s tbl.
Proof. intros H. unfold lookup_atom. simpl. by rewrite bool_decide_eq_false_2. Qed.

Lemma lookup_atom_cons_eq (s : gostring) a tbl : lookup_atom s ((a, s) :: tbl) = Some a.
Proof. unfold lookup_atom. simpl. by rewrite bool_decide_eq_true_2. Qed.

Lemma initial_table_ok :
  atom_table (heap initial) (nil_ initial) (internedAtoms initial) initial_table.
Proof.
  unfold initial_table.
  repeat (split; [by_eval|]; eexists; split; [decode|]; split; [decode|]). by_eval.
Qed.

(** * Reader: single steps *)

Lemma set_pos_id f : set_pos (pos f) f = f.
Proof. by destruct f. Qed.

Lemma peek_at f c rest : drop (pos f) (input f) = c :: rest -> peek f = Ok c f.
Proof.
  intros Hd. unfold peek.
  assert (input f !! pos f = Some c) as Hl.
  { rewrite <- (Nat.add_0_r (pos f)), <- lookup_drop. by rewrite Hd. }
  pose proof (lookup_lt_Some _ _ _ Hl).
  destruct (Nat.eqb_spec (pos f) (length (input f))); [lia|]. by rewrite Hl.
Qed.

Lemma peek_end f : pos f = length (input f) -> peek f = Ok NUL f.
Proof. intros E. unfold peek. by rewrite E, Nat.eqb_refl. Qed.

Lemma drop_next (l : gostring) n c rest : drop n l = c :: rest -> drop (S n) l = rest.
Proof.
  intros Hd. replace (S n) with (n + 1) by lia.
  rewrite <- drop_drop. by rewrite Hd.
Qed.

Lemma drop_pos_le (l : gostring) n c rest : drop n l = c :: rest -> S n <= length l.
Proof.
  intros Hd. apply (f_equal length) in Hd. rewrite length_drop in Hd. simpl in Hd. lia.
Qed.

Lemma advance_ok f c rest :
  drop (pos f) (input f) = c :: rest -> byte_eq c NUL = false ->
  advance f = Ok tt (set_pos (S (pos f)) f).
Proof.
  intros Hd Hc. unfold advance.
  rewrite (bind_Ok _ _ _ _ _ (peek_at _ _ _ Hd)). by rewrite Hc.
Qed.

Lemma skipWhiteAndComments_unfold fuel :
  skipWhiteAndComments (S fuel)
  = (c ← peek;
     if byte_eq c NUL then ret tt
     else if isWhite c then advance;; skipWhiteAndComments fuel
     else if byte_eq c ";" then
       advance;;
       more ← skipComment_loop fuel;
       if more then skipWhiteAndComments fuel else ret tt
     else ret tt).
Proof. reflexivity. Qed.

Lemma readScalar_loop_unfold fuel :
  readScalar_loop (S fuel)
  = (c ← peek; if isPunctuation c then ret tt else advance;; readScalar_loop fuel).
Proof. reflexivity. Qed.

Lemma Read_unfold fuel :
  Read (S fuel)
  = (read_stack ← gets readStack;
     if negb (ptr_eq read_stack None) then
       d ← cdr read_stack;
       modify (set_readStack d);;
       car read_stack
     else
       skipWhiteAndComments fuel;;
       c ← peek;
       if byte_eq c NUL then fail "End of input: could not read()"
       else if byte_eq c "'" then
         advance;; gets AtomQuote
       else if byte_eq c "^" then
         advance;;
         a ← gets AtomPush;
         s ← NewPair a None;
         x ← readScalar fuel;
         s ← NewPair x s;
         q ← gets AtomQuote;
         s ← NewPair q s;
         modify (set_readStack s);;
         Read fuel
       else if byte_eq c "$" then
         advance;;
         a ← gets AtomPop;
         s ← NewPair a None;
         x ← readScalar fuel;
         s ← NewPair x s;
         q ← gets AtomQuote;
         s ← NewPair q s;
         modify (set_readStack s);;
         Read fuel
       else if byte_eq c "(" then
         advance;; readList fuel
       else readScalar fuel).
Proof. reflexivity. Qed.

Lemma readList_unfold fuel :
  readList (S fuel)
  = (rs ← gets readStack;
     closed ←
       (if ptr_eq rs None then
          skipWhiteAndComments fuel;;
          c ← peek;
          if byte_eq c ")" then advance;; ret true else ret false
        else ret false);
     if (closed : bool) then gets nil_
     else
       first ← Read fuel;
       second ← readList fuel;
       NewPair first second).
Proof. reflexivity. Qed.

Lemma skipWhite_stop f fuel c :
  peek f = Ok c f -> stops_skip c = true ->
  skipWhiteAndComments (S fuel) f = Ok tt f.
Proof.
  intros Hp Hc. rewrite skipWhiteAndComments_unfold, (bind_Ok _ _ _ _ _ Hp).
  unfold stops_skip in Hc. destruct (byte_eq c NUL); [done|]. simpl in Hc.
  apply negb_true_iff, orb_false_iff in Hc as [-> ->]. done.
Qed.

Lemma skipWhite_white f fuel c rest :
  drop (pos f) (input f) = c :: rest -> isWhite c = true ->
  skipWhiteAndComments (S fuel) f = skipWhiteAndComments fuel (set_pos (S (pos f)) f).
Proof.
  intros Hd Hc. rewrite skipWhiteAndComments_unfold, (bind_Ok _ _ _ _ _ (peek_at _ _ _ Hd)).
  assert (byte_eq c NUL = false) as Hz.
  { unfold isWhite, byte_eq in *. destruct (Ascii.eqb_spec c NUL); [by subst|done]. }
  rewrite Hz, Hc. by rewrite (bind_Ok _ _ _ _ _ (advance_ok _ _ _ Hd Hz)).
Qed.

Lemma advance_frame f f' : advance f = Ok tt f' -> f' = set_pos (S (pos f)) f.
Proof.
  unfold advance, bind, peek, assert, modify, ret, throw.
  destruct (pos f =? length (input f)); simpl; [done|].
  destruct (input f !! pos f); [|done].
  destruct (byte_eq a NUL); simpl; [done|]. by intros [= <-].
Qed.

Lemma peek_frame f c f' : peek f = Ok c f' -> f' = f.
Proof.
  unfold peek. destruct (pos f =? length (input f)); [by intros [= _ <-]|].
  destruct (input f !! pos f); [by intros [= _ <-]|done].
Qed.

Lemma skipComment_loop_frame fuel f b f' :
  skipComment_loop fuel f = Ok b f' -> f' = set_pos (pos f') f.
Proof.
  revert f. induction fuel as [|fuel IH]; intros f; simpl; [done|].
  unfold bind at 1. destruct (peek f) as [c f1| |] eqn:Hp; try done.
  apply peek_frame in Hp as ->.
  destruct (byte_eq c NUL); [intros [= _ <-]; by rewrite set_pos_id|].
  unfold bind at 1. destruct (advance f) as [[] f2| |] eqn:Ha; try done.
  apply advance_frame in Ha as ->.
  destruct (byte_eq c "010").
  - by intros [= _ <-].
  - intros H. apply IH in H. by rewrite H.
Qed.

Lemma skipWhite_frame fuel f f' :
  skipWhiteAndComments fuel f = Ok tt f' -> f' = set_pos (pos f') f.
Proof.
  revert f. induction fuel as [|fuel IH]; intros f; [done|].
  rewrite skipWhiteAndComments_unfold.
  unfold bind at 1. destruct (peek f) as [c f1| |] eqn:Hp; try done.
  apply peek_frame in Hp as ->.
  destruct (byte_eq c NUL); [intros [= <-]; by rewrite set_pos_id|].
  destruct (isWhite c).
  { unfold bind at 1. destruct (advance f) as [[] f2| |] eqn:Ha; try done.
    apply advance_frame in Ha as ->. intros H. apply IH in H. by rewrite H. }
  destruct (byte_eq c ";"); [|intros [= <-]; by rewrite set_pos_id].
  unfold bind at 1. destruct (advance f) as [[] f2| |] eqn:Ha; try done.
  apply advance_frame in Ha as ->.
  unfold bind at 1.
  destruct (skipComment_loop fuel _) as [more f3| |] eqn:Hc; try done.
  apply skipComment_loop_frame in Hc. destruct more.
  - intros H. apply IH in H. rewrite H, Hc. done.
  - intros [= <-]. by rewrite Hc at 1.
Qed.

Lemma readScalar_empty f fuel c :
  peek f = Ok c f -> isPunctuation c = true ->
  readScalar (S fuel) f = intern (S fuel) [] f.
Proof.
  intros Hp Hc. unfold readScalar. unfold bind at 1, gets.
  rewrite readScalar_loop_unfold. unfold bind at 1. unfold bind at 1.
  rewrite Hp, Hc. unfold ret at 1. unfold bind at 1. unfold bind at 1.
  by rewrite Nat.sub_diag.
Qed.

Lemma not_punct_not_NUL c : isPunctuation c = false -> byte_eq c NUL = false.
Proof. unfold isPunctuation. by destruct (byte_eq c NUL). Qed.

Lemma peek_rest f rest :
  drop (pos f) (input f) = rest -> pos f <= length (input f) ->
  ends_token rest ->
  exists c, peek f = Ok c f /\ isPunctuation c = true.
Proof.
  intros Hd Hle He. destruct rest as [|c rest].
  - exists NUL. split; [|done]. apply peek_end.
    apply (f_equal length) in Hd. rewrite length_drop in Hd. simpl in Hd. lia.
  - exists c. split; [by eapply peek_at|done].
Qed.

Lemma readScalar_loop_token tok : forall f rest fuel,
  drop (pos f) (input f) = tok ++ rest -> pos f <= length (input f) ->
  token_bytes tok -> ends_token rest ->
  length tok < fuel ->
  readScalar_loop fuel f = Ok tt (set_pos (pos f + length tok) f).
Proof.
  induction tok as [|c tok IH]; intros f rest fuel Hd Hle Ht He Hf;
    (destruct fuel as [|fuel]; [simpl in Hf; lia|]); rewrite readScalar_loop_unfold.
  - destruct (peek_rest f rest Hd Hle He) as (c & Hp & Hc).
    rewrite (bind_Ok _ _ _ _ _ Hp), Hc. simpl. by rewrite Nat.add_0_r, set_pos_id.
  - simpl in Hd. apply Forall_cons in Ht as [Hc Ht].
    rewrite (bind_Ok _ _ _ _ _ (peek_at _ _ _ Hd)), Hc.
    rewrite (bind_Ok _ _ _ _ _ (advance_ok _ _ _ Hd (not_punct_not_NUL _ Hc))).
    rewrite (IH _ rest); simpl.
    + by replace (S (pos f + length tok)) with (pos f + S (length tok)) by lia.
    + by eapply drop_next.
    + by eapply drop_pos_le.
    + done.
    + done.
    + simpl in Hf. lia.
Qed.

Lemma readScalar_token f tok rest fuel :
  drop (pos f) (input f) = tok ++ rest -> pos f <= length (input f) ->
  token_bytes tok -> ends_token rest ->
  length tok < fuel ->
  readScalar fuel f
  = match parseInt64 tok with
    | Some n => NewNumber n (set_pos (pos f + length tok) f)
    | None => intern fuel tok (set_pos (pos f + length tok) f)
    end.
Proof.
  intros Hd Hle Ht He Hf. unfold readScalar. unfold bind at 1, gets.
  rewrite (bind_Ok _ _ _ _ _ (readScalar_loop_token _ _ _ _ Hd Hle Ht He Hf)).
  unfold bind at 1, gets. unfold bind at 1, gets. simpl.
  replace (pos f + length tok - pos f) with (length tok) by lia.
  rewrite Hd, take_app_length. by destruct (parseInt64 tok).
Qed.

Lemma Read_queue f fuel rs x rs' :
  readStack f = rs -> rs <> None -> is_pair (heap f) rs x rs' ->
  Read (S fuel) f = Ok x (set_readStack rs' f).
Proof.
  intros Hrs Hn Hp. rewrite Read_unfold. unfold bind at 1, gets. rewrite Hrs.
  unfold ptr_eq. rewrite bool_decide_eq_false_2 by done. simpl.
  rewrite (bind_Ok _ _ _ _ _ (cdr_ok _ _ _ _ Hp)).
  unfold bind at 1, modify.
  by apply (car_ok (set_readStack rs' f) rs x rs').
Qed.

Lemma Read_end f fuel :
  readStack f = None -> pos f = length (input f) ->
  Read (S (S fuel)) f = Panic (FAIL "End of input: could not read()").
Proof.
  intros Hrs Hp. rewrite Read_unfold. unfold bind at 1, gets. rewrite Hrs. simpl.
  rewrite (bind_Ok _ _ _ _ _ (skipWhite_stop f fuel NUL (peek_end _ Hp) eq_refl)).
  by rewrite (bind_Ok _ _ _ _ _ (peek_end _ Hp)).
Qed.

(** Skipping always ends: with more fuel than bytes left it returns. *)
Lemma peek_cases f :
  pos f <= length (input f) ->
  (pos f = length (input f) /\ peek f = Ok NUL f) \/
  (exists c rest, drop (pos f) (input f) = c :: rest /\ peek f = Ok c f).
Proof.
  intros Hle. destruct (decide (pos f = length (input f))) as [E|Hne].
  - left. split; [done|by apply peek_end].
  - right. destruct (input f !! pos f) as [c|] eqn:El.
    + exists c, (drop (S (pos f)) (input f)).
      assert (drop (pos f) (input f) = c :: drop (S (pos f)) (input f)) as Hd
        by (by apply drop_S).
      split; [done|by eapply peek_at].
    + apply lookup_ge_None in El. lia.
Qed.

Lemma skipComment_loop_total fuel : forall f,
  pos f <= length (input f) -> length (input f) - pos f < fuel ->
  exists b f1, skipComment_loop fuel f = Ok b f1 /\
               pos f <= pos f1 <= length (input f) /\ input f1 = input f.
Proof.
  induction fuel as [|fuel IH]; intros f Hle Hf; [lia|]. simpl.
  destruct (peek_cases f Hle) as [[E Hp]|(c & rest & Hd & Hp)];
    rewrite (bind_Ok _ _ _ _ _ Hp).
  - exists false, f. split; [done|]. split; [lia|done].
  - destruct (byte_eq c NUL) eqn:Hz.
    { exists false, f. split; [done|]. split; [lia|done]. }
    rewrite (bind_Ok _ _ _ _ _ (advance_ok _ _ _ Hd Hz)).
    pose proof (drop_pos_le _ _ _ _ Hd) as Hle'.
    destruct (byte_eq c "010").
    { eexists true, _. split; [done|]. simpl. split; [lia|done]. }
    destruct (IH (set_pos (S (pos f)) f)) as (b & f1 & E & Hpos & Hin);
      [simpl; lia..|].
    exists b, f1. split; [done|]. simpl in *. split; [lia|done].
Qed.

Lemma skipWhite_total fuel : forall f,
  pos f <= length (input f) -> length (input f) - pos f < fuel ->
  exists f1, skipWhiteAndComments fuel f = Ok tt f1.
Proof.
  induction fuel as [|fuel IH]; intros f Hle Hf; [lia|].
  rewrite skipWhiteAndComments_unfold.
  destruct (peek_cases f Hle) as [[E Hp]|(c & rest & Hd & Hp)];
    rewrite (bind_Ok _ _ _ _ _ Hp).
  - by exists f.
  - destruct (byte_eq c NUL) eqn:Hz; [by exists f|].
    pose proof (drop_pos_le _ _ _ _ Hd) as Hle'.
    destruct (isWhite c).
    { rewrite (bind_Ok _ _ _ _ _ (advance_ok _ _ _ Hd Hz)).
      apply IH; simpl; lia. }
    destruct (byte_eq c ";"); [|by exists f].
    rewrite (bind_Ok _ _ _ _ _ (advance_ok _ _ _ Hd Hz)).
    destruct (skipComment_loop_total fuel (set_pos (S (pos f)) f))
      as (b & f1 & E & Hpos & Hin); [simpl; lia..|].
    rewrite (bind_Ok _ _ _ _ _ E). simpl in *.
    destruct b; [|by exists f1].
    apply IH; rewrite Hin; lia.
Qed.

Lemma heap_skipWhite fuel f f1 :
  skipWhiteAndComments fuel f = Ok tt f1 ->
  heap f1 = heap f /\ nil_ f1 = nil_ f /\ internedAtoms f1 = internedAtoms f /\
  readStack f1 = readStack f /\ input f1 = input f.
Proof. intros H. apply skipWhite_frame in H. by rewrite H. Qed.

Lemma peek_same f f' c :
  input f' = input f -> pos f' = pos f -> peek f = Ok c f -> peek f' = Ok c f'.
Proof.
  intros Hi Hp. unfold peek. rewrite Hi, Hp.
  destruct (pos f =? length (input f)); [by intros [= ->]|].
  destruct (input f !! pos f); [by intros [= ->]|done].
Qed.

(** [Read] at a [)], once the skipping is done. *)
Lemma Read_close_paren_after_skip
    (f f1 : Forsp) (tbl : list (ptr * gostring)) (fuel : nat) :
  readStack f = None ->
  atom_table (heap f) (nil_ f) (internedAtoms f) tbl ->
  allocated (heap f) (nil_ f) ->
  length tbl < fuel ->
  skipWhiteAndComments fuel f = Ok tt f1 ->
  peek f1 = Ok ")"%char f1 ->
  exists a f' tbl',
    Read (S fuel) f = Ok a f' /\
    is_atom (heap f') a [] /\
    atom_table (heap f') (nil_ f') (internedAtoms f') tbl' /\
    lookup_atom [] tbl' = Some a /\
    pos f' = pos f1 /\ input f' = input f /\
    peek f' = Ok ")"%char f' /\
    (peek f = Ok ")"%char f -> pos f' = pos f).
Proof.
  intros Hrs Ht Hn Hf Hskip Hp.
  destruct (heap_skipWhite _ _ _ Hskip) as (Hh & Hnl & Hia & Hrs1 & Hin).
  assert (forall a f', Read (S fuel) f = Ok a f' -> pos f' = pos f1 ->
            peek f = Ok ")"%char f -> pos f' = pos f) as Hsame.
  { intros a f' _ E Hp0. rewrite E.
    destruct fuel as [|fuel]; [done|].
    rewrite (skipWhite_stop f fuel _ Hp0 eq_refl) in Hskip. by injection Hskip as <-. }
  assert (Read (S fuel) f = intern fuel [] f1) as HR.
  { rewrite Read_unfold. unfold bind at 1, gets. rewrite Hrs. simpl.
    rewrite (bind_Ok _ _ _ _ _ Hskip), (bind_Ok _ _ _ _ _ Hp). simpl.
    destruct fuel as [|fuel]; [done|]. by apply (readScalar_empty _ _ _ Hp). }
  rewrite <- Hh, <- Hnl, <- Hia in Ht. rewrite <- Hh, <- Hnl in Hn.
  destruct (lookup_atom [] tbl) as [a|] eqn:Hl.
  - exists a, f1, tbl. rewrite HR.
    split; [by eapply intern_found|].
    split; [by eapply atom_table_is_atom|].
    repeat split; try done.
    intros Hp0. apply (Hsame a f1); [|done..]. rewrite HR. by eapply intern_found.
  - exists (Some (S (length (heap f1)))), (interned_new [] f1),
      ((Some (S (length (heap f1))), []) :: tbl).
    rewrite HR. pose proof (interned_new_table f1 [] tbl Ht Hn) as Ht'.
    split; [by eapply intern_fresh|].
    split; [eapply atom_table_is_atom; [exact Ht' | apply lookup_atom_cons_eq]|].
    split; [exact Ht'|]. split; [apply lookup_atom_cons_eq|].
    split; [done|]. split; [done|].
    split.
    + by apply (peek_same f1).
    + intros Hp0. apply (Hsame (Some (S (length (heap f1)))) (interned_new [] f1)); [|done..].
      rewrite HR. by eapply intern_fresh.
Qed.

(** C10. With an empty read-ahead queue, when the byte that follows the
    whitespace and comments at the cursor is a [)], [Read] does not
    fail: [readScalar] scans an empty token and the result is the
    interned Atom with the empty text; the cursor stays where the
    skipping left it, on the [)], which is where it was when nothing had
    to be skipped. *)
Theorem Read_unmatched_close_paren
    (f : Forsp) (tbl : list (ptr * gostring)) (fuel : nat) :
  readStack f = None ->
  atom_table (heap f) (nil_ f) (internedAtoms f) tbl ->
  allocated (heap f) (nil_ f) ->
  pos f <= length (input f) ->
  length tbl + (length (input f) - pos f) < fuel ->
  exists f1,
    skipWhiteAndComments fuel f = Ok tt f1 /\
    (peek f1 = Ok ")"%char f1 ->
     exists a f' tbl',
       Read (S fuel) f = Ok a f' /\
       is_atom (heap f') a [] /\
       atom_table (heap f') (nil_ f') (internedAtoms f') tbl' /\
       lookup_atom [] tbl' = Some a /\
       pos f' = pos f1 /\ input f' = input f /\
       peek f' = Ok ")"%char f' /\
       (peek f = Ok ")"%char f -> pos f' = pos f)).
Proof.
  intros Hrs Ht Hn Hle Hf.
  destruct (skipWhite_total fuel f Hle) as [f1 Hskip]; [lia|].
  exists f1. split; [done|]. intros Hp.
  apply (Read_close_paren_after_skip f f1 tbl fuel); try done. lia.
Qed.

Lemma Read_unmatched_close_paren_witness :
  exists f1,
    skipWhiteAndComments 30 (initial_on " )") = Ok tt f1 /\
    (peek f1 = Ok ")"%char f1 ->
     exists a f' tbl',
       Read 31 (initial_on " )") = Ok a f' /\
       is_atom (heap f') a [] /\
       atom_table (heap f') (nil_ f') (internedAtoms f') tbl' /\
       lookup_atom [] tbl' = Some a /\
       pos f' = pos f1 /\ input f' = input (initial_on " )") /\
       peek f' = Ok ")"%char f' /\
       (peek (initial_on " )") = Ok ")"%char (initial_on " )") ->
        pos f' = pos (initial_on " )"))).
Proof.
  apply (Read_unmatched_close_paren (initial_on " )") initial_table 30).
  - reflexivity.
  - apply initial_table_ok.
  - by_eval.
  - by_eval.
  - by_eval.
Defined.

(** On the input [ )] the atom with the empty text is read and the
    cursor is left on the parenthesis: the next [Read] returns the same
    atom again. *)
Lemma Read_stray_paren_twice :
  exists a f1 f2,
    Read 31 (initial_on " )") = Ok a f1 /\ pos f1 = 1 /\
    atom_of (heap f1) a = Some [] /\
    Read 31 f1 = Ok a f2 /\ pos f2 = 1.
Proof.
  exists (Some 181), (snd (after_read " )")),
    (match Read 31 (snd (after_read " )")) with Ok _ f => f | _ => initial end).
  split; [by_eval|]. split; [by_eval|]. split; [by_eval|]. split; by_eval.
Qed.

(** What [intern] guarantees on a well-formed table: the atom returned
    is the table's entry for the text, and entries are kept. *)
Lemma intern_spec f s tbl fuel :
  atom_table (heap f) (nil_ f) (internedAtoms f) tbl ->
  allocated (heap f) (nil_ f) ->
  length tbl < fuel ->
  exists a f' l tbl',
    intern fuel s f = Ok a f' /\
    f' = set_internedAtoms (internedAtoms f') (set_heap (heap f ++ l) f) /\
    atom_table (heap f') (nil_ f) (internedAtoms f') tbl' /\
    lookup_atom s tbl' = Some a /\
    (forall s' a', lookup_atom s' tbl = Some a' -> lookup_atom s' tbl' = Some a').
Proof.
  intros Ht Hn Hf. destruct (lookup_atom s tbl) as [a|] eqn:Hl.
  - exists a, f, [], tbl. split; [by eapply intern_found|].
    rewrite app_nil_r. split; [by destruct f|]. done.
  - eexists _, _, _, _. split; [by eapply intern_fresh|].
    split; [reflexivity|].
    split; [by apply interned_new_table|].
    split; [apply lookup_atom_cons_eq|].
    intros s' a' Hl'. rewrite lookup_atom_cons_ne; [done|]. congruence.
Qed.

(** C5. With the input exactly [^x], the cursor at its start and an
    empty read-ahead queue, three successive calls of [Read] return the
    interned atoms [quote], [x] and [push], in that order.  The first
    call consumes the whole input and queues the objects; the next two
    calls only pop the queue; a fourth call finds the queue empty,
    consults the input and fails at its end. *)
Theorem Read_push_shortcut (f : Forsp) (tbl : list (ptr * gostring)) (fuel : nat) :
  input f = str "^x" -> pos f = 0 -> readStack f = None ->
  atom_table (heap f) (nil_ f) (internedAtoms f) tbl ->
  allocated (heap f) (nil_ f) ->
  lookup_atom (str "quote") tbl = Some (AtomQuote f) ->
  lookup_atom (str "push") tbl = Some (AtomPush f) ->
  length tbl + 3 <= fuel ->
  exists x f1 f2 f3 tbl',
    Read fuel f = Ok (AtomQuote f) f1 /\
    Read fuel f1 = Ok x f2 /\
    Read fuel f2 = Ok (AtomPush f) f3 /\
    atom_table (heap f3) (nil_ f3) (internedAtoms f3) tbl' /\
    lookup_atom (str "quote") tbl' = Some (AtomQuote f) /\
    lookup_atom (str "x") tbl' = Some x /\
    lookup_atom (str "push") tbl' = Some (AtomPush f) /\
    pos f1 = 2 /\ input f1 = input f /\ readStack f1 <> None /\
    f2 = set_readStack (readStack f2) f1 /\ readStack f2 <> None /\
    f3 = set_readStack None f1 /\
    Read fuel f3 = Panic (FAIL "End of input: could not read()").
Proof.
  intros Hin Hpos Hrs Ht Hn Hq Hpu Hf.
  destruct fuel as [|[|n]]; [lia..|].
  assert (length tbl < S n) as Hfn by lia.
  (* the first call, up to the scalar *)
  assert (drop (pos f) (input f) = "^"%char :: str "x") as Hd by (by rewrite Hin, Hpos).
  pose (fa := set_pos 1 f).
  pose (s1 := Some (S (length (heap f)))).
  pose (fb := grow fa (CPair (AtomPush f) None)
                (mkObj None None None (Some (length (heap f))) None None TagPair)).
  pose (fc := set_pos 2 fb).
  assert (readScalar (S n) fb = intern (S n) (str "x") fc) as Hscalar.
  { rewrite (readScalar_token fb (str "x") [] (S n)); try done.
    - simpl. by rewrite Hin.
    - simpl. rewrite Hin. simpl. lia.
    - by repeat constructor.
    - simpl. lia. }
  destruct (intern_spec fc (str "x") tbl (S n)) as (x & fd & l & tbl' & Hi & Hfd & Ht' & Hx & Hkeep).
  { simpl. by apply atom_table_ext. }
  { simpl. by apply allocated_ext. }
  { done. }
  assert (heap fd = (heap f ++ [CPair (AtomPush f) None;
            CObj (mkObj None None None (Some (length (heap f))) None None TagPair)]) ++ l)
    as Hh by (by rewrite Hfd).
  pose (s2 := Some (S (length (heap fd)))).
  pose (fe := grow fd (CPair x s1)
                (mkObj None None None (Some (length (heap fd))) None None TagPair)).
  pose (s3 := Some (S (length (heap fe)))).
  pose (ff := grow fe (CPair (AtomQuote f) s2)
                (mkObj None None None (Some (length (heap fe))) None None TagPair)).
  pose (fg := set_readStack s3 ff).
  assert (is_pair (heap fg) s3 (AtomQuote f) s2) as Hp3 by apply is_pair_new.
  assert (is_pair (heap fg) s2 x s1) as Hp2 by apply is_pair_ext, is_pair_new.
  assert (is_pair (heap fg) s1 (AtomPush f) None) as Hp1.
  { simpl. rewrite Hh. apply is_pair_ext, is_pair_ext, is_pair_ext, is_pair_new. }
  assert (AtomQuote fd = AtomQuote f /\ AtomPush fd = AtomPush f /\ nil_ fd = nil_ f /\
          input fd = input f /\ pos fd = 2 /\ readStack fd = None) as (Eq & Epu & Enl & Ein & Epos & Ers).
  { rewrite Hfd. simpl. done. }
  exists x, (set_readStack s2 fg), (set_readStack s1 fg), (set_readStack None fg), tbl'.
  split.
  { rewrite Read_unfold. unfold bind at 1, gets. rewrite Hrs. simpl.
    rewrite (bind_Ok _ _ _ _ _ (skipWhite_stop f n _ (peek_at _ _ _ Hd) eq_refl)).
    rewrite (bind_Ok _ _ _ _ _ (peek_at _ _ _ Hd)). simpl.
    rewrite (bind_Ok _ _ _ _ _ (advance_ok _ _ _ Hd eq_refl)). rewrite Hpos.
    unfold bind at 1, gets.
    rewrite (bind_Ok _ _ _ _ _ (NewPair_ok _ _ _)).
    change (grow (set_pos 1 f) _ _) with fb.
    rewrite (bind_Ok _ _ _ _ _ (eq_trans Hscalar Hi)).
    rewrite (bind_Ok _ _ _ _ _ (NewPair_ok _ _ _)).
    unfold bind at 1, gets.
    rewrite (bind_Ok _ _ _ _ _ (NewPair_ok _ _ _)).
    unfold bind at 1, modify.
    change (AtomQuote (grow fd _ _)) with (AtomQuote fd). rewrite Eq.
    by apply (Read_queue fg n s3 (AtomQuote f) s2). }
  split; [exact (Read_queue (set_readStack s2 fg) _ s2 x s1 eq_refl ltac:(done) Hp2)|].
  split; [exact (Read_queue (set_readStack s1 fg) _ s1 _ None eq_refl ltac:(done) Hp1)|].
  split; [simpl; rewrite Enl; by apply atom_table_ext, atom_table_ext|].
  split; [by apply Hkeep|]. split; [done|]. split; [by apply Hkeep|].
  split; [done|]. split; [done|]. split; [done|].
  split; [done|]. split; [done|]. split; [done|].
  apply Read_end; simpl; [done|]. by rewrite Epos, Ein, Hin.
Qed.

Lemma Read_push_shortcut_witness :
  exists x f1 f2 f3 tbl',
    Read 30 (initial_on "^x") = Ok (AtomQuote (initial_on "^x")) f1 /\
    Read 30 f1 = Ok x f2 /\
    Read 30 f2 = Ok (AtomPush (initial_on "^x")) f3 /\
    atom_table (heap f3) (nil_ f3) (internedAtoms f3) tbl' /\
    lookup_atom (str "quote") tbl' = Some (AtomQuote (initial_on "^x")) /\
    lookup_atom (str "x") tbl' = Some x /\
    lookup_atom (str "push") tbl' = Some (AtomPush (initial_on "^x")) /\
    pos f1 = 2 /\ input f1 = input (initial_on "^x") /\ readStack f1 <> None /\
    f2 = set_readStack (readStack f2) f1 /\ readStack f2 <> None /\
    f3 = set_readStack None f1 /\
    Read 30 f3 = Panic (FAIL "End of input: could not read()").
Proof.
  apply (Read_push_shortcut (initial_on "^x") initial_table 30).
  - reflexivity.
  - reflexivity.
  - reflexivity.
  - apply initial_table_ok.
  - by_eval.
  - by_eval.
  - by_eval.
  - by_eval.
Defined.

(** * Decimal numbers: printing and parsing *)

Lemma digit_char_value d :
  (0 <= d < 10)%Z ->
  digit_value (digit_char d) = Some d /\ isPunctuation (digit_char d) = false /\
  byte_eq (digit_char d) "+" = false /\ byte_eq (digit_char d) "-" = false.
Proof.
  intros H.
  assert (d = 0 \/ d = 1 \/ d = 2 \/ d = 3 \/ d = 4 \/ d = 5 \/ d = 6 \/ d = 7 \/
          d = 8 \/ d = 9)%Z as Hd by lia.
  repeat (destruct Hd as [-> | Hd]; [by vm_compute|]). subst. by vm_compute.
Qed.

Lemma format_digits_parse fuel : forall n acc,
  (0 <= n < 10 ^ Z.of_nat fuel)%Z ->
  exists k, (0 <= k)%Z /\ forall a,
    parse_digits a (format_digits 10 fuel n acc) = parse_digits (a * 10 ^ k + n) acc.
Proof.
  induction fuel as [|fuel IH]; intros n acc Hn.
  { exists 0%Z. split; [lia|]. intros a. simpl in *. f_equal. lia. }
  simpl format_digits. destruct (Z.ltb_spec n 10) as [Hlt|Hge].
  - exists 1%Z. split; [lia|]. intros a. simpl.
    rewrite Z.mod_small by lia.
    destruct (digit_char_value n) as (-> & _); [lia|]. done.
  - destruct (IH (n / 10)%Z (digit_char (n mod 10) :: acc)) as (k & Hk & E).
    { split; [apply Z.div_pos; lia|].
      apply Z.div_lt_upper_bound; [lia|].
      rewrite Nat2Z.inj_succ, Z.pow_succ_r in Hn by lia. lia. }
    exists (k + 1)%Z. split; [lia|]. intros a. rewrite E. simpl.
    destruct (digit_char_value (n mod 10)) as (-> & _).
    { apply Z.mod_pos_bound. lia. }
    f_equal. rewrite Z.pow_add_r by lia.
    pose proof (Z.div_mod n 10). lia.
Qed.

Lemma format_digits_bytes fuel : forall n acc,
  (0 <= n)%Z -> 0 < fuel ->
  exists c t, format_digits 10 fuel n acc = c :: t ++ acc /\
              token_bytes (c :: t) /\
              byte_eq c "+" = false /\ byte_eq c "-" = false.
Proof.
  induction fuel as [|fuel IH]; intros n acc Hn Hf; [lia|].
  simpl format_digits. destruct (Z.ltb_spec n 10) as [Hlt|Hge].
  - exists (digit_char (n mod 10)), []. rewrite Z.mod_small by lia.
    destruct (digit_char_value n) as (_ & Hp & H1 & H2); [lia|].
    split; [done|]. split; [by repeat constructor|]. done.
  - destruct fuel as [|fuel].
    { simpl. exists (digit_char (n mod 10)), [].
      destruct (digit_char_value (n mod 10)) as (_ & Hp & H1 & H2).
      { apply Z.mod_pos_bound. lia. }
      split; [done|]. split; [by repeat constructor|]. done. }
    destruct (IH (n / 10)%Z (digit_char (n mod 10) :: acc)) as (c & t & E & Ht & H1 & H2).
    { apply Z.div_pos; lia. }
    { lia. }
    exists c, (t ++ [digit_char (n mod 10)]). rewrite E.
    split; [by rewrite <- app_assoc|]. split; [|done].
    unfold token_bytes in *. rewrite app_comm_cons. apply Forall_app. split; [done|].
    constructor; [|done].
    apply digit_char_value, Z.mod_pos_bound. lia.
Qed.

Lemma parseInt64_FormatInt n : in_int64 n -> parseInt64 (FormatInt n) = Some n.
Proof.
  unfold in_int64, FormatInt. intros Hn.
  assert (2 ^ 63 < 10 ^ Z.of_nat 20)%Z as Hb by (by vm_compute).
  destruct (Z.ltb_spec n 0) as [Hneg|Hpos].
  - destruct (format_digits_bytes 20 (- n) []) as (c & t & E & _); [lia..|].
    destruct (format_digits_parse 20 (- n) []) as (k & Hk & P); [lia|].
    specialize (P 0%Z). rewrite Z.mul_0_l, Z.add_0_l in P.
    remember (format_digits 10 20 (- n) []) as ds eqn:Hds.
    rewrite app_nil_r in E.
    unfold parseInt64.
    change (byte_eq "-" "-") with true. change (byte_eq "-" "+") with false.
    cbv beta iota zeta. simpl orb. cbv iota.
    unfold parseUint. rewrite E at 1. rewrite P. simpl.
    destruct (Z.leb_spec (- n) (2 ^ 63)); [|lia]. f_equal. lia.
  - destruct (format_digits_bytes 20 n []) as (c & t & E & _ & H1 & H2); [lia..|].
    destruct (format_digits_parse 20 n []) as (k & Hk & P); [lia|].
    specialize (P 0%Z). rewrite Z.mul_0_l, Z.add_0_l in P.
    remember (format_digits 10 20 n []) as ds eqn:Hds.
    rewrite app_nil_r in E.
    unfold parseInt64. rewrite E. cbv beta iota zeta. rewrite H1, H2.
    simpl orb. cbv iota. unfold parseUint. rewrite <- E, P. simpl.
    destruct (Z.ltb_spec n (2 ^ 63)); [done|lia].
Qed.

Lemma FormatInt_bytes n :
  exists c t, FormatInt n = c :: t /\ token_bytes (c :: t).
Proof.
  unfold FormatInt. destruct (Z.ltb_spec n 0) as [Hneg|Hpos].
  - destruct (format_digits_bytes 20 (- n) []) as (c & t & E & Ht & _); [lia..|].
    rewrite app_nil_r in E. rewrite E. eexists _, _. split; [done|].
    constructor; [by vm_compute|done].
  - destruct (format_digits_bytes 20 n []) as (c & t & E & Ht & _); [lia..|].
    rewrite app_nil_r in E. rewrite E. eauto.
Qed.

Lemma parse_digits_nonneg s : forall a n,
  (0 <= a)%Z -> parse_digits a s = Some n -> (0 <= n)%Z.
Proof.
  induction s as [|c s IH]; intros a n Ha; simpl.
  - by intros [= <-].
  - unfold digit_value. destruct (_ && _); [|done]. apply IH. lia.
Qed.

Lemma parseInt64_range s n : parseInt64 s = Some n -> in_int64 n.
Proof.
  unfold parseInt64, in_int64. destruct s as [|c s]; [done|].
  destruct (parseUint _) as [un|] eqn:E; [|done].
  assert (0 <= un)%Z as Hun.
  { unfold parseUint in E.
    destruct (if byte_eq c "+" || byte_eq c "-" then s else c :: s); [done|].
    by eapply (parse_digits_nonneg _ 0%Z). }
  destruct (byte_eq c "-").
  - destruct (Z.leb_spec un (2 ^ 63)); [|done]. intros [= <-]. lia.
  - destruct (Z.ltb_spec un (2 ^ 63)); [|done]. intros [= <-]. lia.
Qed.

(** * Printing a value *)

Lemma PrintRecurse_unfold fuel obj :
  PrintRecurse (S fuel) obj
  = (nl ← gets nil_;
     if ptr_eq obj nl then print (str "()")
     else
       o ← deref obj;
       match o_Tag o with
       | TagNil => ret tt
       | TagAtom => s ← get_Atom obj; print s
       | TagNumber => k ← get_Number obj; print (FormatInt k)
       | TagPair =>
           print (str "(");;
           pr ← get_Pair obj;
           PrintRecurse fuel (fst pr);;
           printListTail fuel (snd pr)
       | TagClosure =>
           print (str "CLOSURE<");;
           cl ← get_Closure obj;
           PrintRecurse fuel (fst cl);;
           print (str ", " ++ fmt_p (snd cl) ++ str ">")
       | TagPrimitive =>
           print (str "PRIM<" ++ fmt_p (o_Primitive o) ++ str ">")
       end).
Proof. reflexivity. Qed.

Lemma printListTail_unfold fuel obj :
  printListTail (S fuel) obj
  = (nl ← gets nil_;
     if ptr_eq obj nl then print (str ")")
     else
       b ← is_ obj TagPair;
       if b then
         print (str " ");;
         pr ← get_Pair obj;
         PrintRecurse fuel (fst pr);;
         printListTail fuel (snd pr)
       else
         print (str " . ");;
         PrintRecurse fuel obj;;
         print (str ")")).
Proof. reflexivity. Qed.

Lemma not_nil_of_tag f tbl p o :
  table_ok f tbl -> obj_at (heap f) p o -> o_Tag o <> TagNil -> p <> nil_ f.
Proof.
  intros [(o' & Ho' & Ht') _] Ho Ht ->.
  apply Ht. by rewrite (obj_at_inj _ _ _ _ Ho Ho').
Qed.

Lemma repr_not_nil f tbl p v :
  table_ok f tbl -> repr (heap f) (nil_ f) tbl p v -> v <> VNil -> p <> nil_ f.
Proof.
  intros Hok Hr Hv. destruct v as [|s|n|a d]; [done|..]; simpl in Hr.
  - destruct Hok as [Hnil Ht].
    destruct (atom_table_is_atom _ _ _ _ _ _ Ht Hr) as (o & q & Ho & Htag & _).
    eapply not_nil_of_tag; [by split|done|]. by rewrite Htag.
  - destruct Hr as (o & q & Ho & Htag & _).
    eapply not_nil_of_tag; [done..|]. by rewrite Htag.
  - destruct Hr as (pa & pd & (o & q & Ho & Htag & _) & _).
    eapply not_nil_of_tag; [done..|]. by rewrite Htag.
Qed.

Lemma print_scalar f tbl p v fuel :
  table_ok f tbl -> repr (heap f) (nil_ f) tbl p v ->
  match v with VAtom _ | VNum _ => True | _ => False end ->
  PrintRecurse (S fuel) p f = Ok tt (set_stdout (stdout f ++ show v) f) /\
  is_ p TagPair f = Ok false f.
Proof.
  intros Hok Hr Hv. pose proof (repr_not_nil f tbl p v Hok Hr) as Hn.
  rewrite PrintRecurse_unfold. unfold bind at 1, gets, ptr_eq.
  destruct v as [|s|n|a d]; try done; simpl in Hr;
    (rewrite bool_decide_eq_false_2 by (by apply Hn)).
  - destruct Hok as [_ Ht]. pose proof (atom_table_is_atom _ _ _ _ _ _ Ht Hr) as Ha.
    destruct Ha as (o & q & Ho & Htag & Hq & Hc).
    rewrite (bind_Ok _ _ _ _ _ (deref_ok _ _ _ Ho)), Htag.
    assert (is_atom (heap f) p s) as Ha by (exists o, q; eauto).
    rewrite (bind_Ok _ _ _ _ _ (get_Atom_ok _ _ _ Ha)).
    split; [done|]. by apply (is_atom_tag _ _ _ TagPair Ha).
  - pose proof Hr as (o & q & Ho & Htag & Hq & Hc).
    rewrite (bind_Ok _ _ _ _ _ (deref_ok _ _ _ Ho)), Htag.
    rewrite (bind_Ok _ _ _ _ _ (get_Number_ok _ _ _ Hr)).
    split; [done|]. by apply (is_number_tag _ _ _ TagPair Hr).
Qed.

Lemma print_value v : forall f tbl p fuel,
  table_ok f tbl -> repr (heap f) (nil_ f) tbl p v -> size v <= fuel ->
  PrintRecurse fuel p f = Ok tt (set_stdout (stdout f ++ show v) f) /\
  printListTail fuel p f = Ok tt (set_stdout (stdout f ++ show_tail v) f).
Proof.
  induction v as [|s|n|a IHa d IHd]; intros f tbl p fuel Hok Hr Hf;
    (destruct fuel as [|fuel]; [simpl in Hf; lia|]).
  - simpl in Hr. subst p. rewrite PrintRecurse_unfold, printListTail_unfold.
    unfold bind, gets, ptr_eq. by rewrite bool_decide_eq_true_2.
  - destruct fuel as [|fuel]; [simpl in Hf; lia|].
    destruct (print_scalar f tbl p (VAtom s) (S fuel) Hok Hr I) as [HP Hi].
    split; [done|].
    rewrite printListTail_unfold. unfold bind at 1, gets, ptr_eq.
    rewrite bool_decide_eq_false_2 by (by eapply repr_not_nil).
    rewrite (bind_Ok _ _ _ _ _ Hi). unfold bind at 1, print at 1, modify.
    destruct (print_scalar (set_stdout (stdout f ++ str " . ") f) tbl p (VAtom s) fuel Hok Hr I)
      as [HP' _].
    rewrite (bind_Ok _ _ _ _ _ HP'). unfold print, modify. simpl.
    by rewrite <- !app_assoc.
  - destruct fuel as [|fuel]; [simpl in Hf; lia|].
    destruct (print_scalar f tbl p (VNum n) (S fuel) Hok Hr I) as [HP Hi].
    split; [done|].
    rewrite printListTail_unfold. unfold bind at 1, gets, ptr_eq.
    rewrite bool_decide_eq_false_2 by (by eapply repr_not_nil).
    rewrite (bind_Ok _ _ _ _ _ Hi). unfold bind at 1, print at 1, modify.
    destruct (print_scalar (set_stdout (stdout f ++ str " . ") f) tbl p (VNum n) fuel Hok Hr I)
      as [HP' _].
    rewrite (bind_Ok _ _ _ _ _ HP'). unfold print, modify. simpl.
    by rewrite <- !app_assoc.
  - pose proof (repr_not_nil f tbl p _ Hok Hr) as Hn.
    destruct Hr as (pa & pd & Hp & Hra & Hrd). simpl in Hf.
    pose proof Hp as (o & q & Ho & Htag & Hq & Hc).
    assert (forall pre,
      (pr ← get_Pair p; PrintRecurse fuel (fst pr);; printListTail fuel (snd pr))
        (set_stdout (stdout f ++ pre) f)
      = Ok tt (set_stdout (stdout f ++ pre ++ show a ++ show_tail d) f)) as Hbody.
    { intros pre.
      rewrite (bind_Ok _ _ _ _ _ (get_Pair_ok (set_stdout _ f) _ _ _ Hp)). simpl.
      destruct (IHa (set_stdout (stdout f ++ pre) f) tbl pa fuel Hok Hra) as [Ha _]; [lia|].
      rewrite (bind_Ok _ _ _ _ _ Ha).
      destruct (IHd (set_stdout (stdout (set_stdout (stdout f ++ pre) f) ++ show a)
                       (set_stdout (stdout f ++ pre) f)) tbl pd fuel Hok Hrd) as [_ Hd]; [lia|].
      rewrite Hd. simpl. by rewrite <- !app_assoc. }
    split.
    + rewrite PrintRecurse_unfold. unfold bind at 1, gets, ptr_eq.
      rewrite bool_decide_eq_false_2 by (by apply Hn).
      rewrite (bind_Ok _ _ _ _ _ (deref_ok _ _ _ Ho)), Htag.
      unfold bind at 1, print at 1, modify. apply (Hbody (str "(")).
    + rewrite printListTail_unfold. unfold bind at 1, gets, ptr_eq.
      rewrite bool_decide_eq_false_2 by (by apply Hn).
      rewrite (bind_Ok _ _ _ _ _ (is_pair_tag _ _ _ _ TagPair Hp)).
      rewrite bool_decide_eq_true_2 by done.
      unfold bind at 1, print at 1, modify. apply (Hbody (str " ")).
Qed.

(** * Reading a printed value back *)

Lemma moved_moved f n l m k : moved (moved f n l) m k = moved f (n + m) (l ++ k).
Proof. destruct f. unfold moved, set_pos, set_heap. simpl. f_equal; [lia|by rewrite app_assoc]. Qed.

Lemma moved_0_nil f : moved f 0 [] = f.
Proof. destruct f. unfold moved, set_pos, set_heap. simpl. by rewrite Nat.add_0_r, app_nil_r. Qed.

Lemma not_punct c :
  isPunctuation c = false ->
  byte_eq c NUL = false /\ isWhite c = false /\ isDirective c = false /\
  byte_eq c "(" = false /\ byte_eq c ")" = false /\ byte_eq c ";" = false.
Proof.
  unfold isPunctuation. intros H.
  repeat (apply orb_false_iff in H as [H ?]). done.
Qed.

Lemma repr_ext h l nl tbl p v : repr h nl tbl p v -> repr (h ++ l) nl tbl p v.
Proof.
  revert p. induction v as [|s|n|a IHa d IHd]; intros p; simpl; try done.
  - apply is_number_ext.
  - intros (pa & pd & Hp & Ha & Hd). exists pa, pd.
    split; [by apply is_pair_ext|]. split; [by apply IHa|by apply IHd].
Qed.

Lemma repr_interned h nl tbl p v : repr h nl tbl p v -> interned tbl v.
Proof.
  revert p. induction v as [|s|n|a IHa d IHd]; intros p; simpl; try done.
  - eauto.
  - intros (pa & pd & Hp & Ha & Hd). split; [by eapply IHa|by eapply IHd].
Qed.

Lemma table_ok_moved f tbl n l : table_ok f tbl -> table_ok (moved f n l) tbl.
Proof.
  intros [(o & Ho & Ht) Ha]. split.
  - exists o. split; [by apply obj_at_ext|done].
  - by apply atom_table_ext.
Qed.

Lemma table_ok_allocated f tbl : table_ok f tbl -> allocated (heap f) (nil_ f).
Proof. intros [(o & Ho & _) _]. by eapply obj_at_allocated. Qed.

Lemma drop_after (l : gostring) n x y : drop n l = x ++ y -> drop (n + length x) l = y.
Proof. intros H. rewrite <- drop_drop, H. by rewrite drop_app_length. Qed.

Lemma drop_length_le (l : gostring) n x y : drop n l = x ++ y -> n <= length l -> n + length x <= length l.
Proof.
  intros H Hn. apply (f_equal length) in H. rewrite length_drop, length_app in H. lia.
Qed.

Lemma show_head v :
  readable0 v -> nonempty v ->
  exists c t, show v = c :: t /\
    match v with
    | VNil | VPair _ _ => c = "("%char
    | _ => isPunctuation c = false
    end.
Proof.
  destruct v as [|s|n|a d]; simpl; intros Hr Hn.
  - by eexists _, _.
  - destruct s as [|c s]; [done|]. destruct Hr as [Ht _].
    apply Forall_cons in Ht as [Hc _]. by eexists _, _.
  - destruct (FormatInt_bytes n) as (c & t & -> & Ht).
    apply Forall_cons in Ht as [Hc _]. by eexists _, _.
  - by eexists _, _.
Qed.

Lemma show_head_stops v :
  readable0 v -> nonempty v ->
  exists c t, show v = c :: t /\ stops_skip c = true /\ byte_eq c ")" = false.
Proof.
  intros Hr Hn. destruct (show_head v Hr Hn) as (c & t & E & Hc). exists c, t.
  split; [done|]. destruct v; subst; try done;
    apply not_punct in Hc as (H1 & H2 & H3 & H4 & H5 & H6);
    unfold stops_skip; by rewrite H1, H2, H5, H6.
Qed.

Lemma show_tail_head d :
  is_list d -> exists c t, show_tail d = c :: t /\ isPunctuation c = true.
Proof. destruct d; try done; intros _; by eexists _, _. Qed.

Ltac queue_empty Hrs :=
  unfold bind at 1, gets; rewrite Hrs;
  change (ptr_eq None None) with true; cbn [negb].

Lemma Read_at_scalar f c t fuel :
  readStack f = None ->
  drop (pos f) (input f) = c :: t -> isPunctuation c = false ->
  Read (S (S fuel)) f = readScalar (S fuel) f.
Proof.
  intros Hrs Hd Hc. apply not_punct in Hc as (H1 & H2 & H3 & H4 & H5 & H6).
  rewrite Read_unfold. queue_empty Hrs.
  assert (stops_skip c = true) as Hs by (unfold stops_skip; by rewrite H1, H2, H6).
  rewrite (bind_Ok _ _ _ _ _ (skipWhite_stop f fuel _ (peek_at _ _ _ Hd) Hs)).
  rewrite (bind_Ok _ _ _ _ _ (peek_at _ _ _ Hd)). rewrite H1.
  unfold isDirective in H3. repeat (apply orb_false_iff in H3 as [H3 ?]).
  by rewrite H3, H0, H, H4.
Qed.

Lemma Read_at_open f t fuel :
  readStack f = None ->
  drop (pos f) (input f) = "("%char :: t ->
  Read (S (S fuel)) f = readList (S fuel) (set_pos (S (pos f)) f).
Proof.
  intros Hrs Hd.
  rewrite Read_unfold. queue_empty Hrs.
  rewrite (bind_Ok _ _ _ _ _ (skipWhite_stop f fuel _ (peek_at _ _ _ Hd) eq_refl)).
  rewrite (bind_Ok _ _ _ _ _ (peek_at _ _ _ Hd)).
  change (byte_eq "(" NUL) with false. change (byte_eq "(" "'") with false.
  change (byte_eq "(" "^") with false. change (byte_eq "(" "$") with false.
  change (byte_eq "(" "(") with true. cbv iota.
  by rewrite (bind_Ok _ _ _ _ _ (advance_ok _ _ _ Hd eq_refl)).
Qed.

Lemma readList_at_close f t fuel :
  readStack f = None ->
  drop (pos f) (input f) = ")"%char :: t ->
  readList (S (S fuel)) f = Ok (nil_ f) (set_pos (S (pos f)) f).
Proof.
  intros Hrs Hd.
  rewrite readList_unfold. queue_empty Hrs.
  unfold bind at 1. unfold bind at 1.
  rewrite (skipWhite_stop f fuel _ (peek_at _ _ _ Hd) eq_refl).
  unfold bind at 1. rewrite (peek_at _ _ _ Hd).
  change (byte_eq ")" ")") with true. cbv iota.
  by rewrite (bind_Ok _ _ _ _ _ (advance_ok _ _ _ Hd eq_refl)).
Qed.

Lemma readList_at_element f c t fuel :
  readStack f = None ->
  drop (pos f) (input f) = c :: t -> stops_skip c = true -> byte_eq c ")" = false ->
  readList (S (S fuel)) f
  = (first ← Read (S fuel); second ← readList (S fuel); NewPair first second) f.
Proof.
  intros Hrs Hd Hs Hc.
  rewrite readList_unfold. queue_empty Hrs.
  unfold bind at 1. unfold bind at 1.
  rewrite (skipWhite_stop f fuel _ (peek_at _ _ _ Hd) Hs).
  unfold bind at 1. rewrite (peek_at _ _ _ Hd), Hc. done.
Qed.

Lemma readList_at_space f c t fuel :
  readStack f = None ->
  drop (pos f) (input f) = " "%char :: c :: t -> stops_skip c = true -> byte_eq c ")" = false ->
  readList (S (S (S fuel))) f
  = (first ← Read (S (S fuel)); second ← readList (S (S fuel)); NewPair first second)
      (set_pos (S (pos f)) f).
Proof.
  intros Hrs Hd Hs Hc.
  assert (drop (pos (set_pos (S (pos f)) f)) (input (set_pos (S (pos f)) f)) = c :: t)
    as Hd' by (by eapply drop_next).
  rewrite readList_unfold. queue_empty Hrs.
  unfold bind at 1. unfold bind at 1.
  rewrite (skipWhite_white f _ _ _ Hd eq_refl).
  rewrite (skipWhite_stop _ fuel _ (peek_at _ _ _ Hd') Hs).
  unfold bind at 1. rewrite (peek_at _ _ _ Hd'), Hc. done.
Qed.

Lemma set_pos_moved f n : set_pos (pos f + n) f = moved f n [].
Proof. destruct f. unfold moved, set_pos, set_heap. simpl. by rewrite app_nil_r. Qed.

Lemma set_pos_S_moved f : set_pos (S (pos f)) f = moved f 1 [].
Proof. rewrite <- set_pos_moved. f_equal. lia. Qed.

Lemma grow_moved f c o : grow f c o = moved f 0 [c; CObj o].
Proof. destruct f. unfold moved, grow, set_pos, set_heap. simpl. by rewrite Nat.add_0_r. Qed.

Lemma read_scalar_value f tbl v rest fuel :
  table_ok f tbl -> readStack f = None -> pos f <= length (input f) ->
  match v with VAtom _ | VNum _ => True | _ => False end ->
  readable0 v -> nonempty v -> interned tbl v ->
  length tbl + length (input f) + 2 <= fuel ->
  drop (pos f) (input f) = show v ++ rest -> ends_token rest ->
  exists p f', Read fuel f = Ok p f' /\
    (exists l, f' = moved f (length (show v)) l) /\
    repr (heap f') (nil_ f) tbl p v.
Proof.
  intros Hok Hrs Hpos Hv Hr Hn Hi Hf Hd He.
  destruct (show_head v Hr Hn) as (c & t & Es & Hc).
  assert (isPunctuation c = false) as Hc' by (by destruct v).
  assert (token_bytes (show v)) as Htok.
  { destruct v as [|s|n|a d]; try done; simpl in *; [by destruct Hr|].
    destruct (FormatInt_bytes n) as (c' & t' & -> & Ht). done. }
  destruct fuel as [|[|fuel]]; [lia..|].
  rewrite (Read_at_scalar f c (t ++ rest) fuel Hrs); [|by rewrite Hd, Es|done].
  assert (length (show v) <= length (input f)) as Hlen.
  { pose proof (drop_length_le _ _ _ _ Hd Hpos). lia. }
  rewrite (readScalar_token f (show v) rest (S fuel) Hd Hpos Htok He); [|lia].
  rewrite set_pos_moved.
  destruct v as [|s|n|a d]; try done; simpl in *.
  - destruct Hr as [_ ->]. destruct Hi as [a Ha].
    exists a, (moved f (length s) []).
    split; [|split; [by eexists|done]].
    eapply intern_found; [| |done].
    + apply table_ok_moved, Hok.
    + lia.
  - rewrite (parseInt64_FormatInt n Hr), NewNumber_ok, grow_moved, moved_moved.
    rewrite Nat.add_0_r, app_nil_l.
    eexists _, _. split; [done|]. split; [by eexists|].
    simpl. rewrite !app_nil_r. apply is_number_new.
Qed.

Lemma read_value v : forall f tbl rest fuel,
  table_ok f tbl -> readStack f = None -> pos f <= length (input f) ->
  readable0 v -> nonempty v -> interned tbl v ->
  length tbl + length (input f) + 2 + size v <= fuel ->
  (drop (pos f) (input f) = show v ++ rest -> ends_token rest ->
   exists p f', Read fuel f = Ok p f' /\
     (exists l, f' = moved f (length (show v)) l) /\
     repr (heap f') (nil_ f) tbl p v) /\
  (is_list v -> drop (pos f) (input f) = show_tail v ++ rest ->
   exists p f', readList fuel f = Ok p f' /\
     (exists l, f' = moved f (length (show_tail v)) l) /\
     repr (heap f') (nil_ f) tbl p v).
Proof.
  induction v as [|s|n|a IHa d IHd]; intros f tbl rest fuel Hok Hrs Hpos Hr Hn Hi Hf.
  - (* nil *)
    simpl in Hf. destruct fuel as [|[|[|fuel]]]; [lia..|]. split.
    + intros Hd _. simpl in Hd.
      rewrite (Read_at_open f _ (S fuel) Hrs Hd).
      rewrite (readList_at_close (set_pos (S (pos f)) f) rest fuel Hrs);
        [|by eapply drop_next].
      eexists _, _. split; [done|]. split; [|done].
      exists []. simpl. rewrite <- set_pos_moved.
      change (set_pos (S (S (pos f))) f = set_pos (pos f + 2) f). f_equal. lia.
    + intros _ Hd. simpl in Hd.
      rewrite (readList_at_close f rest (S fuel) Hrs Hd).
      eexists _, _. split; [done|]. split; [|done].
      exists []. by rewrite set_pos_S_moved.
  - split; [|done]. intros Hd He.
    eapply (read_scalar_value f tbl (VAtom s)); try done. simpl in Hf. lia.
  - split; [|done]. intros Hd He.
    eapply (read_scalar_value f tbl (VNum n)); try done. simpl in Hf. lia.
  - (* pair *)
    simpl in Hr, Hn, Hi, Hf. destruct Hr as (Hra & Hrd & Hld).
    destruct Hn as [Hna Hnd]. destruct Hi as [Hia Hid].
    destruct (show_head_stops a Hra Hna) as (c & t & Ea & Hstop & Hclose).
    destruct (show_tail_head d Hld) as (c' & t' & Et & Hc').
    assert (forall f1 fuel1,
      table_ok f1 tbl -> readStack f1 = None -> pos f1 <= length (input f1) ->
      nil_ f1 = nil_ f -> length (input f1) = length (input f) ->
      length tbl + length (input f) + 2 + size a + size d <= fuel1 ->
      drop (pos f1) (input f1) = show a ++ show_tail d ++ rest ->
      exists p f', (first ← Read fuel1; second ← readList fuel1; NewPair first second) f1
                   = Ok p f' /\
        (exists l, f' = moved f1 (length (show a ++ show_tail d)) l) /\
        repr (heap f') (nil_ f) tbl p (VPair a d)) as Hbody.
    { intros f1 fuel1 Hok1 Hrs1 Hpos1 Hnl1 Hin1 Hf1 Hd1.
      destruct (IHa f1 tbl (show_tail d ++ rest) fuel1 Hok1 Hrs1 Hpos1 Hra Hna Hia)
        as [HRa _]; [lia|].
      destruct HRa as (pa & f2 & ERa & [la Ef2] & Hrepa); [done|by rewrite Et|].
      rewrite (bind_Ok _ _ _ _ _ ERa).
      assert (table_ok f2 tbl) as Hok2 by (rewrite Ef2; by apply table_ok_moved).
      assert (readStack f2 = None) as Hrs2 by (by rewrite Ef2).
      assert (drop (pos f2) (input f2) = show_tail d ++ rest) as Hd2.
      { rewrite Ef2. simpl. by apply drop_after. }
      assert (pos f2 <= length (input f2)) as Hpos2.
      { rewrite Ef2. simpl. by eapply drop_length_le. }
      destruct (IHd f2 tbl rest fuel1 Hok2 Hrs2 Hpos2 Hrd Hnd Hid) as [_ HRd].
      { rewrite Ef2. simpl. lia. }
      destruct (HRd Hld Hd2) as (pd & f3 & ERd & [ld Ef3] & Hrepd).
      rewrite (bind_Ok _ _ _ _ _ ERd), NewPair_ok, grow_moved.
      eexists _, _. split; [done|]. split.
      - rewrite Ef3, Ef2, !moved_moved. rewrite length_app, Nat.add_0_r.
        eexists. reflexivity.
      - exists pa, pd. simpl. split; [apply is_pair_new|].
        rewrite Hnl1 in Hrepa. assert (nil_ f2 = nil_ f) as E2 by (by rewrite Ef2).
        rewrite E2 in Hrepd. split.
        + apply repr_ext. rewrite Ef3. simpl. by apply repr_ext.
        + by apply repr_ext. }
    destruct fuel as [|[|[|fuel]]]; [lia..|]. split.
    + intros Hd _. simpl in Hd. rewrite <- app_assoc in Hd.
      rewrite (Read_at_open f _ (S fuel) Hrs Hd).
      assert (drop (pos (set_pos (S (pos f)) f)) (input (set_pos (S (pos f)) f))
              = show a ++ show_tail d ++ rest) as Hd1 by (by apply (drop_next _ _ _ _ Hd)).
      rewrite (readList_at_element (set_pos (S (pos f)) f) c (t ++ show_tail d ++ rest) fuel Hrs);
        [|by rewrite Hd1, Ea|done..].
      destruct (Hbody (set_pos (S (pos f)) f) (S fuel)) as (p & f' & E & [l Ef'] & Hrep);
        try done.
      { simpl. by eapply drop_pos_le. }
      { lia. }
      exists p, f'. split; [done|]. split; [|done].
      rewrite Ef', set_pos_S_moved, moved_moved. by eexists.
    + intros _ Hd. simpl in Hd. rewrite <- app_assoc in Hd.
      assert (drop (pos (set_pos (S (pos f)) f)) (input (set_pos (S (pos f)) f))
              = show a ++ show_tail d ++ rest) as Hd1 by (by apply (drop_next _ _ _ _ Hd)).
      rewrite (readList_at_space f c (t ++ show_tail d ++ rest) fuel Hrs);
        [|by rewrite Hd, Ea|done..].
      destruct (Hbody (set_pos (S (pos f)) f) (S (S fuel))) as (p & f' & E & [l Ef'] & Hrep);
        try done.
      { simpl. by eapply drop_pos_le. }
      { lia. }
      exists p, f'. split; [done|]. split; [|done].
      rewrite Ef', set_pos_S_moved, moved_moved. by eexists.
Qed.

(** * Equality of what was printed and what is read back *)

Lemma ObjEqual_same f p o : obj_at (heap f) p o -> ObjEqual p p f = Ok true f.
Proof.
  intros Ho. unfold ObjEqual.
  rewrite (bind_Ok _ _ _ _ _ (deref_ok _ _ _ Ho)).
  rewrite (bind_Ok _ _ _ _ _ (deref_ok _ _ _ Ho)).
  by rewrite bool_decide_eq_true_2.
Qed.

Lemma ObjEqual_numbers f p p' n :
  is_number (heap f) p n -> is_number (heap f) p' n -> ObjEqual p p' f = Ok true f.
Proof.
  intros Hp Hp'. unfold ObjEqual.
  pose proof Hp as (o & q & Ho & _). pose proof Hp' as (o' & q' & Ho' & _).
  rewrite (bind_Ok _ _ _ _ _ (deref_ok _ _ _ Ho)).
  rewrite (bind_Ok _ _ _ _ _ (deref_ok _ _ _ Ho')).
  destruct (bool_decide (o = o')); [done|].
  rewrite (bind_Ok _ _ _ _ _ (is_number_tag _ _ _ TagNumber Hp)).
  rewrite bool_decide_eq_true_2 by done. cbn [negb].
  rewrite (bind_Ok _ _ _ _ _ (is_number_tag _ _ _ TagNumber Hp')).
  rewrite bool_decide_eq_true_2 by done. cbn [negb].
  rewrite (bind_Ok _ _ _ _ _ (get_Number_ok _ _ _ Hp)).
  rewrite (bind_Ok _ _ _ _ _ (get_Number_ok _ _ _ Hp')).
  unfold ret. by rewrite Z.eqb_refl.
Qed.

Lemma repr_iso f tbl v : forall p p',
  table_ok f tbl ->
  repr (heap f) (nil_ f) tbl p v -> repr (heap f) (nil_ f) tbl p' v -> iso f p p'.
Proof.
  induction v as [|s|n|a IHa d IHd]; intros p p' Hok Hp Hp'; simpl in Hp, Hp'.
  - subst. constructor.
  - assert (p' = p) as -> by congruence.
    destruct Hok as [_ Ht]. pose proof (atom_table_is_atom _ _ _ _ _ _ Ht Hp) as Ha.
    apply (iso_atom f p p s Ha). destruct Ha as (o & q & Ho & _). by eapply ObjEqual_same.
  - apply (iso_number f p p' n Hp). by apply (ObjEqual_numbers f p p' n).
  - destruct Hp as (pa & pd & Hpair & Hra & Hrd).
    destruct Hp' as (pa' & pd' & Hpair' & Hra' & Hrd').
    eapply iso_pair; eauto.
Qed.

(** Printing a value and reading the text back, in a state whose
    read-ahead queue is empty. *)
Lemma roundtrip_value f tbl p v rest fuel :
  table_ok f tbl -> readStack f = None ->
  repr (heap f) (nil_ f) tbl p v -> readable0 v -> nonempty v ->
  ends_token rest ->
  length tbl + length (show v ++ rest) + 2 + size v <= fuel ->
  exists f1 f2 p',
    PrintRecurse fuel p f = Ok tt f1 /\
    stdout f1 = stdout f ++ show v /\
    (SetReader (show v ++ rest);; Read fuel) f1 = Ok p' f2 /\
    iso f2 p p'.
Proof.
  intros Hok Hrs Hrep Hr Hn He Hf.
  destruct (print_value v f tbl p fuel Hok Hrep) as [HP _]; [lia|].
  pose (f1 := set_stdout (stdout f ++ show v) f).
  pose (f1' := set_pos 0 (set_input (show v ++ rest) f1)).
  destruct (read_value v f1' tbl rest fuel) as [HR _]; try done.
  { simpl. lia. }
  { by eapply repr_interned. }
  destruct HR as (p' & f2 & ER & [l Ef2] & Hrep'); [done..|].
  exists f1, f2, p'. split; [done|]. split; [done|]. split; [done|].
  apply (repr_iso f2 tbl v).
  - rewrite Ef2. by apply (table_ok_moved f1').
  - rewrite Ef2. simpl. by apply repr_ext.
  - by rewrite Ef2 in Hrep' |- *.
Qed.

(** * What Read produces *)

Lemma intern_loop_cases f s tbl : forall p fuel,
  atom_table (heap f) (nil_ f) p tbl ->
  intern_loop fuel s p f = Ok (lookup_atom s tbl) f \/ intern_loop fuel s p f = OutOfFuel.
Proof.
  induction tbl as [|[a s'] tbl IH]; intros p fuel Ht.
  - destruct (decide (0 < fuel)); [left; by apply intern_loop_ok|].
    right. by replace fuel with 0 by lia.
  - destruct fuel as [|fuel]; [by right|]. simpl in Ht.
    destruct Ht as (Hn & rest & Hp & Ha & Ht).
    destruct (IH rest fuel Ht) as [E|E].
    + left. simpl. unfold bind at 1, gets, ptr_eq. rewrite bool_decide_eq_false_2 by done.
      destruct Hp as (o & q & Ho & Htag & Hq & Hc).
      rewrite <- Htag, (bind_Ok _ _ _ _ _ (assertTag_ok _ _ _ _ Ho)).
      assert (is_pair (heap f) p a rest) as Hp by (exists o, q; eauto).
      rewrite (bind_Ok _ _ _ _ _ (get_Pair_ok _ _ _ _ Hp)). simpl.
      destruct Ha as (oa & qa & Hoa & Htaga & Hqa & Hca).
      rewrite <- Htaga, (bind_Ok _ _ _ _ _ (assertTag_ok _ _ _ _ Hoa)).
      assert (is_atom (heap f) a s') as Ha by (exists oa, qa; eauto).
      rewrite (bind_Ok _ _ _ _ _ (get_Atom_ok _ _ _ Ha)).
      rewrite text_test. unfold lookup_atom. simpl.
      case_bool_decide; simpl; [done|]. exact E.
    + destruct (decide (s = s')) as [->|Hne].
      * left. simpl. unfold bind at 1, gets, ptr_eq. rewrite bool_decide_eq_false_2 by done.
        destruct Hp as (o & q & Ho & Htag & Hq & Hc).
        rewrite <- Htag, (bind_Ok _ _ _ _ _ (assertTag_ok _ _ _ _ Ho)).
        assert (is_pair (heap f) p a rest) as Hp by (exists o, q; eauto).
        rewrite (bind_Ok _ _ _ _ _ (get_Pair_ok _ _ _ _ Hp)). simpl.
        destruct Ha as (oa & qa & Hoa & Htaga & Hqa & Hca).
        rewrite <- Htaga, (bind_Ok _ _ _ _ _ (assertTag_ok _ _ _ _ Hoa)).
        assert (is_atom (heap f) a s') as Ha by (exists oa, qa; eauto).
        rewrite (bind_Ok _ _ _ _ _ (get_Atom_ok _ _ _ Ha)).
        rewrite text_test, lookup_atom_cons_eq. by rewrite bool_decide_eq_true_2.
      * right. simpl. unfold bind at 1, gets, ptr_eq. rewrite bool_decide_eq_false_2 by done.
        destruct Hp as (o & q & Ho & Htag & Hq & Hc).
        rewrite <- Htag, (bind_Ok _ _ _ _ _ (assertTag_ok _ _ _ _ Ho)).
        assert (is_pair (heap f) p a rest) as Hp by (exists o, q; eauto).
        rewrite (bind_Ok _ _ _ _ _ (get_Pair_ok _ _ _ _ Hp)). simpl.
        destruct Ha as (oa & qa & Hoa & Htaga & Hqa & Hca).
        rewrite <- Htaga, (bind_Ok _ _ _ _ _ (assertTag_ok _ _ _ _ Hoa)).
        assert (is_atom (heap f) a s') as Ha by (exists oa, qa; eauto).
        rewrite (bind_Ok _ _ _ _ _ (get_Atom_ok _ _ _ Ha)).
        rewrite text_test. by rewrite bool_decide_eq_false_2.
Qed.

Lemma intern_inv f s tbl fuel a f' :
  table_ok f tbl -> intern fuel s f = Ok a f' ->
  exists l tbl',
    f' = set_internedAtoms (internedAtoms f') (set_heap (heap f ++ l) f) /\
    table_ok f' tbl' /\
    lookup_atom s tbl' = Some a /\
    (forall s' a', lookup_atom s' tbl = Some a' -> lookup_atom s' tbl' = Some a').
Proof.
  intros Hok Hi. pose proof Hok as [Hnil Ht].
  pose proof (table_ok_allocated _ _ Hok) as Hal.
  unfold intern in Hi. unfold bind at 1, gets in Hi.
  unfold bind at 1 in Hi.
  destruct (intern_loop_cases f s tbl _ fuel Ht) as [E|E]; rewrite E in Hi; [|done].
  destruct (lookup_atom s tbl) as [a0|] eqn:Hl.
  - injection Hi as <- <-. exists [], tbl. rewrite app_nil_r.
    split; [by destruct f|]. done.
  - rewrite (bind_Ok _ _ _ _ _ (NewAtom_ok _ _)) in Hi.
    unfold bind at 1, gets in Hi.
    rewrite (bind_Ok _ _ _ _ _ (NewPair_ok _ _ _)) in Hi.
    unfold bind, modify, ret in Hi. injection Hi as <- <-.
    eexists _, ((Some (S (length (heap f))), s) :: tbl).
    split; [|split; [|split]].
    + simpl. unfold grow, set_internedAtoms, set_heap. simpl.
      rewrite <- app_assoc. reflexivity.
    + pose proof (interned_new_table f s tbl Ht Hal) as Ht'.
      destruct Hnil as (o & Ho & Htag). split.
      * exists o. split; [|done]. simpl. rewrite <- app_assoc. by apply obj_at_ext.
      * simpl in Ht' |- *. rewrite length_app, <- app_assoc. simpl.
        by replace (length (heap f) + 2) with (S (S (length (heap f)))) by lia.
    + apply lookup_atom_cons_eq.
    + intros s' a' Hl'. rewrite lookup_atom_cons_ne; [done|]. congruence.
Qed.

Lemma peek_inv f c f' :
  peek f = Ok c f' ->
  f' = f /\ (byte_eq c NUL = true \/
             exists rest, drop (pos f) (input f) = c :: rest).
Proof.
  unfold peek. destruct (pos f =? length (input f)); [intros [= <- <-]; by eauto|].
  destruct (input f !! pos f) as [c'|] eqn:E; [|done]. intros [= <- <-].
  split; [done|]. right. exists (drop (S (pos f)) (input f)). by apply drop_S.
Qed.

Lemma advance_inv f f' :
  advance f = Ok tt f' ->
  f' = set_pos (S (pos f)) f /\ S (pos f) <= length (input f).
Proof.
  intros H. split; [by apply advance_frame|].
  unfold advance in H. unfold bind at 1 in H.
  destruct (peek f) as [c f1| |] eqn:Hp; [|done..].
  apply peek_inv in Hp as [-> [Hc|[rest Hd]]].
  - by rewrite Hc in H.
  - by eapply drop_pos_le.
Qed.

Lemma skipComment_loop_pos fuel : forall f b f',
  skipComment_loop fuel f = Ok b f' -> pos f <= length (input f) ->
  pos f' <= length (input f).
Proof.
  induction fuel as [|fuel IH]; intros f b f'; simpl; [done|].
  unfold bind at 1. destruct (peek f) as [c f1| |] eqn:Hp; try done.
  apply peek_frame in Hp as ->.
  destruct (byte_eq c NUL); [by intros [= _ <-]|].
  unfold bind at 1. destruct (advance f) as [[] f2| |] eqn:Ha; try done.
  apply advance_inv in Ha as [-> Hle].
  destruct (byte_eq c "010"); [by intros [= _ <-]|].
  intros H _. by apply (IH _ _ _ H).
Qed.

Lemma skipWhite_pos fuel : forall f f',
  skipWhiteAndComments fuel f = Ok tt f' -> pos f <= length (input f) ->
  pos f' <= length (input f).
Proof.
  induction fuel as [|fuel IH]; intros f f'; [done|].
  rewrite skipWhiteAndComments_unfold.
  unfold bind at 1. destruct (peek f) as [c f1| |] eqn:Hp; try done.
  apply peek_frame in Hp as ->.
  destruct (byte_eq c NUL); [by intros [= <-]|].
  destruct (isWhite c).
  { unfold bind at 1. destruct (advance f) as [[] f2| |] eqn:Ha; try done.
    apply advance_inv in Ha as [-> Hle]. intros H _. by apply (IH _ _ H). }
  destruct (byte_eq c ";"); [|by intros [= <-]].
  unfold bind at 1. destruct (advance f) as [[] f2| |] eqn:Ha; try done.
  apply advance_inv in Ha as [-> Hle].
  unfold bind at 1.
  destruct (skipComment_loop fuel _) as [more f3| |] eqn:Hc; try done.
  pose proof (skipComment_loop_pos _ _ _ _ Hc Hle) as Hle3.
  apply skipComment_loop_frame in Hc. destruct more.
  - assert (input f3 = input f) as Ein by (by rewrite Hc).
    intros H _. rewrite <- Ein. apply (IH _ _ H). by rewrite Ein.
  - by intros [= <-].
Qed.

Lemma readScalar_loop_inv fuel : forall f f',
  readScalar_loop fuel f = Ok tt f' -> pos f <= length (input f) ->
  f' = set_pos (pos f') f /\ pos f <= pos f' <= length (input f) /\
  token_bytes (take (pos f' - pos f) (drop (pos f) (input f))).
Proof.
  induction fuel as [|fuel IH]; intros f f'; [done|].
  rewrite readScalar_loop_unfold.
  unfold bind at 1. destruct (peek f) as [c f1| |] eqn:Hp; try done.
  apply peek_inv in Hp as [-> Hc].
  destruct (isPunctuation c) eqn:Hpunct.
  { intros [= <-] Hle. rewrite set_pos_id, Nat.sub_diag. split; [done|]. split; [lia|].
    constructor. }
  destruct Hc as [Hc|[rest Hd]].
  { apply not_punct in Hpunct as [Hz _]. congruence. }
  unfold bind at 1. destruct (advance f) as [[] f2| |] eqn:Ha; try done.
  apply advance_inv in Ha as [-> Hle']. intros H Hle.
  destruct (IH _ _ H Hle') as (E & Hpos & Htok). simpl in *.
  split; [by rewrite E|]. split; [lia|].
  rewrite Hd. replace (pos f' - pos f) with (S (pos f' - S (pos f))) by lia.
  simpl. constructor; [done|]. by rewrite (drop_next _ _ _ _ Hd) in Htok.
Qed.

Lemma later_refl f tbl : later f tbl f tbl.
Proof. split; [done|]. split; [|done]. exists []. by rewrite app_nil_r. Qed.

Lemma later_trans f1 t1 f2 t2 f3 t3 :
  later f1 t1 f2 t2 -> later f2 t2 f3 t3 -> later f1 t1 f3 t3.
Proof.
  intros (N1 & [l1 H1] & L1) (N2 & [l2 H2] & L2).
  split; [congruence|]. split; [|by eauto].
  exists (l1 ++ l2). by rewrite H2, H1, app_assoc.
Qed.

Lemma later_same f tbl f' :
  nil_ f' = nil_ f -> heap f' = heap f -> later f tbl f' tbl.
Proof. intros N H. split; [done|]. split; [|done]. exists []. by rewrite app_nil_r. Qed.

Lemma later_grow f tbl c o : later f tbl (grow f c o) tbl.
Proof. split; [done|]. split; [|done]. by eexists. Qed.

Lemma repr_later f tbl f' tbl' p v :
  later f tbl f' tbl' ->
  repr (heap f) (nil_ f) tbl p v -> repr (heap f') (nil_ f') tbl' p v.
Proof.
  intros (N & [l H] & L). rewrite N, H. clear N H.
  revert p. induction v as [|s|n|a IHa d IHd]; intros p; simpl; try done.
  - apply L.
  - apply is_number_ext.
  - intros (pa & pd & Hp & Ha & Hd). exists pa, pd.
    split; [by apply is_pair_ext|]. split; [by apply IHa|by apply IHd].
Qed.

Lemma queue_later f tbl f' tbl' q : forall rs,
  later f tbl f' tbl' ->
  queue (heap f) (nil_ f) tbl rs q -> queue (heap f') (nil_ f') tbl' rs q.
Proof.
  induction q as [|v q IH]; intros rs Hl; simpl; [done|].
  intros (Hn & x & rs' & Hp & Hr & Hrd & Hq). split; [done|].
  exists x, rs'. split; [|split; [|split]].
  - destruct Hl as (_ & [l ->] & _). by apply is_pair_ext.
  - by eapply repr_later.
  - done.
  - by apply IH.
Qed.

Lemma table_ok_grow f tbl c o : table_ok f tbl -> table_ok (grow f c o) tbl.
Proof. rewrite grow_moved. apply table_ok_moved. Qed.

(** The invariant survives a change that keeps the fields of the
    interpreter and lets the heap and the table grow. *)
Lemma reader_ok_later f tbl q f' tbl' :
  reader_ok f tbl q -> later f tbl f' tbl' -> table_ok f' tbl' ->
  AtomQuote f' = AtomQuote f -> AtomPush f' = AtomPush f -> AtomPop f' = AtomPop f ->
  readStack f' = readStack f -> pos f' <= length (input f') ->
  reader_ok f' tbl' q.
Proof.
  intros (Htab & Hq & Hpu & Hpo & Hqueue & Hpos) Hl Htab' Eq Epu Epo Ers Hpos'.
  split; [done|]. rewrite Eq, Epu, Epo, Ers.
  pose proof Hl as (_ & _ & L).
  split; [by apply L|]. split; [by apply L|]. split; [by apply L|].
  split; [by eapply queue_later|done].
Qed.

Lemma reader_ok_set_pos f tbl q n :
  reader_ok f tbl q -> n <= length (input f) -> reader_ok (set_pos n f) tbl q.
Proof.
  intros Hok Hn.
  apply (reader_ok_later f tbl q); [done | by apply later_same | apply Hok | done..].
Qed.

Lemma reader_ok_grow f tbl q c o : reader_ok f tbl q -> reader_ok (grow f c o) tbl q.
Proof.
  intros Hok.
  apply (reader_ok_later f tbl q);
    [done | apply later_grow | apply table_ok_grow, Hok | done.. | apply Hok].
Qed.

Lemma readScalar_produces f tbl q fuel x f' :
  reader_ok f tbl q -> readScalar fuel f = Ok x f' ->
  exists tbl' v,
    reader_ok f' tbl' q /\ later f tbl f' tbl' /\
    repr (heap f') (nil_ f') tbl' x v /\ readable0 v.
Proof.
  intros Hok H. pose proof Hok as (Htab & _ & _ & _ & _ & Hpos).
  unfold readScalar in H. unfold bind at 1, gets in H. unfold bind at 1 in H.
  destruct (readScalar_loop fuel f) as [[] f1| |] eqn:El; try done.
  destruct (readScalar_loop_inv _ _ _ El Hpos) as (Ef1 & Hp1 & Htok).
  unfold bind at 1, gets in H. unfold bind at 1, gets in H.
  assert (input f1 = input f) as Ein by (by rewrite Ef1).
  rewrite Ein in H.
  assert (reader_ok f1 tbl q) as Hok1 by (rewrite Ef1; apply reader_ok_set_pos; [done|lia]).
  assert (later f tbl f1 tbl) as Hl1 by (rewrite Ef1; by apply later_same).
  set (s := take (pos f1 - pos f) (drop (pos f) (input f))) in *.
  destruct (parseInt64 s) as [n|] eqn:Eparse.
  - rewrite NewNumber_ok in H. injection H as <- <-.
    exists tbl, (VNum n). split; [by apply reader_ok_grow|].
    split; [eapply later_trans; [done|apply later_grow]|].
    split; [apply is_number_new|]. by eapply parseInt64_range.
  - destruct (intern_inv f1 s tbl fuel x f' (proj1 Hok1) H) as (l & tbl' & Ef' & Htab' & Hx & L).
    assert (later f1 tbl f' tbl') as Hl'.
    { split; [by rewrite Ef'|]. split; [|done]. exists l. by rewrite Ef'. }
    exists tbl', (VAtom s). split; [|split; [by eapply later_trans|]].
    + apply (reader_ok_later f1 tbl q); try done; try (by rewrite Ef').
      rewrite Ef'. simpl. rewrite Ein. lia.
    + split; [done|]. done.
Qed.

Lemma produces_from f tbl f1 tbl1 p f' b :
  later f tbl f1 tbl1 -> produces f1 tbl1 p f' b -> produces f tbl p f' b.
Proof.
  intros Hl (tbl' & q' & v & Hok & Hl' & Hr & Hrd & Hb).
  exists tbl', q', v. split; [done|]. split; [by eapply later_trans|]. done.
Qed.

Lemma readable0_quote : readable0 (VAtom (str "quote")).
Proof. split; [by repeat constructor|done]. Qed.

Lemma token_bytes_push : token_bytes (str "push").
Proof. by repeat constructor. Qed.

Lemma token_bytes_pop : token_bytes (str "pop").
Proof. by repeat constructor. Qed.

(** A directive: queue [quote], the scalar that follows and the atom
    [a], then read from the queue. *)
Lemma directive_produces (read : M ptr) fuel f tbl a (s : gostring) p f' :
  (forall f1 tbl1 q1 p1 f1',
     reader_ok f1 tbl1 q1 -> read f1 = Ok p1 f1' -> produces f1 tbl1 p1 f1' false) ->
  reader_ok f tbl [] ->
  lookup_atom s tbl = Some a -> token_bytes s -> parseInt64 s = None ->
  (s1 ← NewPair a None;
   x ← readScalar fuel;
   s2 ← NewPair x s1;
   q ← gets AtomQuote;
   s3 ← NewPair q s2;
   modify (set_readStack s3);;
   read) f = Ok p f' ->
  produces f tbl p f' false.
Proof.
  intros IH Hok Ha Hts Hps H.
  rewrite (bind_Ok _ _ _ _ _ (NewPair_ok _ _ _)) in H.
  set (f1 := grow f _ _) in H. set (s1 := Some (S (length (heap f)))) in H.
  assert (reader_ok f1 tbl []) as Hok1 by (by apply reader_ok_grow).
  assert (is_pair (heap f1) s1 a None) as Hp1 by apply is_pair_new.
  unfold bind at 1 in H.
  destruct (readScalar fuel f1) as [x f2| |] eqn:Ex; try done.
  destruct (readScalar_produces _ _ _ _ _ _ Hok1 Ex) as (tbl2 & vx & Hok2 & Hl2 & Hrx & Hrdx).
  rewrite (bind_Ok _ _ _ _ _ (NewPair_ok _ _ _)) in H.
  set (f3 := grow f2 _ _) in H. set (s2 := Some (S (length (heap f2)))) in H.
  unfold bind at 1, gets in H.
  rewrite (bind_Ok _ _ _ _ _ (NewPair_ok _ _ _)) in H.
  set (f4 := grow f3 _ _) in H. set (s3 := Some (S (length (heap f3)))) in H.
  unfold bind at 1, modify in H.
  assert (later f1 tbl f4 tbl2) as Hl4.
  { eapply later_trans; [exact Hl2|].
    eapply later_trans; [apply (later_grow f2)|apply (later_grow f3)]. }
  pose proof Hok2 as (Htab2 & Hq2 & Hpu2 & Hpo2 & Hqueue2 & Hpos2).
  assert (reader_ok (set_readStack s3 f4) tbl2 [VAtom (str "quote"); vx; VAtom s]) as Hok4.
  { split; [apply table_ok_grow, table_ok_grow, Htab2|].
    split; [done|]. split; [done|]. split; [done|]. split; [|done].
    split; [done|]. exists (AtomQuote f3), s2.
    split; [apply is_pair_new|]. split; [exact Hq2|]. split; [apply readable0_quote|].
    split; [done|]. exists x, s1.
    split; [apply is_pair_ext, is_pair_new|].
    split; [apply repr_ext, repr_ext, Hrx|]. split; [done|].
    split; [done|]. exists a, None.
    split; [|split; [|done]].
    - destruct Hl4 as (_ & [l E] & _). change (is_pair (heap f4) s1 a None).
      rewrite E. by apply is_pair_ext.
    - simpl. destruct Hl2 as (_ & _ & L). by apply L. }
  eapply (produces_from f tbl _ tbl2); [|by eapply IH].
  eapply later_trans; [apply (later_grow f)|]. exact Hl4.
Qed.

Lemma Read_produces fuel : forall f tbl q p f',
  reader_ok f tbl q ->
  (Read fuel f = Ok p f' -> produces f tbl p f' false) /\
  (readList fuel f = Ok p f' -> produces f tbl p f' true).
Proof.
  induction fuel as [|n IH]; intros f tbl q p f' Hok; [by split|].
  pose proof Hok as (Htab & Hq & Hpu & Hpo & Hqueue & Hpos).
  assert (forall f1 tbl1 q1 p1 f1',
     reader_ok f1 tbl1 q1 -> Read n f1 = Ok p1 f1' -> produces f1 tbl1 p1 f1' false) as IHR.
  { intros f1 tbl1 q1 p1 f1' Hok1. apply (IH f1 tbl1 q1 p1 f1' Hok1). }
  assert (forall f1 tbl1 q1,
    reader_ok f1 tbl1 q1 -> later f tbl f1 tbl1 ->
    (first ← Read n; second ← readList n; NewPair first second) f1 = Ok p f' ->
    produces f tbl p f' true) as Hcont.
  { intros f1 tbl1 q1 Hok1 Hl1 H. unfold bind at 1 in H.
    destruct (Read n f1) as [first f2| |] eqn:E1; try done.
    destruct (IHR _ _ _ _ _ Hok1 E1) as (tbl2 & q2 & v1 & Hok2 & Hl2 & Hr1 & Hrd1 & _).
    unfold bind at 1 in H.
    destruct (readList n f2) as [second f3| |] eqn:E2; try done.
    destruct (proj2 (IH f2 tbl2 q2 second f3 Hok2) E2)
      as (tbl3 & q3 & v2 & Hok3 & Hl3 & Hr2 & Hrd2 & Hlist).
    rewrite NewPair_ok in H. injection H as <- <-.
    exists tbl3, q3, (VPair v1 v2). split; [by apply reader_ok_grow|].
    split.
    { eapply later_trans; [exact Hl1|]. eapply later_trans; [exact Hl2|].
      eapply later_trans; [exact Hl3|]. apply later_grow. }
    split; [|split; [|done]].
    - exists first, second. split; [apply is_pair_new|].
      split; [|by apply repr_ext].
      apply repr_ext. by apply (repr_later f2 tbl2 f3 tbl3).
    - simpl. split; [done|]. split; [done|]. by apply Hlist. }
  split.
  - (* Read *)
    rewrite Read_unfold. unfold bind at 1, gets.
    destruct q as [|v0 q0]; simpl in Hqueue.
    + rewrite Hqueue. change (ptr_eq None None) with true. cbn [negb].
      unfold bind at 1.
      destruct (skipWhiteAndComments n f) as [[] f1| |] eqn:Es; try done.
      pose proof (skipWhite_pos _ _ _ Es Hpos) as Hpos1.
      apply skipWhite_frame in Es.
      assert (reader_ok f1 tbl []) as Hok1.
      { rewrite Es. apply reader_ok_set_pos; [|done].
        split; [done|]. by rewrite Hqueue. }
      assert (later f tbl f1 tbl) as Hl1 by (rewrite Es; by apply later_same).
      unfold bind at 1. destruct (peek f1) as [c f1'| |] eqn:Ep; try done.
      apply peek_frame in Ep as ->.
      destruct (byte_eq c NUL); [done|].
      assert (forall f2, advance f1 = Ok tt f2 ->
                reader_ok f2 tbl [] /\ later f tbl f2 tbl) as Hadv.
      { intros f2 Ha. apply advance_inv in Ha as [-> Hle].
        assert (input f1 = input f) as Ein by (by rewrite Es).
        split; [apply reader_ok_set_pos; [done|lia]|].
        eapply later_trans; [exact Hl1|]. by apply later_same. }
      destruct (byte_eq c "'").
      { unfold bind at 1. destruct (advance f1) as [[] f2| |] eqn:Ea; try done.
        destruct (Hadv _ eq_refl) as [Hok2 Hl2]. unfold gets. intros [= <- <-].
        exists tbl, [], (VAtom (str "quote")).
        split; [done|]. split; [done|]. split; [apply Hok2|].
        split; [apply readable0_quote|done]. }
      destruct (byte_eq c "^").
      { unfold bind at 1. destruct (advance f1) as [[] f2| |] eqn:Ea; try done.
        destruct (Hadv _ eq_refl) as [Hok2 Hl2]. unfold bind at 1, gets. intros H.
        eapply (produces_from f tbl f2 tbl); [done|].
        exact (directive_produces (Read n) n f2 tbl (AtomPush f2) (str "push") p f' IHR Hok2
                 (proj1 (proj2 (proj2 Hok2))) token_bytes_push eq_refl H). }
      destruct (byte_eq c "$").
      { unfold bind at 1. destruct (advance f1) as [[] f2| |] eqn:Ea; try done.
        destruct (Hadv _ eq_refl) as [Hok2 Hl2]. unfold bind at 1, gets. intros H.
        eapply (produces_from f tbl f2 tbl); [done|].
        exact (directive_produces (Read n) n f2 tbl (AtomPop f2) (str "pop") p f' IHR Hok2
                 (proj1 (proj2 (proj2 (proj2 Hok2)))) token_bytes_pop eq_refl H). }
      destruct (byte_eq c "(").
      { unfold bind at 1. destruct (advance f1) as [[] f2| |] eqn:Ea; try done.
        destruct (Hadv _ eq_refl) as [Hok2 Hl2]. intros H.
        destruct (proj2 (IH f2 tbl [] p f' Hok2) H) as (tbl' & q' & v & H1 & H2 & H3 & H4 & _).
        exists tbl', q', v. split; [done|]. split; [by eapply later_trans|]. done. }
      intros H.
      destruct (readScalar_produces _ _ _ _ _ _ Hok1 H) as (tbl' & v & H1 & H2 & H3 & H4).
      exists tbl', [], v. split; [done|]. split; [by eapply later_trans|]. done.
    + destruct Hqueue as (Hne & x & rs' & Hp & Hrx & Hrdx & Hq').
      unfold ptr_eq. rewrite bool_decide_eq_false_2 by done. cbn [negb].
      rewrite (bind_Ok _ _ _ _ _ (cdr_ok _ _ _ _ Hp)).
      unfold bind at 1, modify.
      rewrite (car_ok (set_readStack rs' f) _ _ _ Hp). intros [= <- <-].
      exists tbl, q0, v0. split; [|split; [by apply later_same|done]].
      split; [done|]. done.
  - (* readList *)
    rewrite readList_unfold. unfold bind at 1, gets.
    destruct q as [|v0 q0]; simpl in Hqueue.
    + rewrite Hqueue. change (ptr_eq None None) with true. cbv iota.
      unfold bind at 1. unfold bind at 1.
      destruct (skipWhiteAndComments n f) as [[] f1| |] eqn:Es; try done.
      pose proof (skipWhite_pos _ _ _ Es Hpos) as Hpos1.
      apply skipWhite_frame in Es.
      assert (reader_ok f1 tbl []) as Hok1.
      { rewrite Es. apply reader_ok_set_pos; [|done].
        split; [done|]. by rewrite Hqueue. }
      assert (later f tbl f1 tbl) as Hl1 by (rewrite Es; by apply later_same).
      unfold bind at 1. destruct (peek f1) as [c f1'| |] eqn:Ep; try done.
      apply peek_frame in Ep as ->.
      destruct (byte_eq c ")").
      * unfold bind at 1. destruct (advance f1) as [[] f2| |] eqn:Ea; try done.
        apply advance_inv in Ea as [-> Hle]. unfold ret, gets. intros [= <- <-].
        assert (input f1 = input f) as Ein by (by rewrite Es).
        exists tbl, [], VNil. split; [apply reader_ok_set_pos; [done|lia]|].
        split; [eapply later_trans; [exact Hl1|by apply later_same]|]. done.
      * unfold ret. apply (Hcont f1 tbl [] Hok1 Hl1).
    + destruct Hqueue as (Hne & _).
      unfold ptr_eq. rewrite bool_decide_eq_false_2 by done.
      unfold bind at 1, ret. apply (Hcont f tbl (v0 :: q0) Hok). apply later_refl.
Qed.

(** C6. Every object [Read] returns stands for a value of the reader: an
    interned atom, a number, or a nil-ended list of such.  When no atom
    in it has the empty text (the input was well formed: no directive
    without its scalar, no stray closing parenthesis), then in every
    later state of the interpreter whose read-ahead queue is empty,
    printing the object and feeding the printed text (followed by
    nothing, or by any punctuation, such as the newline [Print] adds)
    back to [Read] returns an object of the same shape whose atoms and
    numbers are [ObjEqual] to the original ones. *)
Theorem print_read_roundtrip
    (f0 : Forsp) (tbl0 : list (ptr * gostring)) (q0 : list Val)
    (fuel0 : nat) (p : ptr) (f1 : Forsp) :
  reader_ok f0 tbl0 q0 ->
  Read fuel0 f0 = Ok p f1 ->
  exists v tbl1,
    table_ok f1 tbl1 /\ repr (heap f1) (nil_ f1) tbl1 p v /\ readable0 v /\
    (nonempty v ->
     forall f2 tbl2 rest fuel,
       later f1 tbl1 f2 tbl2 -> table_ok f2 tbl2 -> readStack f2 = None ->
       ends_token rest ->
       length tbl2 + length (show v ++ rest) + 2 + size v <= fuel ->
       exists f3 f4 p',
         PrintRecurse fuel p f2 = Ok tt f3 /\
         stdout f3 = stdout f2 ++ show v /\
         (SetReader (show v ++ rest);; Read fuel) f3 = Ok p' f4 /\
         iso f4 p p').
Proof.
  intros Hok HR.
  destruct (proj1 (Read_produces fuel0 f0 tbl0 q0 p f1 Hok) HR)
    as (tbl1 & q1 & v & Hok1 & _ & Hrep & Hrd & _).
  exists v, tbl1. split; [apply Hok1|]. split; [done|]. split; [done|].
  intros Hne f2 tbl2 rest fuel Hl Htab2 Hrs He Hf.
  apply (roundtrip_value f2 tbl2 p v rest fuel); try done.
  by apply (repr_later f1 tbl1).
Qed.

Lemma initial_reader_ok s : reader_ok (initial_on s) initial_table [].
Proof.
  split; [split|].
  - eexists. split; [decode|reflexivity].
  - apply initial_table_ok.
  - split; [by_eval|]. split; [by_eval|]. split; [by_eval|].
    split; [reflexivity|]. simpl. lia.
Qed.

Lemma print_read_roundtrip_witness :
  exists v tbl1,
    table_ok (snd read_sample) tbl1 /\
    repr (heap (snd read_sample)) (nil_ (snd read_sample)) tbl1 (fst read_sample) v /\
    readable0 v /\
    (nonempty v ->
     forall f2 tbl2 rest fuel,
       later (snd read_sample) tbl1 f2 tbl2 -> table_ok f2 tbl2 -> readStack f2 = None ->
       ends_token rest ->
       length tbl2 + length (show v ++ rest) + 2 + size v <= fuel ->
       exists f3 f4 p',
         PrintRecurse fuel (fst read_sample) f2 = Ok tt f3 /\
         stdout f3 = stdout f2 ++ show v /\
         (SetReader (show v ++ rest);; Read fuel) f3 = Ok p' f4 /\
         iso f4 (fst read_sample) p').
Proof.
  apply (print_read_roundtrip (initial_on "(a (b 12) -7 () 'c ^d)") initial_table [] 100
           (fst read_sample) (snd read_sample)).
  - apply initial_reader_ok.
  - by_eval.
Defined.

(** The sample list prints as it was written, directives expanded, and
    the printed text reads back to a list that prints the same. *)
Lemma read_sample_prints :
  printed 100 (fst read_sample) (snd read_sample)
  = Some (str "(a (b 12) -7 () quote c quote d push)") /\
  match reread 100 (str "(a (b 12) -7 () quote c quote d push)") (snd read_sample) with
  | Ok p' f' => printed 100 p' f'
  | _ => None
  end = Some (str "(a (b 12) -7 () quote c quote d push)").
Proof. split; by_eval. Qed.

(** Why the atoms must not be empty: the atom read at a stray [)] has
    the empty text, it prints as nothing, and nothing cannot be read. *)
Lemma read_stray_no_roundtrip :
  is_atom (heap (snd read_stray)) (fst read_stray) [] /\
  printed 100 (fst read_stray) (snd read_stray) = Some [] /\
  reread 100 [] (snd read_stray) = Panic (FAIL "End of input: could not read()").
Proof. split; [decode|]. split; by_eval. Qed.

(** * A list, read, printed and read again *)

Lemma value_of_repr fuel h nl tbl : forall p v,
  value_of fuel h nl tbl p = Some v -> repr h nl tbl p v.
Proof.
  induction fuel as [|n IH]; intros p v; simpl; [done|].
  unfold ptr_eq. case_bool_decide as Hnil; [by intros [= <-]|].
  destruct (atom_of h p) as [s|] eqn:Ea.
  { case_bool_decide as Hl; [|done]. by intros [= <-]. }
  destruct (number_of h p) as [k|] eqn:En.
  { intros [= <-]. by apply number_of_Some. }
  destruct (pair_of h p) as [[a d]|] eqn:Ep; [|done].
  destruct (value_of n h nl tbl a) as [va|] eqn:Eva; [|done].
  destruct (value_of n h nl tbl d) as [vd|] eqn:Evd; [|done].
  intros [= <-]. exists a, d. split; [by apply pair_of_Some|]. split; by apply IH.
Qed.

(** The sample list stands for [sample_value]; no atom in it is empty,
    so it is one of the objects the round trip holds for. *)
Lemma read_sample_value :
  repr (heap (snd read_sample)) (nil_ (snd read_sample)) sample_table
    (fst read_sample) sample_value /\
  table_ok (snd read_sample) sample_table /\
  readStack (snd read_sample) = None /\
  readable0 sample_value /\ nonempty sample_value.
Proof.
  split; [apply (value_of_repr 64); by_eval|].
  split.
  { split; [eexists; split; [decode|reflexivity]|].
    unfold sample_table.
    repeat (split; [by_eval|]; eexists; split; [decode|]; split; [decode|]). by_eval. }
  split; [reflexivity|].
  split.
  - unfold sample_value, readable0, is_list, token_bytes, in_int64.
    repeat split; try lia; try reflexivity; by repeat constructor.
  - unfold sample_value, nonempty. repeat split; discriminate.
Qed.

Lemma read_sample_roundtrip :
  exists f3 f4 p',
    PrintRecurse 200 (fst read_sample) (snd read_sample) = Ok tt f3 /\
    stdout f3 = stdout (snd read_sample) ++ show sample_value /\
    (SetReader (show sample_value ++ []);; Read 200) f3 = Ok p' f4 /\
    iso f4 (fst read_sample) p'.
Proof.
  destruct read_sample_value as (Hrep & Hok & Hrs & Hrd & Hne).
  apply (roundtrip_value (snd read_sample) sample_table); try done.
  by_eval.
Qed.

(* ================================================================== *)
(** * Frame properties: what a computation leaves alone *)

Global Instance unchanged_preorder : PreOrder unchanged.
Proof. split; [intros f; reflexivity | intros a b c H1 H2; unfold unchanged in *; congruence]. Qed.

Global Instance extends_preorder : PreOrder extends.
Proof.
  split.
  - intros f. unfold extends. repeat split; try lia.
    + exists []. by rewrite app_nil_r.
    + exists []. by rewrite app_nil_r.
  - intros a b c (H1 & H2 & H3 & H4 & H5 & H6 & H7 & H8 & [l Hl] & [s Hs])
                 (K1 & K2 & K3 & K4 & K5 & K6 & K7 & K8 & [l' Hl'] & [s' Hs']).
    unfold extends. repeat split; try congruence; try lia.
    + exists (l ++ l'). rewrite Hl', Hl. by rewrite app_assoc.
    + exists (s ++ s'). rewrite Hs', Hs. by rewrite app_assoc.
Qed.

Global Instance reads_preorder : PreOrder reads.
Proof.
  split.
  - intros f. split; [reflexivity | done].
  - intros a b c (H1 & H2 & H3) (K1 & K2 & K3).
    split; [by transitivity b | split; congruence].
Qed.

Global Instance prints_preorder : PreOrder prints.
Proof.
  split.
  - intros f. exists []. rewrite app_nil_r. by destruct f.
  - intros a b c [s ->] [s' ->]. exists (s ++ s'). simpl. by rewrite app_assoc.
Qed.

Lemma unchanged_reads f f' : unchanged f f' -> reads f f'.
Proof. intros ->. reflexivity. Qed.

Lemma unchanged_prints f f' : unchanged f f' -> prints f f'.
Proof. intros ->. reflexivity. Qed.

Lemma reads_extends f f' : reads f f' -> extends f f'.
Proof. by intros [H _]. Qed.

Lemma prints_extends f f' : prints f f' -> extends f f'.
Proof.
  intros [s ->]. unfold extends; simpl. repeat split; try lia.
  - exists []. by rewrite app_nil_r.
  - by exists s.
Qed.

Lemma preserves_weaken {A} (R R' : Forsp -> Forsp -> Prop) (m : M A) :
  (forall f f', R f f' -> R' f f') -> preserves R m -> preserves R' m.
Proof. intros HR Hm f a f' H. apply HR. exact (Hm f a f' H). Qed.

Section preserving.
Context (R : Forsp -> Forsp -> Prop) `{!PreOrder R}.

Lemma preserves_ret {A} (a : A) : preserves R (ret a).
Proof. intros f a' f' H. injection H as _ <-. reflexivity. Qed.

Lemma preserves_throw {A} e : preserves R (@throw A e).
Proof. intros f a f' H. discriminate. Qed.

Lemma preserves_fail {A} msg : preserves R (@fail A msg).
Proof. intros f a f' H. discriminate. Qed.

Lemma preserves_out_of_fuel {A} : preserves R (@out_of_fuel A).
Proof. intros f a f' H. discriminate. Qed.

Lemma preserves_gets {A} (proj : Forsp -> A) : preserves R (gets proj).
Proof. intros f a f' H. injection H as _ <-. reflexivity. Qed.

Lemma preserves_bind {A B} (m : M A) (k : A -> M B) :
  preserves R m -> (forall a, preserves R (k a)) -> preserves R (bind m k).
Proof.
  intros Hm Hk f b f'. unfold bind.
  destruct (m f) as [a f1| |] eqn:E; try discriminate.
  intros H. transitivity f1; [exact (Hm _ _ _ E) | exact (Hk a _ _ _ H)].
Qed.

Lemma preserves_modify (g : Forsp -> Forsp) :
  (forall f, R f (g f)) -> preserves R (modify g).
Proof. intros Hg f [] f' [= <-]. apply Hg. Qed.

Lemma preserves_unchanged {A} (m : M A) : preserves unchanged m -> preserves R m.
Proof. apply preserves_weaken. intros f f' ->. reflexivity. Qed.

End preserving.

Arguments preserves_ret {R _ A} a.
Arguments preserves_gets {R _ A} proj.
Arguments preserves_bind {R _ A B} m k.
Arguments preserves_unchanged {R _ A} m.

(** The case analyses of a computation, one branch at a time. *)
Ltac frame_step :=
  lazymatch goal with
  | |- preserves _ (ret _) => apply preserves_ret
  | |- preserves _ (throw _) => apply preserves_throw
  | |- preserves _ (fail _) => apply preserves_fail
  | |- preserves _ out_of_fuel => apply preserves_out_of_fuel
  | |- preserves _ (gets _) => apply preserves_gets
  | |- preserves _ (bind _ _) => apply preserves_bind; [ | intros ? ]
  | |- preserves _ (if ?b then _ else _) => destruct b
  | |- preserves _ (match ?x with _ => _ end) => destruct x
  | |- preserves _ (let _ := _ in _) => cbv zeta
  end.

Ltac frame := repeat first [ frame_step | solve [ eauto with frame ] ].

Create HintDb frame.

Lemma load_unchanged p : preserves unchanged (load p).
Proof.
  intros f c f'. unfold load. destruct p as [a|]; [|discriminate].
  destruct (heap f !! a); [|discriminate]. by intros [= _ <-].
Qed.
#[export] Hint Resolve load_unchanged : frame.

Lemma deref_unchanged p : preserves unchanged (deref p).
Proof. unfold deref. frame. Qed.
#[export] Hint Resolve deref_unchanged : frame.

Lemma get_Pair_unchanged p : preserves unchanged (get_Pair p).
Proof. unfold get_Pair. frame. Qed.
Lemma get_Closure_unchanged p : preserves unchanged (get_Closure p).
Proof. unfold get_Closure. frame. Qed.
Lemma get_Atom_unchanged p : preserves unchanged (get_Atom p).
Proof. unfold get_Atom. frame. Qed.
Lemma get_Number_unchanged p : preserves unchanged (get_Number p).
Proof. unfold get_Number. frame. Qed.
Lemma get_Primitive_unchanged p : preserves unchanged (get_Primitive p).
Proof. unfold get_Primitive. frame. Qed.
#[export] Hint Resolve get_Pair_unchanged get_Closure_unchanged get_Atom_unchanged
  get_Number_unchanged get_Primitive_unchanged : frame.

Lemma assert_unchanged b msg : preserves unchanged (assert b msg).
Proof. unfold assert. frame. Qed.
Lemma is_unchanged p t : preserves unchanged (is_ p t).
Proof. unfold is_. frame. Qed.
#[export] Hint Resolve assert_unchanged is_unchanged : frame.

Lemma assertTag_unchanged p t msg : preserves unchanged (assertTag p t msg).
Proof. unfold assertTag. frame. Qed.
Lemma failTag_unchanged p t msg : preserves unchanged (failTag p t msg).
Proof. unfold failTag. frame. Qed.
#[export] Hint Resolve assertTag_unchanged failTag_unchanged : frame.

Lemma car_unchanged p : preserves unchanged (car p).
Proof. unfold car. frame. Qed.
Lemma cdr_unchanged p : preserves unchanged (cdr p).
Proof. unfold cdr. frame. Qed.
Lemma ObjEqual_unchanged a b : preserves unchanged (ObjEqual a b).
Proof. unfold ObjEqual. frame. Qed.
Lemma ObjToInt64_unchanged a : preserves unchanged (ObjToInt64 a).
Proof. unfold ObjToInt64. frame. Qed.
Lemma peek_unchanged : preserves unchanged peek.
Proof. intros f c f' H. by apply peek_frame in H. Qed.
#[export] Hint Resolve car_unchanged cdr_unchanged ObjEqual_unchanged
  ObjToInt64_unchanged peek_unchanged : frame.

Lemma intern_loop_unchanged fuel s : forall p, preserves unchanged (intern_loop fuel s p).
Proof. induction fuel as [|n IH]; intros p; simpl; frame. Qed.
#[export] Hint Resolve intern_loop_unchanged : frame.

Lemma EnvFind_loop_unchanged fuel key : forall v, preserves unchanged (EnvFind_loop fuel key v).
Proof. induction fuel as [|n IH]; intros v; simpl; frame. Qed.
#[export] Hint Resolve EnvFind_loop_unchanged : frame.

Lemma EnvFind_unchanged fuel env key : preserves unchanged (EnvFind fuel env key).
Proof. unfold EnvFind. frame. Qed.
#[export] Hint Resolve EnvFind_unchanged : frame.
Ltac frame_leaf :=
  first
    [ solve [ auto with frame ]
    | apply preserves_unchanged; solve [ auto with frame ]
    | apply (preserves_weaken reads extends _ reads_extends); solve [ auto with frame ]
    | apply (preserves_weaken prints extends _ prints_extends); solve [ auto with frame ]
    | apply (preserves_weaken reads extends _ reads_extends);
      apply preserves_unchanged; solve [ auto with frame ] ].

Ltac frames := repeat first [ frame_step | frame_leaf ].

(** ** The reader's functions *)

Lemma reads_set_heap f l : reads f (set_heap (heap f ++ l) f).
Proof.
  unfold reads, extends; simpl. repeat split; try lia.
  - by exists l.
  - exists []. by rewrite app_nil_r.
Qed.

Lemma reads_set_pos f n : pos f <= n -> reads f (set_pos n f).
Proof.
  intros Hn. unfold reads, extends; simpl. repeat split; try lia.
  - exists []. by rewrite app_nil_r.
  - exists []. by rewrite app_nil_r.
Qed.

Lemma reads_set_readStack f p : reads f (set_readStack p f).
Proof.
  unfold reads, extends; simpl. repeat split; try lia.
  - exists []. by rewrite app_nil_r.
  - exists []. by rewrite app_nil_r.
Qed.

Lemma reads_set_internedAtoms f p : reads f (set_internedAtoms p f).
Proof.
  unfold reads, extends; simpl. repeat split; try lia.
  - exists []. by rewrite app_nil_r.
  - exists []. by rewrite app_nil_r.
Qed.

Lemma alloc_reads c : preserves reads (alloc c).
Proof. intros f a f' [= _ <-]. apply reads_set_heap. Qed.
#[export] Hint Resolve alloc_reads : frame.

Lemma NewNil_reads : preserves reads NewNil.
Proof. unfold NewNil. frames. Qed.
Lemma NewAtom_reads s : preserves reads (NewAtom s).
Proof. unfold NewAtom. frames. Qed.
Lemma NewNumber_reads n : preserves reads (NewNumber n).
Proof. unfold NewNumber. frames. Qed.
Lemma NewPair_reads a d : preserves reads (NewPair a d).
Proof. unfold NewPair. frames. Qed.
Lemma NewClosure_reads b e : preserves reads (NewClosure b e).
Proof. unfold NewClosure. frames. Qed.
Lemma NewPrimitive_reads fn : preserves reads (NewPrimitive fn).
Proof. unfold NewPrimitive. frames. Qed.
#[export] Hint Resolve NewNil_reads NewAtom_reads NewNumber_reads NewPair_reads
  NewClosure_reads NewPrimitive_reads : frame.

Lemma set_readStack_reads p : preserves reads (modify (set_readStack p)).
Proof. apply preserves_modify. intros f. apply reads_set_readStack. Qed.
Lemma set_internedAtoms_reads p : preserves reads (modify (set_internedAtoms p)).
Proof. apply preserves_modify. intros f. apply reads_set_internedAtoms. Qed.
Lemma advance_reads : preserves reads advance.
Proof.
  unfold advance. frames. apply preserves_modify. intros f. apply reads_set_pos. lia.
Qed.
#[export] Hint Resolve set_readStack_reads set_internedAtoms_reads advance_reads : frame.

Lemma intern_reads fuel s : preserves reads (intern fuel s).
Proof. unfold intern. frames. Qed.
#[export] Hint Resolve intern_reads : frame.

Lemma skipComment_loop_reads fuel : preserves reads (skipComment_loop fuel).
Proof. induction fuel as [|n IH]; simpl; frames. Qed.
#[export] Hint Resolve skipComment_loop_reads : frame.

Lemma skipWhiteAndComments_reads fuel : preserves reads (skipWhiteAndComments fuel).
Proof. induction fuel as [|n IH]; simpl; frames. Qed.
#[export] Hint Resolve skipWhiteAndComments_reads : frame.

Lemma readScalar_loop_reads fuel : preserves reads (readScalar_loop fuel).
Proof. induction fuel as [|n IH]; simpl; frames. Qed.
#[export] Hint Resolve readScalar_loop_reads : frame.

Lemma readScalar_reads fuel : preserves reads (readScalar fuel).
Proof. unfold readScalar. frames. Qed.
#[export] Hint Resolve readScalar_reads : frame.

Lemma Read_readList_reads fuel :
  preserves reads (Read fuel) /\ preserves reads (readList fuel).
Proof.
  induction fuel as [|n [IHr IHl]].
  - split; simpl; frames.
  - split; [rewrite Read_unfold | rewrite readList_unfold]; frames.
Qed.

Lemma Read_reads fuel : preserves reads (Read fuel).
Proof. apply Read_readList_reads. Qed.
Lemma readList_reads fuel : preserves reads (readList fuel).
Proof. apply Read_readList_reads. Qed.
#[export] Hint Resolve Read_reads readList_reads : frame.

(** ** The printer's functions *)

Lemma print_prints s : preserves prints (print s).
Proof. apply preserves_modify. intros f. by exists s. Qed.
#[export] Hint Resolve print_prints : frame.

Lemma PrintRecurse_printListTail_prints fuel : forall obj,
  preserves prints (PrintRecurse fuel obj) /\ preserves prints (printListTail fuel obj).
Proof.
  induction fuel as [|n IH]; intros obj.
  - split; simpl; frames.
  - assert (IHp : forall o, preserves prints (PrintRecurse n o)) by (intros o; apply IH).
    assert (IHt : forall o, preserves prints (printListTail n o)) by (intros o; apply IH).
    split; [rewrite PrintRecurse_unfold | rewrite printListTail_unfold]; frames.
Qed.

Lemma PrintRecurse_prints fuel obj : preserves prints (PrintRecurse fuel obj).
Proof. apply PrintRecurse_printListTail_prints. Qed.
#[export] Hint Resolve PrintRecurse_prints : frame.

Lemma Print_prints fuel obj : preserves prints (Print fuel obj).
Proof. unfold Print. frames. Qed.
#[export] Hint Resolve Print_prints : frame.

(** ** The stack, the primitives and the evaluator *)

Lemma extends_set_Stack f p : extends f (set_Stack p f).
Proof.
  unfold extends; simpl. repeat split; try lia.
  - exists []. by rewrite app_nil_r.
  - exists []. by rewrite app_nil_r.
Qed.

Lemma set_Stack_extends p : preserves extends (modify (set_Stack p)).
Proof. apply preserves_modify. intros f. apply extends_set_Stack. Qed.
#[export] Hint Resolve set_Stack_extends : frame.

Lemma Push_extends obj : preserves extends (Push obj).
Proof. unfold Push. frames. Qed.
Lemma tryPop_extends : preserves extends tryPop.
Proof. unfold tryPop. frames. Qed.
#[export] Hint Resolve Push_extends tryPop_extends : frame.
Lemma Pop_extends : preserves extends Pop.
Proof. unfold Pop. frames. Qed.
#[export] Hint Resolve Pop_extends : frame.

Lemma EnvDefine_reads env k v : preserves reads (EnvDefine env k v).
Proof. unfold EnvDefine. frames. Qed.
#[export] Hint Resolve EnvDefine_reads : frame.

Lemma callPrimitive_extends fuel fn env : preserves extends (callPrimitive fuel fn env).
Proof.
  destruct fn; unfold callPrimitive, primPush, primPop, primEq, primCons, primCar,
    primCdr, primCswap, primTag, primRead, primPrint, primStack, primEnv, primSub,
    primMul, primNand, primLsh, primRsh; frames.
Qed.
#[export] Hint Resolve callPrimitive_extends : frame.

Lemma eval_with_extends (C : ptr -> ptr -> M unit) fuel expr env :
  (forall c e, preserves extends (C c e)) ->
  preserves extends (eval_with C fuel expr env).
Proof. intros HC. unfold eval_with. frames. Qed.

Lemma ComputeEnv_preserves fuel : forall comp env,
  preserves extends (ComputeEnv fuel comp env).
Proof.
  induction fuel as [|n IH]; intros comp env; simpl; [frames|].
  pose proof (eval_with_extends (ComputeEnv n) n) as He.
  frames.
Qed.
(* ================================================================== *)
(** * What evaluation, reading and printing leave alone *)

Lemma extends_lookup f f' a c :
  extends f f' -> heap f !! a = Some c -> heap f' !! a = Some c.
Proof.
  intros (_ & _ & _ & _ & _ & _ & _ & _ & [l ->] & _) H.
  by apply lookup_app_l_Some.
Qed.

(** X1. Evaluation never mutates or frees anything.  Whatever a
    successful [ComputeEnv] has done (closures called, primitives run,
    [read] and [print] among them), every heap cell that existed before
    still holds what it held; the nil object, the atoms [t], [quote],
    [push] and [pop], the input text and the interpreter's top-level
    [Env] are what they were; the cursor has not moved back and the
    output has only been appended to.  [Compute] is [ComputeEnv] on
    [f.Env]: the bindings a program makes are gone when it returns. *)
Theorem ComputeEnv_only_extends (fuel : nat) (comp env : ptr) (f f' : Forsp) :
  ComputeEnv fuel comp env f = Ok tt f' ->
  extends f f' /\
  (forall a c, heap f !! a = Some c -> heap f' !! a = Some c).
Proof.
  intros H. pose proof (ComputeEnv_preserves fuel comp env f tt f' H) as He.
  split; [exact He | intros a c; by apply extends_lookup].
Qed.

Lemma ComputeEnv_only_extends_witness :
  extends (snd sample_program) sample_computed /\
  (forall a c, heap (snd sample_program) !! a = Some c -> heap sample_computed !! a = Some c).
Proof.
  apply (ComputeEnv_only_extends 100 (fst sample_program) (Env (snd sample_program))).
  vm_compute; reflexivity.
Defined.

(** X2. [Read] is confined to the reader's part of the state: the value
    stack, the top-level environment, the output and the input text are
    untouched, the cursor only moves forward and objects are only
    added to the heap. *)
Theorem Read_only_reads (fuel : nat) (f : Forsp) (p : ptr) (f' : Forsp) :
  Read fuel f = Ok p f' ->
  Stack f' = Stack f /\ Env f' = Env f /\ stdout f' = stdout f /\
  input f' = input f /\ nil_ f' = nil_ f /\ pos f <= pos f' /\
  (exists l, heap f' = heap f ++ l).
Proof.
  intros H. destruct (Read_reads fuel f p f' H) as [He [Hs Ho]].
  destruct He as (? & _ & _ & _ & _ & ? & ? & ? & ? & _). done.
Qed.

Lemma Read_only_reads_witness :
  Stack (snd read_sample) = Stack (initial_on "(a (b 12) -7 () 'c ^d)") /\
  Env (snd read_sample) = Env (initial_on "(a (b 12) -7 () 'c ^d)") /\
  stdout (snd read_sample) = stdout (initial_on "(a (b 12) -7 () 'c ^d)") /\
  input (snd read_sample) = input (initial_on "(a (b 12) -7 () 'c ^d)") /\
  nil_ (snd read_sample) = nil_ (initial_on "(a (b 12) -7 () 'c ^d)") /\
  pos (initial_on "(a (b 12) -7 () 'c ^d)") <= pos (snd read_sample) /\
  (exists l, heap (snd read_sample) = heap (initial_on "(a (b 12) -7 () 'c ^d)") ++ l).
Proof.
  apply (Read_only_reads 100 _ (fst read_sample)).
  vm_compute; reflexivity.
Defined.

(** X3. [Print] changes nothing but the output, to which it appends the
    rendering of the object followed by a newline: no object, no list
    and no cursor is touched by printing. *)
Theorem Print_only_appends (fuel : nat) (obj : ptr) (f f' : Forsp) :
  Print fuel obj f = Ok tt f' ->
  exists s, f' = set_stdout (stdout f ++ s ++ ["010"%char]) f.
Proof.
  unfold Print, bind. destruct (PrintRecurse fuel obj f) as [[] f1| |] eqn:E; try discriminate.
  destruct (PrintRecurse_prints fuel obj f tt f1 E) as [s ->].
  intros [= <-]. exists s. simpl. by rewrite <- app_assoc.
Qed.

Lemma Print_only_appends_witness :
  exists s, sample_printed = set_stdout (stdout (snd read_sample) ++ s ++ ["010"%char]) (snd read_sample).
Proof.
  apply (Print_only_appends 100 (fst read_sample)).
  vm_compute; reflexivity.
Defined.

(* ================================================================== *)
(** * The value stack and the primitives on it *)

Lemma obj_list_ext h l nl st xs :
  obj_list h nl st xs -> obj_list (h ++ l) nl st xs.
Proof.
  revert st. induction xs as [|x xs IH]; intros st; simpl; [done|].
  intros [Hn (rest & Hp & Hr)]. split; [done|].
  exists rest. split; [by apply is_pair_ext | by apply IH].
Qed.

(** The decoded stack, for closed states. *)
Lemma stack_top2_list f y x rest xs :
  obj_list (heap f) (nil_ f) (Stack f) (y :: x :: xs) ->
  (exists s, is_pair (heap f) (Stack f) y s /\ is_pair (heap f) s x rest) ->
  stack_top2 f y x rest.
Proof.
  intros [Hn (s & Hp & Hs & (r & Hp' & _))] (s' & Hq & Hq').
  destruct (is_pair_inj _ _ _ _ _ _ Hp Hq) as [_ <-].
  exists s. done.
Qed.

(** X4. [Push] then [Pop] gives the object back and restores the stack
    pointer: the stack is last-in first-out, and the only trace is the
    pair [Push] allocated. *)
Theorem Push_then_Pop (f : Forsp) (x : ptr) :
  allocated (heap f) (nil_ f) ->
  (Push x;; Pop) f
  = Ok x (grow f (CPair x (Stack f))
            (mkObj None None None (Some (length (heap f))) None None TagPair)).
Proof.
  intros Hnil. rewrite (bind_Ok _ _ _ _ _ (Push_ok x f)).
  rewrite (Pop_ok _ _ _ (pushed_top x f)).
  - reflexivity.
  - exact (pushed_not_nil x f Hnil).
Qed.

Lemma Push_then_Pop_witness :
  (Push (Some 3);; Pop) initial
  = Ok (Some 3) (grow initial (CPair (Some 3) (Stack initial))
                   (mkObj None None None (Some (length (heap initial))) None None TagPair)).
Proof. apply (Push_then_Pop initial (Some 3)). vm_compute; lia. Defined.

Ltac underflow H :=
  unfold callPrimitive, primPush, primPop, primEq, primCons, primCar, primCdr,
    primCswap, primTag, primPrint, primSub, primMul, primNand, primLsh, primRsh, bind;
  rewrite H; reflexivity.

(** X5. Every primitive fails with "Value Stack Underflow" when the
    stack holds fewer objects than it pops, whatever these objects
    are: nothing is looked at before the operands are all there. *)
Theorem callPrimitive_underflow
    (f : Forsp) (fuel : nat) (fn : Primitive) (env : ptr) (l : list ptr) :
  obj_list (heap f) (nil_ f) (Stack f) l ->
  length l < pops fn ->
  callPrimitive fuel fn env f = Panic (FAIL "Value Stack Underflow").
Proof.
  intros Hst Hlen. destruct l as [|x [|y l]].
  - simpl in Hst. pose proof (Pop_underflow f Hst) as E.
    destruct fn; simpl in Hlen; try lia; underflow E.
  - destruct Hst as [Hn (rest & Hp & Hr)]. simpl in Hr.
    pose proof (Pop_ok f x rest Hp Hn) as E1.
    assert (Pop (set_Stack rest f) = Panic (FAIL "Value Stack Underflow")) as E2.
    { apply Pop_underflow. by simpl. }
    destruct fn; simpl in Hlen; try lia;
      unfold callPrimitive, primPop, primEq, primCons, primSub, primMul, primNand,
        primLsh, primRsh, bind;
      rewrite E1; cbv beta iota; rewrite E2; reflexivity.
  - destruct fn; simpl in Hlen; lia.
Qed.

Lemma callPrimitive_underflow_witness :
  callPrimitive 10 PrimSub (Env stack_5) stack_5 = Panic (FAIL "Value Stack Underflow").
Proof.
  apply (callPrimitive_underflow stack_5 10 PrimSub (Env stack_5) [Some 181]).
  - simpl. split; [by_eval|]. exists (Some 1). split; [decode | by_eval].
  - simpl; lia.
Defined.
(** X6. [cswap] swaps the two objects under the condition exactly when
    the condition is the interned atom [t] itself; any other condition,
    a Number or another atom included, is dropped and the stack under
    it is left as it is. *)
Theorem primCswap_swaps_on_t (f : Forsp) (c y x s rest : ptr) :
  is_pair (heap f) (Stack f) c s -> Stack f <> nil_ f ->
  stack_top2 (set_Stack s f) y x rest ->
  allocated (heap f) (nil_ f) ->
  exists f',
    primCswap f = Ok tt f' /\
    (c <> AtomTrue f -> f' = set_Stack s f) /\
    (c = AtomTrue f ->
     f' = pushed x (pushed y (set_Stack rest f)) /\ stack_top2 f' x y rest).
Proof.
  intros Hc Hn H2 Hnil. unfold primCswap.
  rewrite (bind_Ok _ _ _ _ _ (Pop_ok f c s Hc Hn)).
  unfold bind at 1, gets. unfold ptr_eq. simpl AtomTrue.
  case_bool_decide as Ec.
  - rewrite (Pop2_ok _ _ _ _ _ H2). simpl set_Stack.
    rewrite (bind_Ok _ _ _ _ _ (Push_ok y _)), Push_ok.
    eexists. split; [reflexivity|]. split; [done|]. intros _. split; [done|].
    apply (stack_top2_pushed (set_Stack rest f) y x). exact Hnil.
  - eexists. split; [reflexivity|]. split; [done|]. done.
Qed.

Lemma primCswap_swaps_on_t_witness :
  exists f',
    primCswap stack_1_2_t = Ok tt f' /\
    (Some 3 <> AtomTrue stack_1_2_t -> f' = set_Stack (Some 187) stack_1_2_t) /\
    (Some 3 = AtomTrue stack_1_2_t ->
     f' = pushed (Some 181) (pushed (Some 185) (set_Stack (Some 1) stack_1_2_t)) /\
     stack_top2 f' (Some 181) (Some 185) (Some 1)).
Proof.
  apply (primCswap_swaps_on_t stack_1_2_t (Some 3) (Some 185) (Some 181) (Some 187) (Some 1)).
  - decode.
  - by_eval.
  - decode.
  - by_eval.
Defined.

(** X7. [cons] followed by [car] pushes the object that was on top
    before, [cons] followed by [cdr] the one that was under it; in both
    cases on the stack that was under the two. *)
Theorem cons_then_car_cdr (f : Forsp) (y x rest : ptr) :
  stack_top2 f y x rest ->
  allocated (heap f) (nil_ f) ->
  (primCons;; primCar) f = Ok tt (pushed y (set_Stack rest (cons_result f rest y x))) /\
  (primCons;; primCdr) f = Ok tt (pushed x (set_Stack rest (cons_result f rest y x))).
Proof.
  intros H2 Hnil.
  destruct (cons_result_top f rest y x) as [Ht Hp].
  assert (Stack (cons_result f rest y x) <> nil_ (cons_result f rest y x)) as Hn.
  { unfold cons_result. apply pushed_not_nil. simpl. by apply allocated_ext. }
  split.
  - rewrite (bind_Ok _ _ _ _ _ (primCons_ok f y x rest H2)). unfold primCar.
    rewrite (bind_Ok _ _ _ _ _ (Pop_ok _ _ _ Ht Hn)).
    rewrite (bind_Ok _ _ _ _ _ (car_ok (set_Stack rest (cons_result f rest y x)) _ _ _ Hp)).
    apply Push_ok.
  - rewrite (bind_Ok _ _ _ _ _ (primCons_ok f y x rest H2)). unfold primCdr.
    rewrite (bind_Ok _ _ _ _ _ (Pop_ok _ _ _ Ht Hn)).
    rewrite (bind_Ok _ _ _ _ _ (cdr_ok (set_Stack rest (cons_result f rest y x)) _ _ _ Hp)).
    apply Push_ok.
Qed.

Lemma cons_then_car_cdr_witness :
  (primCons;; primCar) stack_1_2
  = Ok tt (pushed (Some 185) (set_Stack (Some 1) (cons_result stack_1_2 (Some 1) (Some 185) (Some 181)))) /\
  (primCons;; primCdr) stack_1_2
  = Ok tt (pushed (Some 181) (set_Stack (Some 1) (cons_result stack_1_2 (Some 1) (Some 185) (Some 181)))).
Proof.
  apply (cons_then_car_cdr stack_1_2 (Some 185) (Some 181) (Some 1)).
  - decode.
  - by_eval.
Defined.

(** X8. [car] and [cdr] of anything that is not a Pair fail, the nil
    object (the empty list) included; the operand is popped before the
    check. *)
Theorem car_cdr_of_non_pair (f : Forsp) (x rest : ptr) (o : Obj) :
  is_pair (heap f) (Stack f) x rest -> Stack f <> nil_ f ->
  obj_at (heap f) x o -> o_Tag o <> TagPair ->
  primCar f = Panic (FAIL "Expected Pair to apply car() function") /\
  primCdr f = Panic (FAIL "Expected Pair to apply cdr() function").
Proof.
  intros Hp Hn Ho Ht. unfold primCar, primCdr.
  rewrite !(bind_Ok _ _ _ _ _ (Pop_ok f x rest Hp Hn)).
  split.
  - apply bind_Panic. unfold car. apply bind_Panic.
    exact (failTag_fail (set_Stack rest f) x o TagPair _ Ho Ht).
  - apply bind_Panic. unfold cdr. apply bind_Panic.
    exact (failTag_fail (set_Stack rest f) x o TagPair _ Ho Ht).
Qed.

Lemma car_cdr_of_non_pair_witness :
  primCar stack_5 = Panic (FAIL "Expected Pair to apply car() function") /\
  primCdr stack_5 = Panic (FAIL "Expected Pair to apply cdr() function").
Proof.
  apply (car_cdr_of_non_pair stack_5 (Some 181) (Some 1)
           (mkObj None None (Some 180) None None None TagNumber)).
  - decode.
  - by_eval.
  - decode.
  - by_eval.
Defined.

Lemma wrap64_range z : in_int64 (wrap64 z).
Proof.
  unfold in_int64, wrap64.
  pose proof (Z.mod_pos_bound (z + 2 ^ 63) (2 ^ 64) ltac:(lia)). lia.
Qed.

Lemma wrap64_congr z : (wrap64 z mod 2 ^ 64 = z mod 2 ^ 64)%Z.
Proof.
  unfold wrap64. rewrite Zminus_mod_idemp_l. f_equal. lia.
Qed.

(** X9. [-] and [*] compute in [int64] with wrap-around: the Number
    pushed is in range and congruent to the exact result modulo 2^64,
    hence the exact result whenever that fits; an operand that is not a
    Number counts as 0.  The second-popped operand is the left one. *)
Theorem primSub_primMul_wrap (f : Forsp) (pb pa rest : ptr) (a b : Z) :
  stack_top2 f pb pa rest ->
  int64_of (heap f) pa a -> int64_of (heap f) pb b ->
  exists d p,
    primSub f = Ok tt (binop_result f rest d) /\
    primMul f = Ok tt (binop_result f rest p) /\
    in_int64 d /\ (d mod 2 ^ 64 = (a - b) mod 2 ^ 64)%Z /\ (in_int64 (a - b) -> d = (a - b)%Z) /\
    in_int64 p /\ (p mod 2 ^ 64 = (a * b) mod 2 ^ 64)%Z /\ (in_int64 (a * b) -> p = (a * b)%Z).
Proof.
  intros H2 Ha Hb. exists (sub64 a b), (mul64 a b).
  split; [exact (binop_ok sub64 f pb pa rest a b H2 Ha Hb)|].
  split; [exact (binop_ok mul64 f pb pa rest a b H2 Ha Hb)|].
  unfold sub64, mul64.
  repeat split; try apply wrap64_range; try apply wrap64_congr; apply wrap64_id.
Qed.

Lemma primSub_primMul_wrap_witness :
  exists d p,
    primSub stack_1_2 = Ok tt (binop_result stack_1_2 (Some 1) d) /\
    primMul stack_1_2 = Ok tt (binop_result stack_1_2 (Some 1) p) /\
    in_int64 d /\ (d mod 2 ^ 64 = (1 - 2) mod 2 ^ 64)%Z /\ (in_int64 (1 - 2) -> d = (1 - 2)%Z) /\
    in_int64 p /\ (p mod 2 ^ 64 = (1 * 2) mod 2 ^ 64)%Z /\ (in_int64 (1 * 2) -> p = (1 * 2)%Z).
Proof.
  apply (primSub_primMul_wrap stack_1_2 (Some 185) (Some 181) (Some 1) 1 2).
  - decode.
  - decode.
  - decode.
Defined.
Lemma ObjEqual_number_values f p p' n n' :
  is_number (heap f) p n -> is_number (heap f) p' n' ->
  ObjEqual p p' f = Ok (n =? n')%Z f.
Proof.
  intros Hp Hp'. unfold ObjEqual.
  pose proof Hp as (o & q & Ho & Ht & Hq & Hc).
  pose proof Hp' as (o' & q' & Ho' & Ht' & Hq' & Hc').
  rewrite (bind_Ok _ _ _ _ _ (deref_ok _ _ _ Ho)).
  rewrite (bind_Ok _ _ _ _ _ (deref_ok _ _ _ Ho')).
  case_bool_decide as Eo.
  - subst o'. assert (n = n') as -> by congruence.
    unfold ret. by rewrite Z.eqb_refl.
  - rewrite (bind_Ok _ _ _ _ _ (is_number_tag _ _ _ TagNumber Hp)).
    rewrite bool_decide_eq_true_2 by done. cbn [negb].
    rewrite (bind_Ok _ _ _ _ _ (is_number_tag _ _ _ TagNumber Hp')).
    rewrite bool_decide_eq_true_2 by done. cbn [negb].
    rewrite (bind_Ok _ _ _ _ _ (get_Number_ok _ _ _ Hp)).
    by rewrite (bind_Ok _ _ _ _ _ (get_Number_ok _ _ _ Hp')).
Qed.

Lemma ObjEqual_structs f p p' o o' :
  obj_at (heap f) p o -> obj_at (heap f) p' o' ->
  o_Tag o <> TagNumber \/ o_Tag o' <> TagNumber ->
  ObjEqual p p' f = Ok (bool_decide (o = o')) f.
Proof.
  intros Ho Ho' Ht. unfold ObjEqual.
  rewrite (bind_Ok _ _ _ _ _ (deref_ok _ _ _ Ho)).
  rewrite (bind_Ok _ _ _ _ _ (deref_ok _ _ _ Ho')).
  case_bool_decide as Eo; [done|].
  rewrite (bind_Ok _ _ _ _ _ (is_ok _ _ _ TagNumber Ho)).
  case_bool_decide as E1; cbn [negb]; [|done].
  rewrite (bind_Ok _ _ _ _ _ (is_ok _ _ _ TagNumber Ho')).
  case_bool_decide as E2; cbn [negb]; [|done].
  destruct Ht; done.
Qed.

Lemma primEq_run f y x rest b :
  stack_top2 f y x rest ->
  ObjEqual y x (set_Stack rest f) = Ok b (set_Stack rest f) ->
  primEq f = Ok tt (pushed (if b then AtomTrue f else nil_ f) (set_Stack rest f)).
Proof.
  intros H2 He. unfold primEq. rewrite (Pop2_ok _ _ _ _ _ H2).
  rewrite (bind_Ok _ _ _ _ _ He).
  destruct b; unfold bind, gets; simpl; apply Push_ok.
Qed.

(** X10. [eq] on two Numbers compares their values: two Number objects
    allocated apart are equal when they hold the same [int64]; the
    result is the atom [t] or the nil object, pushed in place of the
    two operands. *)
Theorem primEq_numbers_by_value (f : Forsp) (y x rest : ptr) (a b : Z) :
  stack_top2 f y x rest ->
  is_number (heap f) y b -> is_number (heap f) x a ->
  primEq f
  = Ok tt (pushed (if (a =? b)%Z then AtomTrue f else nil_ f) (set_Stack rest f)).
Proof.
  intros H2 Hy Hx.
  rewrite (primEq_run f y x rest (b =? a)%Z H2).
  - by rewrite Z.eqb_sym.
  - exact (ObjEqual_number_values (set_Stack rest f) y x b a Hy Hx).
Qed.

Lemma primEq_numbers_by_value_witness :
  primEq stack_7_7
  = Ok tt (pushed (if (7 =? 7)%Z then AtomTrue stack_7_7 else nil_ stack_7_7)
             (set_Stack (Some 1) stack_7_7)).
Proof.
  apply (primEq_numbers_by_value stack_7_7 (Some 185) (Some 181) (Some 1) 7 7).
  - decode.
  - decode.
  - decode.
Defined.

(** X11. When one operand at least is not a Number, [eq] is identity of
    the two [Obj] structs (tag and payload pointers), not equality of
    contents: two pairs built apart are different even when their cars
    and their cdrs are the same objects. *)
Theorem primEq_identity_of_structs (f : Forsp) (y x rest : ptr) (oy ox : Obj) :
  stack_top2 f y x rest ->
  obj_at (heap f) y oy -> obj_at (heap f) x ox ->
  o_Tag oy <> TagNumber \/ o_Tag ox <> TagNumber ->
  primEq f
  = Ok tt (pushed (if bool_decide (oy = ox) then AtomTrue f else nil_ f)
             (set_Stack rest f)) /\
  (forall a d, is_pair (heap f) y a d -> is_pair (heap f) x a d ->
               o_Pair oy <> o_Pair ox ->
               primEq f = Ok tt (pushed (nil_ f) (set_Stack rest f))).
Proof.
  intros H2 Hy Hx Ht.
  assert (primEq f
          = Ok tt (pushed (if bool_decide (oy = ox) then AtomTrue f else nil_ f)
                     (set_Stack rest f))) as E.
  { apply (primEq_run f y x rest _ H2).
    exact (ObjEqual_structs (set_Stack rest f) y x oy ox Hy Hx Ht). }
  split; [exact E|].
  intros a d _ _ Hne. rewrite E.
  rewrite bool_decide_eq_false_2; [done|]. intros ->. done.
Qed.

Lemma primEq_identity_of_structs_witness :
  primEq stack_two_pairs
  = Ok tt (pushed (if bool_decide (mkObj None None None (Some 188) None None TagPair
                                   = mkObj None None None (Some 184) None None TagPair)
                   then AtomTrue stack_two_pairs else nil_ stack_two_pairs)
             (set_Stack (Some 1) stack_two_pairs)) /\
  (forall a d, is_pair (heap stack_two_pairs) (Some 189) a d ->
               is_pair (heap stack_two_pairs) (Some 185) a d ->
               o_Pair (mkObj None None None (Some 188) None None TagPair)
               <> o_Pair (mkObj None None None (Some 184) None None TagPair) ->
               primEq stack_two_pairs
               = Ok tt (pushed (nil_ stack_two_pairs) (set_Stack (Some 1) stack_two_pairs))).
Proof.
  apply (primEq_identity_of_structs stack_two_pairs (Some 189) (Some 185) (Some 1)).
  - decode.
  - decode.
  - decode.
  - left. by_eval.
Defined.

(* ================================================================== *)
(** * Interning and environments *)

Lemma intern_table f s tbl fuel :
  table_ok f tbl -> length tbl < fuel ->
  exists a f' tbl',
    intern fuel s f = Ok a f' /\
    table_ok f' tbl' /\ lookup_atom s tbl' = Some a /\
    length tbl' <= S (length tbl) /\
    (forall s' a', lookup_atom s' tbl = Some a' -> lookup_atom s' tbl' = Some a') /\
    nil_ f' = nil_ f.
Proof.
  intros Hok Hf. pose proof Hok as [(o & Ho & Ht) Htbl].
  destruct (lookup_atom s tbl) as [a|] eqn:Hl.
  - exists a, f, tbl. split; [exact (intern_found f s tbl fuel a Htbl Hf Hl)|]. repeat split; eauto.
  - exists (Some (S (length (heap f)))), (interned_new s f), ((Some (S (length (heap f))), s) :: tbl).
    split; [exact (intern_fresh f s tbl fuel Htbl Hf Hl)|].
    split.
    { split.
      - exists o. split; [|done]. simpl. by apply obj_at_ext.
      - exact (interned_new_table f s tbl Htbl (table_ok_allocated f tbl Hok)). }
    split; [apply lookup_atom_cons_eq|].
    split; [simpl; lia|].
    split; [|done].
    intros s' a' Hl'. rewrite lookup_atom_cons_ne; [done|]. congruence.
Qed.

Lemma table_ok_is_atom f tbl s a :
  table_ok f tbl -> lookup_atom s tbl = Some a -> is_atom (heap f) a s.
Proof. intros [_ Ht] Hl. by eapply atom_table_is_atom. Qed.

Lemma table_ok_found f tbl s a fuel :
  table_ok f tbl -> length tbl < fuel -> lookup_atom s tbl = Some a ->
  intern fuel s f = Ok a f.
Proof. intros [_ Ht] Hf Hl. by eapply intern_found. Qed.

(** X12. Interning is idempotent: [intern] on a text returns an Atom
    holding that text, and a second [intern] on the same text returns
    the very same object and changes nothing, neither the table nor the
    heap. *)
Theorem intern_same_text_same_atom
    (f : Forsp) (s : gostring) (tbl : list (ptr * gostring)) (fuel : nat) :
  table_ok f tbl -> length tbl + 1 < fuel ->
  exists a f',
    intern fuel s f = Ok a f' /\
    is_atom (heap f') a s /\
    intern fuel s f' = Ok a f'.
Proof.
  intros Hok Hf.
  destruct (intern_table f s tbl fuel Hok) as (a & f' & tbl' & E & Hok' & Hl & Hlen & _);
    [lia|].
  exists a, f'. split; [done|].
  split; [by eapply table_ok_is_atom|].
  eapply table_ok_found; [done| |done]. lia.
Qed.

Lemma initial_table_ok' : table_ok initial initial_table.
Proof.
  split; [|exact initial_table_ok].
  exists (mkObj (Some 0) None None None None None TagNil). split; [decode | reflexivity].
Qed.

Lemma intern_same_text_same_atom_witness :
  exists a f',
    intern 30 (str "square") initial = Ok a f' /\
    is_atom (heap f') a (str "square") /\
    intern 30 (str "square") f' = Ok a f'.
Proof.
  apply (intern_same_text_same_atom initial (str "square") initial_table 30).
  - exact initial_table_ok'.
  - vm_compute; lia.
Defined.

(** X13. Different texts are interned as different objects, and
    interning another text never changes which object a text was
    interned as: atoms can be compared by pointer. *)
Theorem intern_other_text_other_atom
    (f : Forsp) (s s' : gostring) (tbl : list (ptr * gostring)) (fuel : nat) :
  table_ok f tbl -> length tbl + 2 < fuel -> s <> s' ->
  exists a a' f1 f2,
    intern fuel s f = Ok a f1 /\
    intern fuel s' f1 = Ok a' f2 /\
    a <> a' /\
    is_atom (heap f2) a s /\ is_atom (heap f2) a' s' /\
    intern fuel s f2 = Ok a f2.
Proof.
  intros Hok Hf Hne.
  destruct (intern_table f s tbl fuel Hok) as (a & f1 & tbl1 & E1 & Hok1 & Hl1 & Hlen1 & _);
    [lia|].
  destruct (intern_table f1 s' tbl1 fuel Hok1)
    as (a' & f2 & tbl2 & E2 & Hok2 & Hl2 & Hlen2 & Hkeep & _); [lia|].
  exists a, a', f1, f2. split; [done|]. split; [done|].
  pose proof (table_ok_is_atom f2 tbl2 s a Hok2 (Hkeep _ _ Hl1)) as Ha.
  pose proof (table_ok_is_atom f2 tbl2 s' a' Hok2 Hl2) as Ha'.
  split.
  { intros ->. apply Hne. by eapply is_atom_inj. }
  split; [done|]. split; [done|].
  eapply table_ok_found; [done| |by apply Hkeep]. lia.
Qed.

Lemma intern_other_text_other_atom_witness :
  exists a a' f1 f2,
    intern 30 (str "x") initial = Ok a f1 /\
    intern 30 (str "y") f1 = Ok a' f2 /\
    a <> a' /\
    is_atom (heap f2) a (str "x") /\ is_atom (heap f2) a' (str "y") /\
    intern 30 (str "x") f2 = Ok a f2.
Proof.
  apply (intern_other_text_other_atom initial (str "x") (str "y") initial_table 30).
  - exact initial_table_ok'.
  - vm_compute; lia.
  - by_eval.
Defined.

Lemma obj_of_ext h l p o : obj_at h p o -> obj_of (h ++ l) p = obj_of h p.
Proof.
  intros Ho. pose proof (obj_at_ext h l p o Ho) as Ho'.
  apply obj_of_Some in Ho, Ho'. congruence.
Qed.

Lemma key_matches_ext h l key k o1 o2 :
  obj_at h key o1 -> obj_at h k o2 ->
  key_matches (h ++ l) key k = key_matches h key k.
Proof.
  intros H1 H2. unfold key_matches.
  by rewrite (obj_of_ext h l key o1 H1), (obj_of_ext h l k o2 H2).
Qed.

Lemma env_list_ext h l nl env bs :
  env_list h nl env bs -> env_list (h ++ l) nl env bs.
Proof.
  revert env. induction bs as [|[k v] bs IH]; intros env; simpl; [done|].
  intros (Hn & kv & rest & Hp & Hkv & (o & Ho) & Hr).
  split; [done|]. exists kv, rest.
  split; [by apply is_pair_ext|]. split; [by apply is_pair_ext|].
  split; [exists o; by apply obj_at_ext | by apply IH].
Qed.

Lemma first_match_ext h l nl env bs key o :
  obj_at h key o -> env_list h nl env bs ->
  first_match (h ++ l) key bs = first_match h key bs.
Proof.
  intros Hk. revert env. induction bs as [|[k v] bs IH]; intros env; [done|].
  intros (Hn & kv & rest & Hp & Hkv & (o2 & Ho2) & Hr).
  unfold first_match in *. simpl.
  rewrite (key_matches_ext h l key k o o2 Hk Ho2).
  destruct (key_matches h key k); [done|]. by eapply IH.
Qed.

Lemma EnvDefine_ok env key val f :
  EnvDefine env key val f
  = Ok (Some (S (S (S (length (heap f))))))
      (set_heap (heap f ++
                 [CPair key val;
                  CObj (mkObj None None None (Some (length (heap f))) None None TagPair);
                  CPair (Some (S (length (heap f)))) env;
                  CObj (mkObj None None None (Some (S (S (length (heap f))))) None None TagPair)])
         f).
Proof.
  unfold EnvDefine. rewrite (bind_Ok _ _ _ _ _ (NewPair_ok key val f)), NewPair_ok.
  unfold grow. simpl. rewrite length_app. simpl.
  rewrite <- app_assoc. simpl.
  replace (length (heap f) + 2) with (S (S (length (heap f)))) by lia. reflexivity.
Qed.

Lemma EnvDefine_list env key val f bs o :
  allocated (heap f) (nil_ f) -> obj_at (heap f) key o ->
  env_list (heap f) (nil_ f) env bs ->
  exists env' f' l,
    EnvDefine env key val f = Ok env' f' /\ f' = set_heap (heap f ++ l) f /\
    env_list (heap f') (nil_ f') env' ((key, val) :: bs).
Proof.
  intros Hnil Ho Hl. eexists _, _, _. split; [apply EnvDefine_ok|]. split; [reflexivity|].
  simpl. split.
  { destruct (nil_ f) as [n|]; [|done]. simpl in Hnil. intros [= E]. lia. }
  exists (Some (S (length (heap f)))), env. split.
  { exists (mkObj None None None (Some (S (S (length (heap f))))) None None TagPair),
      (S (S (length (heap f)))).
    split.
    - exists (S (S (S (length (heap f))))). split; [done|].
      rewrite lookup_app_r by lia. by replace (S (S (S (length (heap f)))) - length (heap f)) with 3 by lia.
    - split; [done|]. split; [done|].
      rewrite lookup_app_r by lia. by replace (S (S (length (heap f))) - length (heap f)) with 2 by lia. }
  split.
  { change (heap f ++ _) with (heap f ++ ([CPair key val;
       CObj (mkObj None None None (Some (length (heap f))) None None TagPair)] ++
       [CPair (Some (S (length (heap f)))) env;
        CObj (mkObj None None None (Some (S (S (length (heap f))))) None None TagPair)])).
    rewrite app_assoc. apply is_pair_ext. apply is_pair_new. }
  split; [exists o; by apply obj_at_ext | by apply env_list_ext].
Qed.

Lemma EnvFind_loop_hit f key env kv rest v fuel :
  env <> nil_ f -> is_pair (heap f) env kv rest -> is_pair (heap f) kv key v ->
  EnvFind_loop (S fuel) key env f = Ok v f.
Proof.
  intros Hn Hp Hkv. simpl.
  unfold bind at 1, gets, ptr_eq. rewrite bool_decide_eq_false_2 by done.
  rewrite (bind_Ok _ _ _ _ _ (car_ok _ _ _ _ Hp)).
  rewrite (bind_Ok _ _ _ _ _ (car_ok _ _ _ _ Hkv)).
  rewrite bool_decide_eq_true_2 by done.
  unfold bind at 1, ret.
  by apply (cdr_ok _ _ _ _ Hkv).
Qed.

(** The state [EnvDefine] leaves, and the lookup of the key just
    defined in it. *)
Lemma EnvFind_defined (f : Forsp) (env key val : ptr) (s : gostring) (fuel : nat) :
  is_atom (heap f) key s ->
  allocated (heap f) (nil_ f) ->
  EnvFind (S fuel) (Some (S (S (S (length (heap f)))))) key
    (set_heap (heap f ++
               [CPair key val;
                CObj (mkObj None None None (Some (length (heap f))) None None TagPair);
                CPair (Some (S (length (heap f)))) env;
                CObj (mkObj None None None (Some (S (S (length (heap f))))) None None TagPair)])
       f)
  = Ok val
      (set_heap (heap f ++
                 [CPair key val;
                  CObj (mkObj None None None (Some (length (heap f))) None None TagPair);
                  CPair (Some (S (length (heap f)))) env;
                  CObj (mkObj None None None (Some (S (S (length (heap f))))) None None TagPair)])
         f).
Proof.
  intros Hk Hnil.
  set (f' := set_heap _ f).
  assert (is_atom (heap f') key s) as Hk' by (by apply is_atom_ext).
  unfold EnvFind.
  rewrite (bind_Ok _ _ _ _ _ (is_atom_tag _ _ _ TagAtom Hk')).
  rewrite bool_decide_eq_true_2 by done. unfold bind at 1, ret.
  apply (EnvFind_loop_hit f' key _ (Some (S (length (heap f)))) env val fuel).
  - simpl. destruct (nil_ f) as [n|]; [|done]. simpl in Hnil. intros [= E]. lia.
  - exists (mkObj None None None (Some (S (S (length (heap f))))) None None TagPair),
      (S (S (length (heap f)))).
    split.
    + exists (S (S (S (length (heap f))))). split; [done|]. simpl.
      rewrite lookup_app_r by lia.
      by replace (S (S (S (length (heap f)))) - length (heap f)) with 3 by lia.
    + split; [done|]. split; [done|]. simpl.
      rewrite lookup_app_r by lia.
      by replace (S (S (length (heap f))) - length (heap f)) with 2 by lia.
  - simpl.
    change (heap f ++ _) with (heap f ++ ([CPair key val;
       CObj (mkObj None None None (Some (length (heap f))) None None TagPair)] ++
       [CPair (Some (S (length (heap f)))) env;
        CObj (mkObj None None None (Some (S (S (length (heap f))))) None None TagPair)])).
    rewrite app_assoc. apply is_pair_ext. apply is_pair_new.
Qed.

(** X14. A binding made by [EnvDefine] is the one [EnvFind] returns for
    its key, whatever the environment held before, well-formed or not:
    a new binding shadows every older one of the same key, after one
    step of the search. *)
Theorem EnvFind_after_EnvDefine
    (f : Forsp) (env key val : ptr) (s : gostring) (fuel : nat) :
  is_atom (heap f) key s ->
  allocated (heap f) (nil_ f) ->
  exists env' f',
    EnvDefine env key val f = Ok env' f' /\
    EnvFind (S fuel) env' key f' = Ok val f'.
Proof.
  intros Hk Hnil.
  pose proof (EnvDefine_ok env key val f) as Edef.
  pose proof (EnvFind_defined f env key val s fuel Hk Hnil) as Efind.
  eexists _, _. split; [exact Edef | exact Efind].
Qed.

Lemma EnvFind_after_EnvDefine_witness :
  exists env' f',
    EnvDefine (Some 187) (Some 181) (Some 1) (fst two_atoms) = Ok env' f' /\
    EnvFind 1 env' (Some 181) f' = Ok (Some 1) f'.
Proof.
  apply (EnvFind_after_EnvDefine (fst two_atoms) (Some 187) (Some 181) (Some 1) (str "x") 0).
  - decode.
  - by_eval.
Defined.

(** X15. [EnvDefine] leaves every other key as it was: looking up a key
    that does not pass the test against the new key gives, in the new
    environment, what it gave in the old one, failure included. *)
Theorem EnvDefine_keeps_other_keys
    (f : Forsp) (env key val k : ptr) (s : gostring) (o : Obj)
    (bs : list (ptr * ptr)) (fuel : nat) :
  is_atom (heap f) k s -> obj_at (heap f) key o ->
  allocated (heap f) (nil_ f) ->
  env_list (heap f) (nil_ f) env bs ->
  length bs < fuel ->
  key_matches (heap f) k key = false ->
  exists env' f',
    EnvDefine env key val f = Ok env' f' /\
    EnvFind fuel env k f
    = match first_match (heap f) k bs with
      | Some v => Ok v f
      | None => Panic (FAIL "Failed to find key in environment")
      end /\
    EnvFind (S fuel) env' k f'
    = match first_match (heap f) k bs with
      | Some v => Ok v f'
      | None => Panic (FAIL "Failed to find key in environment")
      end.
Proof.
  intros Hk Ho Hnil Hl Hf Hm. pose proof Hk as (ok & q & Hok & _).
  destruct (EnvDefine_list env key val f bs o Hnil Ho Hl) as (env' & f' & l & E & Ef & Hl').
  exists env', f'. split; [done|].
  split; [by eapply EnvFind_ok|].
  assert (is_atom (heap f') k s) as Hk' by (rewrite Ef; simpl; by apply is_atom_ext).
  rewrite (EnvFind_ok f' k s env' ((key, val) :: bs) _ Hk' Hl'); [|simpl; lia].
  assert (first_match (heap f') k ((key, val) :: bs) = first_match (heap f) k bs) as ->; [|done].
  rewrite Ef. simpl heap.
  rewrite <- (first_match_ext (heap f) l (nil_ f) env bs k ok Hok Hl).
  unfold first_match. simpl.
  by rewrite (key_matches_ext (heap f) l k key ok o Hok Ho), Hm.
Qed.

Lemma EnvDefine_keeps_other_keys_witness :
  exists env' f',
    EnvDefine (Some 187) (Some 3) (Some 1) (fst two_atoms) = Ok env' f' /\
    EnvFind 2 (Some 187) (Some 181) (fst two_atoms)
    = match first_match (heap (fst two_atoms)) (Some 181) [(Some 181, Some 183)] with
      | Some v => Ok v (fst two_atoms)
      | None => Panic (FAIL "Failed to find key in environment")
      end /\
    EnvFind 3 env' (Some 181) f'
    = match first_match (heap (fst two_atoms)) (Some 181) [(Some 181, Some 183)] with
      | Some v => Ok v f'
      | None => Panic (FAIL "Failed to find key in environment")
      end.
Proof.
  apply (EnvDefine_keeps_other_keys (fst two_atoms) (Some 187) (Some 3) (Some 1) (Some 181)
           (str "x") (mkObj None (Some 2) None None None None TagAtom)).
  - decode.
  - decode.
  - by_eval.
  - exact two_atoms_env.
  - simpl; lia.
  - by_eval.
Defined.

(* ================================================================== *)
(** * More on the reader *)

Lemma skipComment_loop_spec fuel : forall f,
  pos f <= length (input f) -> length (input f) - pos f < fuel ->
  exists b f1, skipComment_loop fuel f = Ok b f1 /\
               f1 = set_pos (pos f1) f /\
               pos f <= pos f1 <= length (input f) /\
               (b = false -> exists c, peek f1 = Ok c f1 /\ byte_eq c NUL = true).
Proof.
  induction fuel as [|fuel IH]; intros f Hle Hf; [lia|]. simpl.
  destruct (peek_cases f Hle) as [[E Hp]|(c & rest & Hd & Hp)];
    rewrite (bind_Ok _ _ _ _ _ Hp).
  - exists false, f. split; [done|]. split; [by rewrite set_pos_id|].
    split; [lia|]. intros _. by exists NUL.
  - destruct (byte_eq c NUL) eqn:Hz.
    { exists false, f. split; [done|]. split; [by rewrite set_pos_id|].
      split; [lia|]. intros _. by exists c. }
    rewrite (bind_Ok _ _ _ _ _ (advance_ok _ _ _ Hd Hz)).
    pose proof (drop_pos_le _ _ _ _ Hd) as Hle'.
    destruct (byte_eq c "010").
    { eexists true, _. split; [done|]. simpl. split; [done|]. split; [lia|done]. }
    destruct (IH (set_pos (S (pos f)) f)) as (b & f1 & E & Hfr & Hpos & Hb);
      [simpl; lia..|].
    exists b, f1. split; [done|]. simpl in *.
    split; [by rewrite Hfr|]. split; [lia|done].
Qed.

Lemma skipWhite_spec fuel : forall f,
  pos f <= length (input f) -> length (input f) - pos f < fuel ->
  exists f1 c,
    skipWhiteAndComments fuel f = Ok tt f1 /\
    f1 = set_pos (pos f1) f /\
    pos f <= pos f1 <= length (input f) /\
    peek f1 = Ok c f1 /\ stops_skip c = true.
Proof.
  induction fuel as [|fuel IH]; intros f Hle Hf; [lia|].
  rewrite skipWhiteAndComments_unfold.
  destruct (peek_cases f Hle) as [[E Hp]|(c & rest & Hd & Hp)];
    rewrite (bind_Ok _ _ _ _ _ Hp).
  - exists f, NUL. split; [done|]. split; [by rewrite set_pos_id|]. split; [lia|done].
  - destruct (byte_eq c NUL) eqn:Hz.
    { exists f, c. split; [done|]. split; [by rewrite set_pos_id|]. split; [lia|].
      split; [done|]. unfold stops_skip. by rewrite Hz. }
    pose proof (drop_pos_le _ _ _ _ Hd) as Hle'.
    destruct (isWhite c) eqn:Hw.
    { rewrite (bind_Ok _ _ _ _ _ (advance_ok _ _ _ Hd Hz)).
      destruct (IH (set_pos (S (pos f)) f)) as (f1 & c1 & E & Hfr & Hpos & Hpk);
        [simpl; lia..|].
      exists f1, c1. split; [done|]. simpl in *. split; [by rewrite Hfr|].
      split; [lia|done]. }
    destruct (byte_eq c ";") eqn:Hs.
    2:{ exists f, c. split; [done|]. split; [by rewrite set_pos_id|]. split; [lia|].
        split; [done|]. unfold stops_skip. by rewrite Hz, Hw, Hs. }
    rewrite (bind_Ok _ _ _ _ _ (advance_ok _ _ _ Hd Hz)).
    destruct (skipComment_loop_spec fuel (set_pos (S (pos f)) f))
      as (b & f1 & E & Hfr & Hpos & Hb); [simpl; lia..|].
    rewrite (bind_Ok _ _ _ _ _ E). simpl in *.
    destruct b.
    + destruct (IH f1) as (f2 & c2 & E2 & Hfr2 & Hpos2 & Hpk).
      { rewrite Hfr. simpl. lia. }
      { rewrite Hfr. simpl. lia. }
      exists f2, c2. split; [done|].
      split. { rewrite Hfr2. rewrite Hfr. done. }
      split; [|done]. rewrite Hfr in Hpos2. simpl in Hpos2. lia.
    + destruct (Hb eq_refl) as (c1 & Hpk & Hc1).
      exists f1, c1. split; [done|]. split; [by rewrite Hfr|]. split; [lia|].
      split; [done|]. unfold stops_skip. by rewrite Hc1.
Qed.



Lemma table_ok_frame f tbl f' :
  table_ok f tbl -> nil_ f' = nil_ f -> internedAtoms f' = internedAtoms f ->
  (exists l, heap f' = heap f ++ l) -> table_ok f' tbl.
Proof.
  intros [(o & Ho & Ht) Htbl] En Ei [l El]. split.
  - exists o. rewrite En, El. split; [by apply obj_at_ext|done].
  - rewrite En, Ei, El. by apply atom_table_ext.
Qed.

Lemma intern_table_shape f s tbl fuel :
  table_ok f tbl -> length tbl < fuel ->
  exists a f' l tbl',
    intern fuel s f = Ok a f' /\
    f' = set_internedAtoms (internedAtoms f') (set_heap (heap f ++ l) f) /\
    table_ok f' tbl' /\ lookup_atom s tbl' = Some a /\
    length tbl' <= S (length tbl) /\
    (forall s' a', lookup_atom s' tbl = Some a' -> lookup_atom s' tbl' = Some a').
Proof.
  intros Hok Hf.
  destruct (intern_table f s tbl fuel Hok Hf) as (a & f' & tbl' & E & Hok' & Hl & Hlen & Hkeep & _).
  destruct Hok as [Hnil Htbl].
  assert (allocated (heap f) (nil_ f)) as Hal.
  { destruct Hnil as (o & Ho & _). by eapply obj_at_allocated. }
  destruct (intern_spec f s tbl fuel Htbl Hal Hf) as (a2 & f2 & l & _ & E2 & Ef & _).
  rewrite E in E2. injection E2 as <- <-.
  by exists a, f', l, tbl'.
Qed.

(** What [readScalar] makes of a token. *)
Lemma readScalar_result f tbl tok rest fuel :
  table_ok f tbl ->
  drop (pos f) (input f) = tok ++ rest -> pos f <= length (input f) ->
  token_bytes tok -> ends_token rest ->
  length tbl + length tok < fuel ->
  exists x f' l tbl',
    readScalar fuel f = Ok x f' /\
    f' = set_internedAtoms (internedAtoms f')
           (set_pos (pos f + length tok) (set_heap (heap f ++ l) f)) /\
    table_ok f' tbl' /\ length tbl' <= S (length tbl) /\
    (forall s a, lookup_atom s tbl = Some a -> lookup_atom s tbl' = Some a) /\
    match parseInt64 tok with
    | Some n => is_number (heap f') x n /\ internedAtoms f' = internedAtoms f
    | None => is_atom (heap f') x tok /\ lookup_atom tok tbl' = Some x
    end.
Proof.
  intros Hok Hd Hle Ht He Hf.
  rewrite (readScalar_token f tok rest fuel Hd Hle Ht He); [|lia].
  destruct (parseInt64 tok) as [n|] eqn:Hp.
  - rewrite NewNumber_ok. eexists _, _, _, tbl. split; [reflexivity|].
    split; [reflexivity|]. split.
    { eapply table_ok_frame; [exact Hok|done|done|]. simpl. by eexists. }
    split; [lia|]. split; [done|]. split; [apply is_number_new | done].
  - assert (table_ok (set_pos (pos f + length tok) f) tbl) as Hok'.
    { eapply table_ok_frame; [exact Hok|done|done|]. exists []. simpl. by rewrite app_nil_r. }
    destruct (intern_table_shape _ tok tbl fuel Hok')
      as (a & f' & l & tbl' & E & Ef & Hok2 & Hl & Hlen & Hkeep); [lia|].
    exists a, f', l, tbl'. split; [done|].
    split; [rewrite Ef at 1; by destruct f|].
    split; [done|]. split; [done|]. split; [done|].
    split; [|done]. by eapply table_ok_is_atom.
Qed.
(** X17. [Read] at a token (a run of bytes that are not punctuation,
    followed by punctuation or the end of the input) consumes exactly
    the token and returns a fresh Number when the token is a decimal
    [int64], the interned Atom of the token otherwise, which a later
    [intern] of the same text finds again. *)
Theorem Read_token
    (f : Forsp) (tbl : list (ptr * gostring)) (c : ascii) (t rest : gostring) (fuel : nat) :
  table_ok f tbl -> readStack f = None ->
  drop (pos f) (input f) = (c :: t) ++ rest ->
  token_bytes (c :: t) -> ends_token rest ->
  length tbl + length (c :: t) + 3 <= fuel ->
  exists x f',
    Read fuel f = Ok x f' /\
    pos f' = pos f + length (c :: t) /\
    drop (pos f') (input f') = rest /\
    match parseInt64 (c :: t) with
    | Some n => is_number (heap f') x n /\ in_int64 n /\ internedAtoms f' = internedAtoms f
    | None => is_atom (heap f') x (c :: t) /\ intern fuel (c :: t) f' = Ok x f'
    end.
Proof.
  intros Hok Hrs Hd Ht He Hf.
  destruct fuel as [|[|fuel]]; [simpl in Hf; lia..|].
  assert (pos f <= length (input f)) as Hle.
  { pose proof (drop_pos_le _ _ _ _ Hd). lia. }
  rewrite (Read_at_scalar f c (t ++ rest) fuel Hrs Hd); [|by inversion Ht].
  destruct (readScalar_result f tbl (c :: t) rest (S fuel) Hok Hd Hle Ht He)
    as (x & f' & l & tbl' & E & Ef & Hok' & Hlen & Hkeep & Hres); [simpl in *; lia|].
  exists x, f'. split; [done|].
  split; [by rewrite Ef|].
  split. { rewrite Ef. exact (drop_after (input f) (pos f) (c :: t) rest Hd). }
  destruct (parseInt64 (c :: t)) as [n|] eqn:Hp.
  - destruct Hres as [Hn Hi]. split; [done|]. split; [by eapply parseInt64_range|done].
  - destruct Hres as [Ha Hl]. split; [done|].
    eapply table_ok_found; [exact Hok'| |done]. simpl in *. lia.
Qed.

Lemma Read_token_witness :
  exists x f',
    Read 30 (initial_on "-12 a") = Ok x f' /\
    pos f' = pos (initial_on "-12 a") + length (str "-12") /\
    drop (pos f') (input f') = str " a" /\
    match parseInt64 (str "-12") with
    | Some n => is_number (heap f') x n /\ in_int64 n /\
                internedAtoms f' = internedAtoms (initial_on "-12 a")
    | None => is_atom (heap f') x (str "-12") /\ intern 30 (str "-12") f' = Ok x f'
    end.
Proof.
  apply (Read_token (initial_on "-12 a") initial_table "-"%char (str "12") (str " a") 30).
  - apply initial_reader_ok.
  - reflexivity.
  - reflexivity.
  - by repeat constructor.
  - reflexivity.
  - vm_compute; lia.
Defined.

(** The body the two directive branches of [Read] share, after the
    directive byte: the atom [a] closes the three-element queue. *)
Lemma Read_directive_body (f : Forsp) (tbl : list (ptr * gostring)) (a : ptr)
    (tok rest : gostring) (n m : nat) :
  table_ok f tbl ->
  drop (pos f) (input f) = tok ++ rest -> pos f <= length (input f) ->
  token_bytes tok -> ends_token rest ->
  length tbl + length tok < n ->
  exists x f1 s1 s2,
    (s ← NewPair a None;
     x ← readScalar n;
     s ← NewPair x s;
     q ← gets AtomQuote;
     s ← NewPair q s;
     modify (set_readStack s);;
     Read (S m)) f = Ok (AtomQuote f) f1 /\
    readStack f1 = s2 /\ s2 <> None /\ s1 <> None /\
    is_pair (heap f1) s2 x s1 /\ is_pair (heap f1) s1 a None /\
    match parseInt64 tok with
    | Some k => is_number (heap f1) x k
    | None => is_atom (heap f1) x tok
    end /\
    pos f1 = pos f + length tok /\ input f1 = input f /\
    Stack f1 = Stack f /\ nil_ f1 = nil_ f.
Proof.
  intros Hok Hd Hle Ht He Hn.
  rewrite (bind_Ok _ _ _ _ _ (NewPair_ok a None f)).
  set (s1 := Some (S (length (heap f)))).
  set (fb := grow f _ _).
  assert (table_ok fb tbl) as Hokb by (by apply table_ok_grow).
  destruct (readScalar_result fb tbl tok rest n Hokb Hd Hle Ht He Hn)
    as (x & fd & l & tbl' & E & Ef & Hok' & Hlen & Hkeep & Hres).
  rewrite (bind_Ok _ _ _ _ _ E).
  rewrite (bind_Ok _ _ _ _ _ (NewPair_ok x s1 fd)).
  unfold bind at 1, gets.
  rewrite (bind_Ok _ _ _ _ _ (NewPair_ok _ _ _)).
  unfold bind at 1, modify.
  set (s2 := Some (S (length (heap fd)))).
  set (fe := grow fd _ _).
  set (s3 := Some (S (length (heap fe)))).
  set (ff := grow fe _ _).
  assert (heap fd = (heap f ++ [CPair a None;
            CObj (mkObj None None None (Some (length (heap f))) None None TagPair)]) ++ l)
    as Hh by (by rewrite Ef).
  assert (AtomQuote fe = AtomQuote f) as Eq by (simpl; by rewrite Ef).
  assert (is_pair (heap ff) s3 (AtomQuote f) s2) as Hp3.
  { rewrite <- Eq. apply is_pair_new. }
  assert (is_pair (heap ff) s2 x s1) as Hp2 by apply is_pair_ext, is_pair_new.
  assert (is_pair (heap ff) s1 a None) as Hp1.
  { simpl. rewrite Hh. apply is_pair_ext, is_pair_ext, is_pair_ext, is_pair_new. }
  exists x, (set_readStack s2 ff), s1, s2.
  split.
  { exact (Read_queue (set_readStack s3 ff) m s3 (AtomQuote f) s2 eq_refl ltac:(done) Hp3). }
  split; [done|]. split; [done|]. split; [done|].
  split; [done|]. split; [done|].
  split.
  { destruct (parseInt64 tok); destruct Hres as [Hx _]; simpl;
      [by apply is_number_ext, is_number_ext | by apply is_atom_ext, is_atom_ext]. }
  simpl. rewrite Ef. simpl. done.
Qed.



(** X19. [SetReader] replaces the text and rewinds the cursor but keeps
    the read-ahead queue: when a directive has been read in part, the
    next [Read] still returns the object that is due, not the first
    object of the new text. *)
Theorem SetReader_keeps_read_ahead
    (f : Forsp) (text : gostring) (x rs' : ptr) (fuel : nat) :
  readStack f <> None -> is_pair (heap f) (readStack f) x rs' ->
  (SetReader text;; Read (S fuel)) f
  = Ok x (set_readStack rs' (set_pos 0 (set_input text f))).
Proof.
  intros Hn Hp. unfold SetReader, bind, modify.
  exact (Read_queue (set_pos 0 (set_input text f)) fuel (readStack f) x rs' eq_refl Hn Hp).
Qed.
Lemma SetReader_keeps_read_ahead_witness :
  (SetReader (str "1 2");; Read 1) (snd after_caret)
  = Ok (Some 183)
      (set_readStack (Some 181) (set_pos 0 (set_input (str "1 2") (snd after_caret)))).
Proof.
  apply (SetReader_keeps_read_ahead (snd after_caret) (str "1 2") (Some 183) (Some 181) 0).
  - by_eval.
  - decode.
Defined.

Lemma bind_inv {A B} (m : M A) (k : A -> M B) f b f' :
  bind m k f = Ok b f' -> exists a f1, m f = Ok a f1 /\ k a f1 = Ok b f'.
Proof. unfold bind. destruct (m f) as [a f1| |]; [|done..]. by exists a, f1. Qed.

Lemma reads_pos f f' : reads f f' -> pos f <= pos f' /\ input f' = input f.
Proof. intros [(_ & _ & _ & _ & _ & _ & ? & ? & _) _]. done. Qed.

Lemma readList_closes fuel : forall f p f',
  readList fuel f = Ok p f' ->
  exists i, pos f <= i < pos f' /\ input f !! i = Some ")"%char.
Proof.
  induction fuel as [|n IH]; intros f p f' H; [done|].
  rewrite readList_unfold in H. unfold bind at 1, gets in H.
  assert (forall f1, pos f <= pos f1 -> input f1 = input f ->
            (first ← Read n; second ← readList n; NewPair first second) f1 = Ok p f' ->
            exists i, pos f <= i < pos f' /\ input f !! i = Some ")"%char) as Hcont.
  { intros f1 Hp1 Hi1 H1.
    apply bind_inv in H1 as (first & f2 & E1 & H1).
    apply bind_inv in H1 as (second & f3 & E2 & H1).
    apply Read_reads, reads_pos in E1 as [Hp2 Hi2].
    destruct (IH _ _ _ E2) as (i & Hi & Hc).
    rewrite NewPair_ok in H1. injection H1 as _ <-. simpl.
    exists i. split; [lia|]. by rewrite <- Hi1, <- Hi2. }
  destruct (ptr_eq (readStack f) None).
  - apply bind_inv in H as (closed & f2 & E & H).
    apply bind_inv in E as ([] & f1 & Es & E).
    apply skipWhiteAndComments_reads, reads_pos in Es as [Hp1 Hi1].
    apply bind_inv in E as (c & f1' & Ep & E).
    apply peek_inv in Ep as [-> Hc].
    destruct (byte_eq c ")") eqn:Hcl.
    + apply bind_inv in E as ([] & f3 & Ea & E).
      apply advance_inv in Ea as [-> Hle]. injection E as <- <-.
      injection H as _ <-. simpl.
      exists (pos f1). split; [lia|].
      apply Ascii.eqb_eq in Hcl as ->.
      destruct Hc as [Hc|[rest Hd]]; [done|].
      rewrite <- Hi1. rewrite <- (Nat.add_0_r (pos f1)), <- lookup_drop. by rewrite Hd.
    + injection E as <- <-. by apply (Hcont f1).
  - unfold bind at 1, ret in H. by apply (Hcont f).
Qed.

(** X20. A list is returned only when its closing parenthesis is
    there: [Read] at an opening parenthesis succeeds only if a [)]
    lies further on in the input, before the place where the cursor
    is left.  An unfinished list is never returned as a shorter
    one. *)
Theorem Read_list_needs_close
    (f : Forsp) (t : gostring) (fuel : nat) (p : ptr) (f' : Forsp) :
  readStack f = None ->
  drop (pos f) (input f) = "("%char :: t ->
  Read fuel f = Ok p f' ->
  exists i, pos f < i < pos f' /\ input f !! i = Some ")"%char.
Proof.
  intros Hrs Hd H. destruct fuel as [|[|n]]; [done| |].
  - rewrite Read_unfold in H. unfold bind at 1, gets in H. rewrite Hrs in H. by simpl in H.
  - rewrite (Read_at_open f t n Hrs Hd) in H.
    destruct (readList_closes _ _ _ _ H) as (i & Hi & Hc).
    exists i. simpl in *. split; [lia|done].
Qed.

Lemma Read_list_needs_close_witness :
  exists i, pos (initial_on "(a (b 12) -7 () 'c ^d)") < i < pos (snd read_sample) /\
            input (initial_on "(a (b 12) -7 () 'c ^d)") !! i = Some ")"%char.
Proof.
  apply (Read_list_needs_close (initial_on "(a (b 12) -7 () 'c ^d)")
           (str "a (b 12) -7 () 'c ^d)") 100 (fst read_sample)).
  - reflexivity.
  - reflexivity.
  - vm_compute; reflexivity.
Defined.

(** X21. [Read] keeps the reader's invariant (the interning table is a
    list of atoms in which [quote], [push] and [pop] are found, the
    read-ahead queue is a list of objects ended by Go's nil, the cursor
    is within the input), so that [Read] can be called again; atoms
    interned before are still interned; and the object returned is
    data: the nil object, an interned Atom, a Number in range or a
    nil-ended list of such, never a Closure or a Primitive. *)
Theorem Read_keeps_reader_invariant
    (f : Forsp) (tbl : list (ptr * gostring)) (q : list Val)
    (fuel : nat) (p : ptr) (f' : Forsp) :
  reader_ok f tbl q ->
  Read fuel f = Ok p f' ->
  exists tbl' q' v,
    reader_ok f' tbl' q' /\
    later f tbl f' tbl' /\
    repr (heap f') (nil_ f') tbl' p v /\ readable0 v.
Proof.
  intros Hok H.
  destruct (proj1 (Read_produces fuel f tbl q p f' Hok) H)
    as (tbl' & q' & v & H1 & H2 & H3 & H4 & _).
  by exists tbl', q', v.
Qed.

Lemma Read_keeps_reader_invariant_witness :
  exists tbl' q' v,
    reader_ok (snd read_sample) tbl' q' /\
    later (initial_on "(a (b 12) -7 () 'c ^d)") initial_table (snd read_sample) tbl' /\
    repr (heap (snd read_sample)) (nil_ (snd read_sample)) tbl' (fst read_sample) v /\
    readable0 v.
Proof.
  apply (Read_keeps_reader_invariant (initial_on "(a (b 12) -7 () 'c ^d)") initial_table [] 100).
  - apply initial_reader_ok.
  - vm_compute; reflexivity.
Defined.

(* ================================================================== *)
(** * More on the evaluator *)

Lemma env_of_list fuel h nl : forall p l,
  env_of fuel h nl p = Some l -> env_list h nl p l.
Proof.
  induction fuel as [|n IH]; intros p l; [done|]. simpl. unfold ptr_eq.
  case_bool_decide as Ep; [by intros [= <-]|].
  destruct (pair_of h p) as [[kv rest]|] eqn:E1; [|done].
  destruct (pair_of h kv) as [[k v]|] eqn:E2; [|done].
  destruct (env_of n h nl rest) as [l'|] eqn:E3; [|done].
  destruct (obj_of h k) as [o|] eqn:E4; [|done].
  intros [= <-]. simpl. split; [done|]. exists kv, rest.
  split; [by apply pair_of_Some|]. split; [by apply pair_of_Some|].
  split; [exists o; by apply obj_of_Some | by apply IH].
Qed.

Lemma primitive_of_Some h p fn : primitive_of h p = Some fn -> is_primitive h p fn.
Proof.
  unfold primitive_of, is_primitive.
  destruct (obj_of h p) as [[? ? ? ? ? [q|] []]|] eqn:E; try done.
  destruct (h !! q) as [[]|] eqn:Eq; try done. intros [= ->].
  apply obj_of_Some in E. eauto 10.
Qed.

Lemma initial_env_list : env_list (heap initial) (nil_ initial) (Env initial) initial_env.
Proof. apply (env_of_list 64). vm_compute. reflexivity. Qed.

Lemma eval_atom_found f fuel expr env s bs val :
  is_atom (heap f) expr s ->
  env_list (heap f) (nil_ f) env bs -> length bs < fuel ->
  first_match (heap f) expr bs = Some val ->
  eval fuel expr env f
  = (c ← is_ val TagClosure;
     if c then
       cl ← get_Closure val;
       ComputeEnv fuel (fst cl) (snd cl);;
       ret env
     else
       p ← is_ val TagPrimitive;
       if p then
         fn ← get_Primitive val;
         callPrimitive fuel fn env
       else Push val;; ret env) f.
Proof.
  intros Ha Hl Hf Hm. unfold eval, eval_with.
  rewrite (bind_Ok _ _ _ _ _ (is_atom_tag _ _ _ TagAtom Ha)).
  rewrite bool_decide_eq_true_2 by done.
  pose proof (EnvFind_ok f expr s env bs fuel Ha Hl Hf) as E. rewrite Hm in E.
  by rewrite (bind_Ok _ _ _ _ _ E).
Qed.

Lemma ComputeEnv_eval f fuel comp env cmd rest :
  is_pair (heap f) comp cmd rest -> comp <> nil_ f -> cmd <> AtomQuote f ->
  ComputeEnv (S fuel) comp env f
  = (env ← eval fuel cmd env; ComputeEnv fuel rest env) f.
Proof.
  intros Hp Hn Hq. rewrite (ComputeEnv_step _ _ _ _ _ _ Hp Hn).
  unfold ptr_eq. by rewrite bool_decide_eq_false_2.
Qed.

(** X22. An atom that no binding of the environment matches stops the
    evaluation: [ComputeEnv] fails with the message of [EnvFind] and
    nothing of the rest of the list is run. *)
Theorem ComputeEnv_unbound_atom
    (f : Forsp) (fuel : nat) (comp env cmd rest : ptr) (s : gostring)
    (bs : list (ptr * ptr)) :
  is_pair (heap f) comp cmd rest -> comp <> nil_ f -> cmd <> AtomQuote f ->
  is_atom (heap f) cmd s ->
  env_list (heap f) (nil_ f) env bs -> length bs < fuel ->
  first_match (heap f) cmd bs = None ->
  ComputeEnv (S fuel) comp env f = Panic (FAIL "Failed to find key in environment").
Proof.
  intros Hp Hn Hq Ha Hl Hf Hm.
  rewrite (ComputeEnv_eval _ _ _ _ _ _ Hp Hn Hq).
  apply bind_Panic. unfold eval, eval_with.
  rewrite (bind_Ok _ _ _ _ _ (is_atom_tag _ _ _ TagAtom Ha)).
  rewrite bool_decide_eq_true_2 by done.
  apply bind_Panic.
  pose proof (EnvFind_ok f cmd s env bs fuel Ha Hl Hf) as E. by rewrite Hm in E.
Qed.

Lemma ComputeEnv_unbound_atom_witness :
  ComputeEnv 31 (Some 185) (Some 179) (fst variable_program)
  = Panic (FAIL "Failed to find key in environment").
Proof.
  apply (ComputeEnv_unbound_atom (fst variable_program) 30 (Some 185) (Some 179) (Some 181)
           (Some 1) (str "n") initial_env).
  - decode.
  - by_eval.
  - by_eval.
  - decode.
  - apply (env_of_list 64). vm_compute. reflexivity.
  - vm_compute; lia.
  - vm_compute; reflexivity.
Defined.
(** X23. An atom bound to a value that is neither a Closure nor a
    Primitive is a variable: evaluating it pushes the bound value, the
    first whose key passes the test, and goes on with the rest of the
    list in the same environment. *)
Theorem ComputeEnv_variable
    (f : Forsp) (fuel : nat) (comp env cmd rest val : ptr) (s : gostring)
    (bs : list (ptr * ptr)) (o : Obj) :
  is_pair (heap f) comp cmd rest -> comp <> nil_ f -> cmd <> AtomQuote f ->
  is_atom (heap f) cmd s ->
  env_list (heap f) (nil_ f) env bs -> length bs < fuel ->
  first_match (heap f) cmd bs = Some val ->
  obj_at (heap f) val o -> o_Tag o <> TagClosure -> o_Tag o <> TagPrimitive ->
  ComputeEnv (S fuel) comp env f = ComputeEnv fuel rest env (pushed val f).
Proof.
  intros Hp Hn Hq Ha Hl Hf Hm Ho Hc Hpr.
  rewrite (ComputeEnv_eval _ _ _ _ _ _ Hp Hn Hq).
  unfold bind at 1.
  rewrite (eval_atom_found f fuel cmd env s bs val Ha Hl Hf Hm).
  rewrite (bind_Ok _ _ _ _ _ (is_ok _ _ _ TagClosure Ho)).
  rewrite bool_decide_eq_false_2 by done.
  rewrite (bind_Ok _ _ _ _ _ (is_ok _ _ _ TagPrimitive Ho)).
  rewrite bool_decide_eq_false_2 by done.
  by rewrite (bind_Ok _ _ _ _ _ (Push_ok val f)).
Qed.

Lemma ComputeEnv_variable_witness :
  ComputeEnv 31 (Some 185) (Some 191) (fst variable_program)
  = ComputeEnv 30 (Some 1) (Some 191) (pushed (Some 187) (fst variable_program)).
Proof.
  apply (ComputeEnv_variable (fst variable_program) 30 (Some 185) (Some 191) (Some 181)
           (Some 1) (Some 187) (str "n") ((Some 181, Some 187) :: initial_env)
           (mkObj None None (Some 186) None None None TagNumber)).
  - decode.
  - by_eval.
  - by_eval.
  - decode.
  - apply (env_of_list 64). vm_compute. reflexivity.
  - vm_compute; lia.
  - vm_compute; reflexivity.
  - decode.
  - by_eval.
  - by_eval.
Defined.

Lemma ComputeEnv_primitive f fuel comp env cmd rest s bs val fn :
  is_pair (heap f) comp cmd rest -> comp <> nil_ f -> cmd <> AtomQuote f ->
  is_atom (heap f) cmd s ->
  env_list (heap f) (nil_ f) env bs -> length bs < fuel ->
  first_match (heap f) cmd bs = Some val ->
  is_primitive (heap f) val fn ->
  ComputeEnv (S fuel) comp env f
  = (env' ← callPrimitive fuel fn env; ComputeEnv fuel rest env') f.
Proof.
  intros Hp Hn Hq Ha Hl Hf Hm Hprim.
  rewrite (ComputeEnv_eval _ _ _ _ _ _ Hp Hn Hq).
  unfold bind at 1.
  rewrite (eval_atom_found f fuel cmd env s bs val Ha Hl Hf Hm).
  pose proof Hprim as (o & q & Ho & Htag & Hq' & Hc).
  rewrite (bind_Ok _ _ _ _ _ (is_ok _ _ _ TagClosure Ho)).
  rewrite bool_decide_eq_false_2 by (by rewrite Htag).
  rewrite (bind_Ok _ _ _ _ _ (is_ok _ _ _ TagPrimitive Ho)).
  rewrite bool_decide_eq_true_2 by done.
  by rewrite (bind_Ok _ _ _ _ _ (get_Primitive_ok _ _ _ Hprim)).
Qed.

(** X24. [pop] binds for the rest of the list: when the atom run is
    bound to the primitive [pop], the key on top of the stack and the
    value under it are popped, and the rest of the list is run in an
    environment in which the key is found with that value.  The key is
    not checked: the binding is made whatever its variant. *)
Theorem ComputeEnv_pop_binds
    (f : Forsp) (fuel : nat) (comp env cmd rest prim k v st : ptr)
    (s ks : gostring) (bs : list (ptr * ptr)) :
  is_pair (heap f) comp cmd rest -> comp <> nil_ f -> cmd <> AtomQuote f ->
  is_atom (heap f) cmd s ->
  env_list (heap f) (nil_ f) env bs -> length bs < fuel ->
  first_match (heap f) cmd bs = Some prim ->
  is_primitive (heap f) prim PrimPop ->
  stack_top2 f k v st ->
  is_atom (heap f) k ks ->
  allocated (heap f) (nil_ f) ->
  exists env' f',
    EnvDefine env k v (set_Stack st f) = Ok env' f' /\
    ComputeEnv (S fuel) comp env f = ComputeEnv fuel rest env' f' /\
    EnvFind (S fuel) env' k f' = Ok v f' /\
    Stack f' = st.
Proof.
  intros Hp Hn Hq Ha Hl Hf Hm Hprim H2 Hk Hnil.
  pose proof (EnvDefine_ok env k v (set_Stack st f)) as E.
  pose proof (EnvFind_defined (set_Stack st f) env k v ks fuel Hk Hnil) as Hfind.
  eexists _, _. split; [exact E|]. split.
  - rewrite (ComputeEnv_primitive f fuel comp env cmd rest s bs prim PrimPop
               Hp Hn Hq Ha Hl Hf Hm Hprim).
    unfold callPrimitive, primPop.
    unfold bind at 1. rewrite (Pop2_ok _ _ _ _ _ H2). by rewrite E.
  - split; [exact Hfind | reflexivity].
Qed.

Lemma ComputeEnv_pop_binds_witness :
  exists env' f',
    EnvDefine (Some 179) (Some 183) (Some 187) (set_Stack (Some 1) (fst pop_program))
    = Ok env' f' /\
    ComputeEnv 31 (Some 181) (Some 179) (fst pop_program)
    = ComputeEnv 30 (Some 1) env' f' /\
    EnvFind 31 env' (Some 183) f' = Ok (Some 187) f' /\
    Stack f' = Some 1.
Proof.
  apply (ComputeEnv_pop_binds (fst pop_program) 30 (Some 181) (Some 179) (Some 15) (Some 1)
           (Some 25) (Some 183) (Some 187) (Some 1) (str "pop") (str "n") initial_env).
  - decode.
  - by_eval.
  - by_eval.
  - decode.
  - apply (env_of_list 64). vm_compute. reflexivity.
  - vm_compute; lia.
  - vm_compute; reflexivity.
  - apply primitive_of_Some. vm_compute. reflexivity.
  - decode.
  - decode.
  - by_eval.
Defined.

Lemma eval_number f fuel expr env n :
  is_number (heap f) expr n -> eval fuel expr env f = Ok env (pushed expr f).
Proof.
  intros Hn. unfold eval, eval_with.
  rewrite (bind_Ok _ _ _ _ _ (is_number_tag _ _ _ TagAtom Hn)).
  rewrite bool_decide_eq_false_2 by done.
  rewrite (bind_Ok _ _ _ _ _ (is_number_tag _ _ _ TagNil Hn)).
  rewrite (bind_Ok _ _ _ _ _ (is_number_tag _ _ _ TagPair Hn)).
  rewrite !bool_decide_eq_false_2 by done. simpl.
  by rewrite (bind_Ok _ _ _ _ _ (Push_ok expr f)).
Qed.

Lemma number_not_atom h p n q s : is_number h p n -> is_atom h q s -> p <> q.
Proof.
  intros (o & ? & Ho & Ht & _) (o' & ? & Ho' & Ht' & _) ->.
  assert (o = o') as -> by eauto using obj_at_inj. congruence.
Qed.

Lemma ComputeEnv_number f fuel comp env x rest n qs :
  is_pair (heap f) comp x rest -> comp <> nil_ f ->
  is_number (heap f) x n -> is_atom (heap f) (AtomQuote f) qs ->
  ComputeEnv (S fuel) comp env f = ComputeEnv fuel rest env (pushed x f).
Proof.
  intros Hp Hn Hx Hq.
  rewrite (ComputeEnv_eval _ _ _ _ _ _ Hp Hn (number_not_atom _ _ _ _ _ Hx Hq)).
  by rewrite (bind_Ok _ _ _ _ _ (eval_number f fuel x env n Hx)).
Qed.


(** X26. [New] builds, whatever budget of 19 or more it is given, one
    and the same state: the stack is empty, nothing is queued in the
    reader, the reader's invariant holds, and the environment binds
    each of the seventeen names of the source to its host function.
    The atoms [push] and [pop] these bindings use are the very objects
    [AtomPush] and [AtomPop] the reader puts in a directive's
    expansion, and [t] and [quote] are interned but not bound. *)
Theorem New_initial_state (k : nat) :
  New (19 + k) Forsp_zero = Ok tt initial /\
  Stack initial = nil_ initial /\ readStack initial = None /\
  reader_ok initial initial_table [] /\
  lookup_atom (str "t") initial_table = Some (AtomTrue initial) /\
  env_list (heap initial) (nil_ initial) (Env initial) initial_env /\
  Forall (fun nf : string * Primitive =>
            exists key val,
              lookup_atom (str (fst nf)) initial_table = Some key /\
              first_match (heap initial) key initial_env = Some val /\
              is_primitive (heap initial) val (snd nf))
         primitive_names /\
  first_match (heap initial) (AtomTrue initial) initial_env = None /\
  first_match (heap initial) (AtomQuote initial) initial_env = None.
Proof.
  split; [vm_compute; reflexivity|].
  split; [reflexivity|]. split; [reflexivity|].
  split; [exact (initial_reader_ok "")|].
  split; [vm_compute; reflexivity|].
  split; [exact initial_env_list|].
  split.
  { unfold primitive_names.
    repeat (apply Forall_cons; split;
            [eexists _, _; split; [vm_compute; reflexivity|];
             split; [vm_compute; reflexivity|];
             apply primitive_of_Some; vm_compute; reflexivity|]).
    constructor. }
  split; vm_compute; reflexivity.
Qed.

(* ================================================================== *)
(** * The printed form, and directives inside lists *)

(** X27. [PrintRecurse] prints a value built of nil, atoms, numbers and
    pairs as [show] writes it: the text of an atom, the decimal form of
    a number, [()] for nil, a list between parentheses with one blank
    between its elements, and a pair whose tail is not a list with the
    tail after [ . ]; nothing but the output changes. *)
Theorem PrintRecurse_shows_value
    (f : Forsp) (tbl : list (ptr * gostring)) (p : ptr) (v : Val) (fuel : nat) :
  table_ok f tbl -> repr (heap f) (nil_ f) tbl p v -> size v <= fuel ->
  PrintRecurse fuel p f = Ok tt (set_stdout (stdout f ++ show v) f).
Proof.
  intros Hok Hr Hf.
  destruct (print_value v f tbl p fuel Hok Hr Hf) as [Hprint _].
  exact Hprint.
Qed.

Lemma stack_two_pairs_table : table_ok stack_two_pairs initial_table.
Proof.
  apply (table_ok_frame initial initial_table); [exact initial_table_ok'|done|done|].
  exists (drop 180 (heap stack_two_pairs)). vm_compute. reflexivity.
Qed.

Lemma PrintRecurse_shows_value_witness :
  PrintRecurse 10 (Some 185) stack_two_pairs
  = Ok tt (set_stdout (stdout stack_two_pairs ++ show (VPair (VNum 1) (VNum 2)))
             stack_two_pairs).
Proof.
  apply (PrintRecurse_shows_value stack_two_pairs initial_table).
  - exact stack_two_pairs_table.
  - exists (Some 181), (Some 183). split; [decode|]. simpl. split; decode.
  - simpl; lia.
Defined.

Lemma Read_at_directive (f : Forsp) (tbl : list (ptr * gostring)) (c : ascii)
    (tok rest : gostring) (n : nat) :
  c = "^"%char \/ c = "$"%char ->
  table_ok f tbl -> readStack f = None ->
  drop (pos f) (input f) = c :: tok ++ rest ->
  token_bytes tok -> ends_token rest ->
  length tbl + length tok < S n ->
  exists x f1 s1 s2,
    Read (S (S n)) f = Ok (AtomQuote f) f1 /\
    readStack f1 = s2 /\ s2 <> None /\ s1 <> None /\
    is_pair (heap f1) s2 x s1 /\
    is_pair (heap f1) s1 (if byte_eq c "^" then AtomPush f else AtomPop f) None /\
    match parseInt64 tok with
    | Some k => is_number (heap f1) x k
    | None => is_atom (heap f1) x tok
    end /\
    pos f1 = pos f + 1 + length tok /\ input f1 = input f /\
    nil_ f1 = nil_ f /\ (exists l, heap f1 = heap f ++ l).
Proof.
  intros Hc Hok Hrs Hd Ht He Hf.
  pose proof (drop_pos_le _ _ _ _ Hd) as Hle.
  pose (fa := set_pos (S (pos f)) f).
  assert (table_ok fa tbl) as Hoka.
  { eapply table_ok_frame; [exact Hok|done|done|]. exists []. simpl. by rewrite app_nil_r. }
  assert (drop (pos fa) (input fa) = tok ++ rest) as Hda by (by eapply drop_next).
  destruct (Read_directive_body fa tbl (if byte_eq c "^" then AtomPush f else AtomPop f)
              tok rest (S n) n Hoka Hda Hle Ht He Hf)
    as (x & f1 & s1 & s2 & E & Hrs1 & Hn2 & Hn1 & Hp2 & Hp1 & Hres & Hpos & Hin & _ & Hnl).
  exists x, f1, s1, s2.
  assert (stops_skip c = true /\ byte_eq c NUL = false /\ byte_eq c "'" = false)
    as (Hs & Hz & Hq) by (destruct Hc as [-> | ->]; done).
  assert (Read (S (S n)) f = Ok (AtomQuote f) f1) as ER.
  { rewrite Read_unfold. queue_empty Hrs.
    rewrite (bind_Ok _ _ _ _ _ (skipWhite_stop f n _ (peek_at _ _ _ Hd) Hs)).
    rewrite (bind_Ok _ _ _ _ _ (peek_at _ _ _ Hd)). rewrite Hz, Hq.
    destruct Hc as [-> | ->].
    - change (byte_eq "^" "^") with true. cbv iota.
      rewrite (bind_Ok _ _ _ _ _ (advance_ok _ _ _ Hd eq_refl)).
      unfold bind at 1, gets. exact E.
    - change (byte_eq "$" "^") with false. change (byte_eq "$" "$") with true. cbv iota.
      rewrite (bind_Ok _ _ _ _ _ (advance_ok _ _ _ Hd eq_refl)).
      unfold bind at 1, gets. exact E. }
  split; [exact ER|].
  repeat (split; [done|]).
  split; [rewrite Hpos; simpl; lia|]. split; [done|]. split; [done|].
  apply Read_reads in ER. destruct ER as [(_ & _ & _ & _ & _ & _ & _ & _ & Hh & _) _].
  exact Hh.
Qed.

Lemma readList_queued f fuel :
  readStack f <> None ->
  readList (S fuel) f
  = (first ← Read fuel; second ← readList fuel; NewPair first second) f.
Proof.
  intros Hn. rewrite readList_unfold. unfold bind at 1, gets.
  unfold ptr_eq. rewrite bool_decide_eq_false_2 by done. by unfold bind at 1, ret.
Qed.
Lemma fresh_not_nil h (p : ptr) : allocated h p -> Some (S (length h)) <> p.
Proof. intros H E. symmetry in E. revert E. by apply allocated_fresh0. Qed.

(** X28. A directive inside a list is expanded in place, also when the
    closing parenthesis follows at once: [(^tok)] reads as the list of
    [quote], the scalar and [push] ([pop] for [$]).  [readList] does not
    look for the parenthesis while objects are queued, so the
    expansion is neither cut short nor carried over to the next
    list. *)
Theorem Read_directive_in_list
    (f : Forsp) (tbl : list (ptr * gostring)) (c : ascii) (tok rest : gostring) (fuel : nat) :
  c = "^"%char \/ c = "$"%char ->
  table_ok f tbl -> readStack f = None ->
  drop (pos f) (input f) = "("%char :: c :: tok ++ ")"%char :: rest ->
  token_bytes tok ->
  length tbl + length tok + 6 <= fuel ->
  exists p x f',
    Read fuel f = Ok p f' /\
    obj_list (heap f') (nil_ f') p
      [AtomQuote f; x; if byte_eq c "^" then AtomPush f else AtomPop f] /\
    match parseInt64 tok with
    | Some k => is_number (heap f') x k
    | None => is_atom (heap f') x tok
    end /\
    readStack f' = None /\ drop (pos f') (input f') = rest.
Proof.
  intros Hc Hok Hrs Hd Ht Hf.
  destruct fuel as [|[|[|[|[|[|n]]]]]]; [lia..|].
  rewrite (Read_at_open f _ _ Hrs Hd).
  set (fa := set_pos (S (pos f)) f).
  assert (drop (pos fa) (input fa) = c :: tok ++ ")"%char :: rest) as Hda
    by (by eapply drop_next).
  assert (stops_skip c = true /\ byte_eq c ")" = false) as [Hs Hcl]
    by (destruct Hc as [-> | ->]; done).
  rewrite (readList_at_element fa c _ _ Hrs Hda Hs Hcl).
  assert (table_ok fa tbl) as Hoka.
  { eapply table_ok_frame; [exact Hok|done|done|]. exists []. simpl. by rewrite app_nil_r. }
  destruct (Read_at_directive fa tbl c tok (")"%char :: rest) (S (S n)) Hc Hoka Hrs Hda Ht eq_refl)
    as (x & f1 & s1 & s2 & E1 & Hrs1 & Hn2 & Hn1 & Hp2 & Hp1 & Hres & Hpos & Hin & Hnl & [l Hl]);
    [lia|].
  set (a := if byte_eq c "^" then AtomPush f else AtomPop f) in *.
  set (f2 := set_readStack s1 f1).
  set (f3 := set_readStack None f2).
  assert (drop (pos f3) (input f3) = ")"%char :: rest) as Hd3.
  { simpl. rewrite Hpos, Hin. simpl pos. simpl input.
    replace (S (pos f) + 1 + length tok) with (S (S (pos f)) + length tok) by lia.
    apply (drop_after (input f) (S (S (pos f))) tok (")"%char :: rest)).
    apply (drop_next _ (S (pos f)) c). exact Hda. }
  set (f4 := set_pos (S (pos f3)) f3).
  set (p3 := Some (S (length (heap f4)))).
  set (f5 := grow f4 (CPair a (nil_ f3))
               (mkObj None None None (Some (length (heap f4))) None None TagPair)).
  set (p2 := Some (S (length (heap f5)))).
  set (f6 := grow f5 (CPair x p3)
               (mkObj None None None (Some (length (heap f5))) None None TagPair)).
  set (p1 := Some (S (length (heap f6)))).
  set (f7 := grow f6 (CPair (AtomQuote fa) p2)
               (mkObj None None None (Some (length (heap f6))) None None TagPair)).
  assert (readList (S (S (S n))) f2 = Ok p3 f5) as EL2.
  { rewrite readList_queued by done.
    rewrite (bind_Ok _ _ _ _ _ (Read_queue f2 _ s1 a None eq_refl Hn1 Hp1)).
    rewrite (bind_Ok _ _ _ _ _ (readList_at_close f3 rest n eq_refl Hd3)).
    apply NewPair_ok. }
  assert (readList (S (S (S (S n)))) f1 = Ok p2 f6) as EL1.
  { rewrite readList_queued by (by rewrite Hrs1).
    rewrite (bind_Ok _ _ _ _ _ (Read_queue f1 _ s2 x s1 Hrs1 Hn2 Hp2)).
    rewrite (bind_Ok _ _ _ _ _ EL2).
    apply NewPair_ok. }
  rewrite (bind_Ok _ _ _ _ _ E1), (bind_Ok _ _ _ _ _ EL1), NewPair_ok.
  fold f7 p1.
  assert (allocated (heap f4) (nil_ f7)) as Hal.
  { simpl. rewrite Hnl, Hl. apply allocated_ext. by eapply (table_ok_allocated f tbl). }
  exists p1, x, f7. split; [reflexivity|].
  split.
  { split. { apply fresh_not_nil. do 2 apply allocated_ext. exact Hal. }
    exists p2. split; [exact (is_pair_new _ _ _)|].
    split. { apply fresh_not_nil. apply allocated_ext. exact Hal. }
    exists p3. split; [exact (is_pair_ext _ _ _ _ _ (is_pair_new _ _ _))|].
    split. { apply fresh_not_nil. exact Hal. }
    exists (nil_ f3). split; [|simpl; by rewrite Hnl].
    exact (is_pair_ext _ _ _ _ _ (is_pair_ext _ _ _ _ _ (is_pair_new _ _ _))). }
  split.
  { destruct (parseInt64 tok); simpl;
      [by do 3 apply is_number_ext | by do 3 apply is_atom_ext]. }
  split; [done|].
  simpl. eapply drop_next. exact Hd3.
Qed.

Lemma Read_directive_in_list_witness :
  exists p x f',
    Read 30 (initial_on "(^x)") = Ok p f' /\
    obj_list (heap f') (nil_ f') p
      [AtomQuote (initial_on "(^x)"); x;
       if byte_eq "^" "^" then AtomPush (initial_on "(^x)") else AtomPop (initial_on "(^x)")] /\
    match parseInt64 (str "x") with
    | Some k => is_number (heap f') x k
    | None => is_atom (heap f') x (str "x")
    end /\
    readStack f' = None /\ drop (pos f') (input f') = [].
Proof.
  apply (Read_directive_in_list (initial_on "(^x)") initial_table "^"%char (str "x") [] 30).
  - by left.
  - apply initial_reader_ok.
  - reflexivity.
  - reflexivity.
  - by repeat constructor.
  - vm_compute; lia.
Defined.

(* ================================================================== *)
(** * Termination of the reader *)

Lemma chain_ext h l rs k : chain h rs k -> chain (h ++ l) rs k.
Proof.
  revert rs. induction k as [|k IH]; intros rs; simpl; [done|].
  intros (Hn & x & rs' & Hp & Hc). split; [done|].
  exists x, rs'. split; [by apply is_pair_ext | by apply IH].
Qed.

Lemma queue_chain h nl tbl rs q : queue h nl tbl rs q -> chain h rs (length q).
Proof.
  revert rs. induction q as [|v q IH]; intros rs; simpl; [done|].
  intros (Hn & x & rs' & Hp & _ & _ & Hq). split; [done|].
  exists x, rs'. split; [done | by apply IH].
Qed.

Lemma token_split (s : gostring) :
  exists tok rest, s = tok ++ rest /\ token_bytes tok /\ ends_token rest.
Proof.
  induction s as [|c s (tok & rest & -> & Ht & He)].
  - exists [], []. split; [done|]. split; [constructor|done].
  - destruct (isPunctuation c) eqn:Hc.
    + exists [], (c :: tok ++ rest). split; [done|]. split; [constructor|done].
    + exists (c :: tok), rest. split; [done|]. split; [by constructor|done].
Qed.

Lemma reader_wf_frame f tbl k f' :
  reader_wf f tbl k ->
  nil_ f' = nil_ f -> internedAtoms f' = internedAtoms f -> readStack f' = readStack f ->
  (exists l, heap f' = heap f ++ l) -> pos f' <= length (input f') ->
  reader_wf f' tbl k.
Proof.
  intros (Hok & Hch & _) En Ei Er [l El] Hp.
  split; [eapply table_ok_frame; eauto|].
  split; [|done]. rewrite Er, El. by apply chain_ext.
Qed.

(** [readScalar] always returns: the bytes up to the next punctuation
    are its token, which may be empty. *)
Lemma readScalar_total f tbl m :
  table_ok f tbl -> pos f <= length (input f) ->
  length tbl + (length (input f) - pos f) < m ->
  exists x f' tbl' (tok : gostring),
    readScalar m f = Ok x f' /\
    table_ok f' tbl' /\ length tbl' <= S (length tbl) /\
    pos f' = pos f + length tok /\ pos f' <= length (input f') /\
    input f' = input f /\ readStack f' = readStack f /\
    (exists l, heap f' = heap f ++ l) /\
    (forall c t, drop (pos f) (input f) = c :: t -> isPunctuation c = false ->
                 1 <= length tok).
Proof.
  intros Hok Hpos Hm.
  destruct (token_split (drop (pos f) (input f))) as (tok & rest & Hd & Ht & He).
  assert (length tok + length rest = length (input f) - pos f) as Hlen.
  { rewrite <- length_app, <- Hd. by rewrite length_drop. }
  destruct (readScalar_result f tbl tok rest m Hok Hd Hpos Ht He)
    as (x & f' & l & tbl' & E & Ef & Hok' & Hl & _ & _); [lia|].
  exists x, f', tbl', tok. split; [done|]. split; [done|]. split; [done|].
  split; [by rewrite Ef|]. split; [rewrite Ef; simpl; lia|].
  split; [by rewrite Ef|]. split; [by rewrite Ef|].
  split; [exists l; by rewrite Ef|].
  intros c t Hc Hp. destruct tok as [|c' tok]; [|simpl; lia].
  simpl in Hd. rewrite Hc in Hd. subst rest. simpl in He. congruence.
Qed.

(** The body of a directive branch always returns the atom [quote] and
    leaves two objects queued. *)
Lemma directive_total f tbl a m :
  table_ok f tbl -> pos f <= length (input f) ->
  length tbl + (length (input f) - pos f) < m -> 1 <= m ->
  exists f' tbl',
    (s ← NewPair a None;
     x ← readScalar m;
     s ← NewPair x s;
     q ← gets AtomQuote;
     s ← NewPair q s;
     modify (set_readStack s);;
     Read m) f = Ok (AtomQuote f) f' /\
    reader_wf f' tbl' 2 /\ cost f' tbl' 2 <= cost f tbl 0 + 3.
Proof.
  intros Hok Hpos Hm H1. destruct m as [|m]; [lia|].
  rewrite (bind_Ok _ _ _ _ _ (NewPair_ok a None f)).
  set (s1 := Some (S (length (heap f)))).
  set (fb := grow f _ _).
  assert (table_ok fb tbl) as Hokb by (by apply table_ok_grow).
  destruct (readScalar_total fb tbl (S m) Hokb Hpos Hm)
    as (x & fd & tbl' & tok & E & Hok' & Hlen & Hp' & Hple & Hin & Hrs & [l Hl] & _).
  rewrite (bind_Ok _ _ _ _ _ E).
  rewrite (bind_Ok _ _ _ _ _ (NewPair_ok x s1 fd)).
  unfold bind at 1, gets.
  rewrite (bind_Ok _ _ _ _ _ (NewPair_ok _ _ _)).
  unfold bind at 1, modify.
  set (s2 := Some (S (length (heap fd)))).
  set (fe := grow fd _ _).
  set (s3 := Some (S (length (heap fe)))).
  set (ff := grow fe _ _).
  assert (is_pair (heap ff) s3 (AtomQuote fe) s2) as Hp3 by apply is_pair_new.
  assert (is_pair (heap ff) s2 x s1) as Hp2 by apply is_pair_ext, is_pair_new.
  assert (is_pair (heap ff) s1 a None) as Hp1.
  { simpl. rewrite Hl. apply is_pair_ext, is_pair_ext, is_pair_ext, is_pair_new. }
  assert (AtomQuote fe = AtomQuote f) as Eq.
  { apply readScalar_reads in E. destruct E as [(_ & _ & Eq & _) _]. exact Eq. }
  exists (set_readStack s2 ff), tbl'.
  split.
  { rewrite <- Eq.
    exact (Read_queue (set_readStack s3 ff) m s3 (AtomQuote fe) s2 eq_refl ltac:(done) Hp3). }
  split.
  - split.
    { apply (table_ok_frame fd tbl'); [done|done|done|].
      simpl. rewrite <- app_assoc. by eexists. }
    split; [|simpl; by rewrite Hin in Hple |- *].
    simpl. split; [done|]. exists x, s1. split; [done|].
    split; [done|]. exists a, None. split; [done|done].
  - unfold cost. simpl. rewrite Hin, Hp'. simpl. lia.
Qed.

Lemma reader_wf_set_pos f tbl n :
  reader_wf f tbl 0 -> n <= length (input f) -> reader_wf (set_pos n f) tbl 0.
Proof.
  intros Hwf Hn. apply (reader_wf_frame f tbl 0); try done.
  exists []. simpl. by rewrite app_nil_r.
Qed.

Lemma reader_wf_grow f tbl k c o : reader_wf f tbl k -> reader_wf (grow f c o) tbl k.
Proof.
  intros Hwf. apply (reader_wf_frame f tbl k); try done.
  - simpl. by eexists.
  - apply Hwf.
Qed.
Lemma Read_total_aux n : forall f tbl k,
  reader_wf f tbl k ->
  (cost f tbl k + 2 <= n ->
     Read n f = Panic (FAIL "End of input: could not read()") \/
     exists p f', Read n f = Ok p f' /\
       ((k <> 0 \/ exists c, peek f = Ok c f /\ stops_skip c = true /\ byte_eq c ")" = false) ->
        exists tbl' k', reader_wf f' tbl' k' /\ cost f' tbl' k' + 1 <= cost f tbl k)) /\
  (cost f tbl k + 3 <= n ->
     readList n f = Panic (FAIL "End of input: could not read()") \/
     exists p f', readList n f = Ok p f' /\
       exists tbl' k', reader_wf f' tbl' k' /\ cost f' tbl' k' + 1 <= cost f tbl k).
Proof.
  induction n as [|m IH]; intros f tbl k Hwf; [split; intros; lia|].
  pose proof Hwf as (Hok & Hch & Hpos).
  (* reading one more element of a list, then the rest of the list *)
  assert (forall f1 tbl1 k1,
    reader_wf f1 tbl1 k1 -> cost f1 tbl1 k1 <= cost f tbl k -> cost f tbl k + 3 <= S m ->
    (k1 <> 0 \/ exists c, peek f1 = Ok c f1 /\ stops_skip c = true /\ byte_eq c ")" = false) ->
    (first ← Read m; second ← readList m; NewPair first second) f1
    = Panic (FAIL "End of input: could not read()") \/
    exists p f', (first ← Read m; second ← readList m; NewPair first second) f1 = Ok p f' /\
      exists tbl' k', reader_wf f' tbl' k' /\ cost f' tbl' k' + 1 <= cost f tbl k) as Hcont.
  { intros f1 tbl1 k1 Hwf1 Hc1 Hn Hstrict.
    destruct (proj1 (IH f1 tbl1 k1 Hwf1)) as [E|(p1 & f2 & E & Hpost)]; [lia| |].
    { left. by apply bind_Panic. }
    destruct (Hpost Hstrict) as (tbl2 & k2 & Hwf2 & Hc2).
    rewrite !(bind_Ok _ _ _ _ _ E).
    destruct (proj2 (IH f2 tbl2 k2 Hwf2)) as [E2|(p2 & f3 & E2 & tbl3 & k3 & Hwf3 & Hc3)]; [lia| |].
    { left. by apply bind_Panic. }
    right. rewrite !(bind_Ok _ _ _ _ _ E2), NewPair_ok. eexists _, _. split; [done|].
    exists tbl3, k3. split; [by apply reader_wf_grow|]. unfold cost in *. simpl. lia. }
  (* skipping to the next byte, when nothing is queued *)
  assert (k = 0 -> cost f tbl k + 2 <= S m ->
    exists f1 c,
      skipWhiteAndComments m f = Ok tt f1 /\ peek f1 = Ok c f1 /\ stops_skip c = true /\
      reader_wf f1 tbl 0 /\ cost f1 tbl 0 <= cost f tbl k /\
      (byte_eq c NUL = false -> exists rest, drop (pos f1) (input f1) = c :: rest) /\
      (forall c', peek f = Ok c' f -> stops_skip c' = true -> f1 = f /\ c = c')) as Hskip.
  { intros -> Hn.
    destruct (skipWhite_spec m f Hpos) as (f1 & c & Es & Hfr & Hp1 & Hpk & Hst);
      [unfold cost in Hn; lia|].
    exists f1, c. split; [done|]. split; [done|]. split; [done|].
    assert (input f1 = input f) as Hin by (by rewrite Hfr).
    split.
    { rewrite Hfr. apply reader_wf_set_pos; [done|lia]. }
    split; [unfold cost; rewrite Hin; lia|].
    split.
    { intros Hz. destruct (peek_inv _ _ _ Hpk) as [_ [Hc|Hd]]; [congruence|done]. }
    intros c' Hpk' Hst'. destruct m as [|m']; [unfold cost in Hn; lia|].
    rewrite (skipWhite_stop f m' c' Hpk' Hst') in Es. injection Es as <-.
    split; [done|]. congruence. }
  split; intros Hn.
  - (* Read *)
    remember (Read (S m) f) as r eqn:Er.
    rewrite Read_unfold in Er. unfold bind at 1, gets in Er.
    destruct k as [|k].
    + simpl in Hch. rewrite Hch in Er.
      change (ptr_eq None None) with true in Er. cbn [negb] in Er.
      destruct (Hskip eq_refl Hn) as (f1 & c & Es & Hpk & Hst & Hwf1 & Hc1 & Hdrop & Hsame).
      rewrite (bind_Ok _ _ _ _ _ Es), (bind_Ok _ _ _ _ _ Hpk) in Er.
      destruct (byte_eq c NUL) eqn:Hz; [by left|].
      destruct (Hdrop eq_refl) as [rest Hd].
      pose proof (drop_pos_le _ _ _ _ Hd) as Hle.
      pose proof (advance_ok f1 c rest Hd Hz) as Ea.
      set (f2 := set_pos (S (pos f1)) f1) in Ea.
      assert (reader_wf f2 tbl 0) as Hwf2 by (by apply reader_wf_set_pos).
      assert (cost f2 tbl 0 + 4 <= cost f1 tbl 0) as Hc2.
      { unfold cost, f2. simpl. lia. }
      destruct (byte_eq c "'") eqn:Hq.
      { rewrite (bind_Ok _ _ _ _ _ Ea) in Er. right. eexists _, _. split; [exact Er|].
        intros _. exists tbl, 0. split; [done|lia]. }
      destruct (byte_eq c "^") eqn:Hcaret.
      { rewrite (bind_Ok _ _ _ _ _ Ea) in Er. unfold bind at 1, gets in Er.
        destruct (directive_total f2 tbl (AtomPush f2) m) as (f' & tbl' & E & Hwf' & Hc');
          [apply Hwf2 | apply Hwf2 | unfold cost in *; lia | lia|].
        right. eexists _, _. split; [exact (eq_trans Er E)|].
        intros _. exists tbl', 2. split; [done|lia]. }
      destruct (byte_eq c "$") eqn:Hdollar.
      { rewrite (bind_Ok _ _ _ _ _ Ea) in Er. unfold bind at 1, gets in Er.
        destruct (directive_total f2 tbl (AtomPop f2) m) as (f' & tbl' & E & Hwf' & Hc');
          [apply Hwf2 | apply Hwf2 | unfold cost in *; lia | lia|].
        right. eexists _, _. split; [exact (eq_trans Er E)|].
        intros _. exists tbl', 2. split; [done|lia]. }
      destruct (byte_eq c "(") eqn:Hopen.
      { rewrite (bind_Ok _ _ _ _ _ Ea) in Er.
        destruct (proj2 (IH f2 tbl 0 Hwf2)) as [E|(p & f' & E & tbl' & k' & Hwf' & Hc')]; [lia| |].
        - left. congruence.
        - right. exists p, f'. split; [congruence|]. intros _. exists tbl', k'. split; [done|lia]. }
      (* a scalar *)
      destruct Hwf1 as (Hok1 & Hch1 & Hpos1).
      destruct (readScalar_total f1 tbl m Hok1 Hpos1)
        as (x & f' & tbl' & tok & E & Hok' & Hlen & Hp' & Hple & Hin & Hrs & Hh & Htok);
        [unfold cost in *; lia|].
      right. exists x, f'. split; [congruence|].
      intros [Hk|(c' & Hpk' & Hst' & Hcl')]; [done|].
      destruct (Hsame c' Hpk' Hst') as [-> <-].
      assert (isPunctuation c = false) as Hnp.
      { unfold stops_skip in Hst. rewrite Hz in Hst. simpl in Hst.
        apply negb_true_iff, orb_false_iff in Hst as [Hw Hs].
        unfold isPunctuation, isDirective. by rewrite Hz, Hw, Hq, Hcaret, Hdollar, Hopen, Hcl', Hs. }
      pose proof (Htok c rest Hd Hnp) as Hone.
      exists tbl', 0. split.
      { split; [done|]. split; [|done]. simpl. rewrite Hrs. exact Hch1. }
      unfold cost. rewrite Hin, Hp'. lia.
    + destruct Hch as (Hne & x & rs' & Hp & Hch').
      unfold ptr_eq in Er. rewrite bool_decide_eq_false_2 in Er by done. cbn [negb] in Er.
      rewrite (bind_Ok _ _ _ _ _ (cdr_ok _ _ _ _ Hp)) in Er.
      unfold bind at 1, modify in Er.
      rewrite (car_ok (set_readStack rs' f) _ _ _ Hp) in Er.
      right. eexists _, _. split; [exact Er|]. intros _.
      exists tbl, k. split; [|unfold cost; simpl; lia].
      split; [|split; [exact Hch'|done]].
      apply (table_ok_frame f tbl); [done|done|done|].
      exists []. simpl. by rewrite app_nil_r.
  - (* readList *)
    remember (readList (S m) f) as r eqn:Er.
    rewrite readList_unfold in Er. unfold bind at 1, gets in Er.
    destruct k as [|k].
    + simpl in Hch. rewrite Hch in Er.
      change (ptr_eq None None) with true in Er. cbv iota in Er.
      destruct (Hskip eq_refl) as (f1 & c & Es & Hpk & Hst & Hwf1 & Hc1 & Hdrop & Hsame); [lia|].
      assert ((skipWhiteAndComments m;;
               c ← peek;
               if byte_eq c ")" then advance;; ret true else ret false) f
              = Ok (byte_eq c ")") (if byte_eq c ")" then set_pos (S (pos f1)) f1 else f1)) as EC.
      { rewrite (bind_Ok _ _ _ _ _ Es), (bind_Ok _ _ _ _ _ Hpk).
        destruct (byte_eq c ")") eqn:Hcl; [|done].
        assert (byte_eq c NUL = false) as Hz.
        { apply Ascii.eqb_eq in Hcl. by subst c. }
        destruct (Hdrop Hz) as [rest Hd].
        by rewrite (bind_Ok _ _ _ _ _ (advance_ok f1 c rest Hd Hz)). }
      rewrite (bind_Ok _ _ _ _ _ EC) in Er.
      destruct (byte_eq c ")") eqn:Hcl.
      * assert (byte_eq c NUL = false) as Hz.
        { apply Ascii.eqb_eq in Hcl. by subst c. }
        destruct (Hdrop Hz) as [rest Hd].
        pose proof (drop_pos_le _ _ _ _ Hd) as Hle.
        right. eexists _, _. split; [exact Er|].
        exists tbl, 0. split; [by apply reader_wf_set_pos|].
        unfold cost in *. simpl. lia.
      * rewrite Er. apply (Hcont f1 tbl 0 Hwf1 Hc1 Hn). right. by exists c.
    + pose proof Hch as (Hne & _).
      unfold ptr_eq in Er. rewrite bool_decide_eq_false_2 in Er by done.
      unfold bind at 1, ret in Er.
      rewrite Er. apply (Hcont f tbl (S k) Hwf); [lia|done|]. by left.
Qed.
(** X29. [Read] terminates and fails in one way only.  On a state that
    satisfies the reader's invariant and with a budget above the bound
    (the interned atoms, four times the bytes left, the objects
    queued), [Read] returns an object or fails with "End of input": it
    never runs on for ever, never trips an assertion of [intern] and
    never dereferences nil.  A list whose closing parenthesis is
    missing is the second case. *)
Theorem Read_returns_or_end_of_input
    (f : Forsp) (tbl : list (ptr * gostring)) (q : list Val) (fuel : nat) :
  reader_ok f tbl q ->
  length tbl + 4 * (length (input f) - pos f) + length q + 2 <= fuel ->
  ((exists p f', Read fuel f = Ok p f') \/
   Read fuel f = Panic (FAIL "End of input: could not read()")) /\
  (forall t, q = [] -> drop (pos f) (input f) = "("%char :: t ->
             (forall i, pos f < i -> input f !! i <> Some ")"%char) ->
             Read fuel f = Panic (FAIL "End of input: could not read()")).
Proof.
  intros (Hok & _ & _ & _ & Hq & Hpos) Hf.
  assert (reader_wf f tbl (length q)) as Hwf.
  { split; [done|]. split; [by eapply queue_chain|done]. }
  destruct (proj1 (Read_total_aux fuel f tbl (length q) Hwf) Hf) as [E|(p & f' & E & _)].
  - split; [by right|done].
  - split; [left; by exists p, f'|].
    intros t -> Hd Hno. simpl in Hq.
    destruct fuel as [|[|n]]; [done| |].
    + rewrite Read_unfold in E. unfold bind at 1, gets in E. rewrite Hq in E. by simpl in E.
    + rewrite (Read_at_open f t n Hq Hd) in E.
      destruct (readList_closes _ _ _ _ E) as (i & Hi & Hc). simpl in Hi.
      destruct (Hno i); [lia|done].
Qed.

Lemma Read_returns_or_end_of_input_witness :
  ((exists p f', Read 100 unclosed = Ok p f') \/
   Read 100 unclosed = Panic (FAIL "End of input: could not read()")) /\
  (forall t, @nil Val = [] -> drop (pos unclosed) (input unclosed) = "("%char :: t ->
             (forall i, pos unclosed < i -> input unclosed !! i <> Some ")"%char) ->
             Read 100 unclosed = Panic (FAIL "End of input: could not read()")).
Proof.
  apply (Read_returns_or_end_of_input unclosed initial_table [] 100).
  - apply initial_reader_ok.
  - vm_compute; lia.
Defined.

(** X30. A list in a program is not run where it stands: evaluating a
    Pair or the nil object pushes a new Closure whose body is that
    very object and whose environment is the environment at that
    point, and goes on with the rest of the list in the same
    environment. *)
Theorem ComputeEnv_list_literal
    (f : Forsp) (fuel : nat) (comp env lst rest : ptr) (o : Obj) :
  is_pair (heap f) comp lst rest -> comp <> nil_ f -> lst <> AtomQuote f ->
  obj_at (heap f) lst o -> o_Tag o = TagNil \/ o_Tag o = TagPair ->
  exists cl f',
    ComputeEnv (S fuel) comp env f = ComputeEnv fuel rest env f' /\
    is_closure (heap f') cl lst env /\
    is_pair (heap f') (Stack f') cl (Stack f) /\
    f' = set_Stack (Stack f') (set_heap (heap f') f) /\
    (exists l, heap f' = heap f ++ l).
Proof.
  intros Hp Hn Hq Ho Ht.
  rewrite (ComputeEnv_eval _ _ _ _ _ _ Hp Hn Hq).
  unfold bind at 1. unfold eval, eval_with.
  rewrite (bind_Ok _ _ _ _ _ (is_ok _ _ _ TagAtom Ho)).
  rewrite bool_decide_eq_false_2 by (destruct Ht as [-> | ->]; done).
  rewrite (bind_Ok _ _ _ _ _ (is_ok _ _ _ TagNil Ho)).
  rewrite (bind_Ok _ _ _ _ _ (is_ok _ _ _ TagPair Ho)).
  assert (bool_decide (o_Tag o = TagNil) || bool_decide (o_Tag o = TagPair) = true) as ->.
  { destruct Ht as [-> | ->]; done. }
  rewrite (bind_Ok _ _ _ _ _ (NewClosure_ok lst env f)).
  rewrite (bind_Ok _ _ _ _ _ (Push_ok _ _)).
  eexists _, _. split; [reflexivity|].
  split; [exact (is_closure_ext _ _ _ _ _ (is_closure_new _ _ _))|].
  split; [exact (pushed_top _ _)|].
  split; [reflexivity|].
  simpl. rewrite <- app_assoc. by eexists.
Qed.

Lemma ComputeEnv_list_literal_witness :
  exists cl f',
    ComputeEnv 31 (Some 193) (Some 179) (snd literal_program)
    = ComputeEnv 30 (Some 191) (Some 179) f' /\
    is_closure (heap f') cl (Some 187) (Some 179) /\
    is_pair (heap f') (Stack f') cl (Stack (snd literal_program)) /\
    f' = set_Stack (Stack f') (set_heap (heap f') (snd literal_program)) /\
    (exists l, heap f' = heap (snd literal_program) ++ l).
Proof.
  apply (ComputeEnv_list_literal (snd literal_program) 30 (Some 193) (Some 179) (Some 187)
           (Some 191) (mkObj None None None (Some 186) None None TagPair)).
  - decode.
  - by_eval.
  - by_eval.
  - decode.
  - by right.
Defined.
